(** * cpputils: bounded queues and string interning, embedded in Rocq

    Shallow embedding of
    - [Queue.h]            : [SPSCQueue<T,Capacity>] and [SPMCQueue<T,Capacity>],
    - [include/SpscQueue.h]: [cpputils::SpscQueue<T,INITIAL_CAPACITY>],
    - [include/SpmcQueue.h]: the bounded work-stealing deque [SpmcQueue<T,LogSize>],
    - [StringIntern.h]     : [fnv1a], [StringPool].

    Conventions.
    - [size_t] is a 64-bit unsigned integer: a [Z] in [0, 2^64) with the
      wrap-around of every addition and subtraction written as [wrap].
    - [int64_t] counters of the deque are [Z]; signed overflow is undefined in
      C++ and needs 2^63 operations, so no wrap-around is written for them
      (lemma [run_counters] bounds them by the length of the execution).
    - [std::vector<T>] is a [list T]; [v[i]] outside the vector is undefined
      behaviour, which the embedding reports as the outcome [Undefined].
    - a call is a function from the object's state to an [outcome] holding the
      new state and the returned value; reference out-parameters are threaded
      through as values. *)

From Stdlib Require Import ZArith Lia Bool.
From stdpp Require Import base tactics option list gmap strings.

Local Open Scope Z_scope.

(** ** Outcomes of a call *)

Inductive outcome (A : Type) : Type :=
| Ret (a : A)   (* the call returns [a] *)
| Undefined     (* undefined behaviour: access outside a vector *)
| Unfinished.   (* the bound on loop iterations / recursion depth ran out *)
Arguments Ret {A} a.
Arguments Undefined {A}.
Arguments Unfinished {A}.

#[global] Instance outcome_ret : MRet outcome := fun A a => Ret a.
#[global] Instance outcome_bind : MBind outcome := fun A B k m =>
  match m with
  | Ret a => k a
  | Undefined => Undefined
  | Unfinished => Unfinished
  end.

(** ** [size_t] arithmetic *)

Module SizeT.

Definition bits : Z := 64.
Definition modulus : Z := 2 ^ bits.

(** Reduction of a mathematical integer to its [size_t] value. *)
Definition wrap (z : Z) : Z := z mod modulus.

(** [n] is a power of two representable in [size_t]. *)
Definition pow2 (n : Z) : Prop := ∃ k : Z, 0 ≤ k < bits ∧ n = 2 ^ k.

End SizeT.

(** ** [std::vector<T>] element access *)

Section Vector.
Context {T : Type}.

(** [v[i]] read. *)
Definition vec_load (v : list T) (i : Z) : outcome T :=
  if decide (0 ≤ i) then
    match v !! Z.to_nat i with
    | Some x => Ret x
    | None => Undefined
    end
  else Undefined.

(** [v[i] = x]. *)
Definition vec_store (v : list T) (i : Z) (x : T) : outcome (list T) :=
  if decide (0 ≤ i < Z.of_nat (length v)) then Ret (<[Z.to_nat i := x]> v)
  else Undefined.

End Vector.

(** ** [std::vector<T>] construction with a size

    [std::vector<T>(n)], and [v.resize(n)] on an empty [v], hold [n]
    value-initialised elements ([T0] stands for [T()]).  They throw
    [std::length_error] when [n] exceeds [max_size()] and [std::bad_alloc]
    when the allocator does not provide the storage; [allocates n] tells
    whether it provides the storage of [n] elements.  No storage is asked
    for when [n] is zero. *)

Inductive vector_exception : Type := length_error | bad_alloc.

Definition vec_sized {T : Type} (max_size : Z) (allocates : Z → bool) (T0 : T) (n : Z)
  : vector_exception + list T :=
  if max_size <? n then inl length_error
  else if (0 <? n) && negb (allocates n) then inl bad_alloc
  else inr (replicate (Z.to_nat n) T0).

(** ** [std::atomic<size_t>::compare_exchange_weak / _strong]

    [cell] is the value stored in the atomic, [expected] the caller's local
    copy.  The result is the new stored value, the new value of [expected]
    and the boolean returned.  The weak form may fail although the values
    agree; [spurious] says whether this attempt does. *)

Definition compare_exchange_strong (cell expected desired : Z) : Z * Z * bool :=
  if cell =? expected then (desired, expected, true) else (cell, cell, false).

Definition compare_exchange_weak (spurious : bool) (cell expected desired : Z)
  : Z * Z * bool :=
  if spurious then (cell, cell, false)
  else compare_exchange_strong cell expected desired.

(** A schedule lists, for the successive weak compare-exchange attempts of one
    call, whether the attempt fails spuriously.  A schedule is [fair] when at
    least one attempt is not spurious. *)
Definition fair (sched : list bool) : Prop := false ∈ sched.

(** ** [Queue.h]: [SPSCQueue<T, Capacity>] *)

Module SPSCQueue.
Section Defs.
Context {T : Type}.
(** [T()], the value [data.resize(Capacity)] fills the vector with. *)
Context (T0 : T).

Record t : Type := Mk {
  data : list T;
  head : Z;
  tail : Z;
  mask : Z
}.

Definition set_data (q : t) (d : list T) : t := Mk d (head q) (tail q) (mask q).
Definition set_head (q : t) (h : Z) : t := Mk (data q) h (tail q) (mask q).
Definition set_tail (q : t) (x : Z) : t := Mk (data q) (head q) x (mask q).

(** The constructor either builds the object or throws
    [std::invalid_argument]. *)
Inductive constructed : Type :=
| Built (q : t)
| invalid_argument.

(** [SPSCQueue() : mask(Capacity - 1)]: throws when [Capacity & mask] is not
    zero, otherwise resizes [data] and zeroes both indices. *)
Definition new (Capacity : Z) : constructed :=
  let mask := SizeT.wrap (Capacity - 1) in
  if negb (Z.land Capacity mask =? 0) then invalid_argument
  else Built (Mk (replicate (Z.to_nat Capacity) T0) 0 0 mask).

(** The [while (true)] loop of [enqueue]; one schedule entry is consumed by
    each [compare_exchange_weak]. *)
Fixpoint enqueue_loop (sched : list bool) (q : t) (currentTail : Z) (value : T)
  : outcome (t * bool) :=
  let nextTail := Z.land (SizeT.wrap (currentTail + 1)) (mask q) in
  if nextTail =? head q then Ret (q, false)
  else
    d ← vec_store (data q) currentTail value;
    let q := set_data q d in
    match sched with
    | [] => Unfinished
    | spurious :: sched =>
        let '(cell, currentTail, ok) :=
          compare_exchange_weak spurious (tail q) currentTail nextTail in
        let q := set_tail q cell in
        if ok then Ret (q, true) else enqueue_loop sched q currentTail value
    end.

Definition enqueue (sched : list bool) (q : t) (value : T) : outcome (t * bool) :=
  enqueue_loop sched q (tail q) value.

(** The loop of [dequeue]; [result] is the reference out-parameter. *)
Fixpoint dequeue_loop (sched : list bool) (q : t) (currentHead : Z) (result : T)
  : outcome (t * T * bool) :=
  let currentTail := tail q in
  if currentHead =? currentTail then Ret (q, result, false)
  else
    result ← vec_load (data q) currentHead;
    let nextHead := Z.land (SizeT.wrap (currentHead + 1)) (mask q) in
    match sched with
    | [] => Unfinished
    | spurious :: sched =>
        let '(cell, currentHead, ok) :=
          compare_exchange_weak spurious (head q) currentHead nextHead in
        let q := set_head q cell in
        if ok then Ret (q, result, true) else dequeue_loop sched q currentHead result
    end.

Definition dequeue (sched : list bool) (q : t) (result : T) : outcome (t * T * bool) :=
  dequeue_loop sched q (head q) result.

Definition empty (q : t) : bool := head q =? tail q.

Definition full (q : t) : bool :=
  let currentTail := tail q in
  let nextTail := Z.land (SizeT.wrap (currentTail + 1)) (mask q) in
  nextTail =? head q.

(** [size()]; [Capacity] is the template parameter. *)
Definition size (Capacity : Z) (q : t) : Z :=
  let currentHead := head q in
  let currentTail := tail q in
  Z.land (SizeT.wrap (SizeT.wrap (currentTail - currentHead) + Capacity)) (mask q).

Definition capacity (Capacity : Z) (q : t) : Z := Capacity.

(** The constructor with the exceptions of [data.resize(Capacity)]:
    [SPSCQueue() : mask(Capacity - 1)] throws [std::invalid_argument] when
    [Capacity & mask] is not zero; otherwise [data.resize(Capacity)] runs on
    the empty vector and may throw, and then both indices are zeroed. *)
Inductive construction : Type :=
| Constructed (q : t)
| threw_invalid_argument
| resize_threw (e : vector_exception).

Definition constructor (max_size : Z) (allocates : Z → bool) (Capacity : Z)
  : construction :=
  let mask := SizeT.wrap (Capacity - 1) in
  if negb (Z.land Capacity mask =? 0) then threw_invalid_argument
  else
    match vec_sized max_size allocates T0 Capacity with
    | inl e => resize_threw e
    | inr data => Constructed (Mk data 0 0 mask)
    end.

End Defs.
End SPSCQueue.

(** ** [Queue.h]: [SPMCQueue<T, Capacity>] *)

Module SPMCQueue.
Section Defs.
Context {T : Type}.
Context (T0 : T).

Record t : Type := Mk {
  data : list T;
  head : Z;
  tail : Z;
  mask : Z
}.

Definition set_data (q : t) (d : list T) : t := Mk d (head q) (tail q) (mask q).
Definition set_head (q : t) (h : Z) : t := Mk (data q) h (tail q) (mask q).
Definition set_tail (q : t) (x : Z) : t := Mk (data q) (head q) x (mask q).

Inductive constructed : Type :=
| Built (q : t)
| invalid_argument.

Definition new (Capacity : Z) : constructed :=
  let mask := SizeT.wrap (Capacity - 1) in
  if negb (Z.land Capacity mask =? 0) then invalid_argument
  else Built (Mk (replicate (Z.to_nat Capacity) T0) 0 0 mask).

Fixpoint enqueue_loop (sched : list bool) (q : t) (currentTail : Z) (value : T)
  : outcome (t * bool) :=
  let nextTail := Z.land (SizeT.wrap (currentTail + 1)) (mask q) in
  if nextTail =? head q then Ret (q, false)
  else
    d ← vec_store (data q) currentTail value;
    let q := set_data q d in
    match sched with
    | [] => Unfinished
    | spurious :: sched =>
        let '(cell, currentTail, ok) :=
          compare_exchange_weak spurious (tail q) currentTail nextTail in
        let q := set_tail q cell in
        if ok then Ret (q, true) else enqueue_loop sched q currentTail value
    end.

Definition enqueue (sched : list bool) (q : t) (value : T) : outcome (t * bool) :=
  enqueue_loop sched q (tail q) value.

(** [dequeue], lines 40-53. *)
Fixpoint dequeue_loop (sched : list bool) (q : t) (currentHead : Z) (result : T)
  : outcome (t * T * bool) :=
  let currentTail := tail q in
  if currentHead =? currentTail then Ret (q, result, false)
  else
    result ← vec_load (data q) currentHead;
    let nextHead := Z.land (SizeT.wrap (currentHead + 1)) (mask q) in
    match sched with
    | [] => Unfinished
    | spurious :: sched =>
        let '(cell, currentHead, ok) :=
          compare_exchange_weak spurious (head q) currentHead nextHead in
        let q := set_head q cell in
        if ok then Ret (q, result, true) else dequeue_loop sched q currentHead result
    end.

Definition dequeue (sched : list bool) (q : t) (result : T) : outcome (t * T * bool) :=
  dequeue_loop sched q (head q) result.

(** [steal], lines 55-68. *)
Fixpoint steal_loop (sched : list bool) (q : t) (currentHead : Z) (result : T)
  : outcome (t * T * bool) :=
  let currentTail := tail q in
  if currentHead =? currentTail then Ret (q, result, false)
  else
    result ← vec_load (data q) currentHead;
    let nextHead := Z.land (SizeT.wrap (currentHead + 1)) (mask q) in
    match sched with
    | [] => Unfinished
    | spurious :: sched =>
        let '(cell, currentHead, ok) :=
          compare_exchange_weak spurious (head q) currentHead nextHead in
        let q := set_head q cell in
        if ok then Ret (q, result, true) else steal_loop sched q currentHead result
    end.

Definition steal (sched : list bool) (q : t) (result : T) : outcome (t * T * bool) :=
  steal_loop sched q (head q) result.

Definition empty (q : t) : bool := head q =? tail q.

Definition full (q : t) : bool :=
  let currentTail := tail q in
  let nextTail := Z.land (SizeT.wrap (currentTail + 1)) (mask q) in
  nextTail =? head q.

Definition size (Capacity : Z) (q : t) : Z :=
  let currentHead := head q in
  let currentTail := tail q in
  Z.land (SizeT.wrap (SizeT.wrap (currentTail - currentHead) + Capacity)) (mask q).

Definition capacity (Capacity : Z) (q : t) : Z := Capacity.

(** The constructor with the exceptions of [data.resize(Capacity)]:
    [SPMCQueue() : mask(Capacity - 1)] throws [std::invalid_argument] when
    [Capacity & mask] is not zero; otherwise [data.resize(Capacity)] runs on
    the empty vector and may throw, and then both indices are zeroed. *)
Inductive construction : Type :=
| Constructed (q : t)
| threw_invalid_argument
| resize_threw (e : vector_exception).

Definition constructor (max_size : Z) (allocates : Z → bool) (Capacity : Z)
  : construction :=
  let mask := SizeT.wrap (Capacity - 1) in
  if negb (Z.land Capacity mask =? 0) then threw_invalid_argument
  else
    match vec_sized max_size allocates T0 Capacity with
    | inl e => resize_threw e
    | inr data => Constructed (Mk data 0 0 mask)
    end.

End Defs.
End SPMCQueue.

(** ** [include/SpscQueue.h]: [cpputils::SpscQueue<T, INITIAL_CAPACITY>]

    Embedded: the constructor, the observers [empty], [full], [size] and
    [capacity], the move constructor and the move assignment, and the
    wrappers [enqueue], [emplace], [try_enqueue] and [try_emplace] as far as
    the template argument they select.

    Not embedded: [try_dequeue], [peek], [pop], [inner_enqueue] and
    [resize].  Each of them starts with
    [auto head_ = head_.load(); auto tail_ = tail_.load();], a declaration
    that names the local in its own initialiser and is ill-formed, so that
    no instantiation of these members compiles: the header gives them no
    behaviour that an embedding could follow. *)

Module SpscQueue.
Section Defs.
Context {T : Type}.
(** [T()], the value a [std::vector<T>(n)] is filled with. *)
Context (T0 : T).

Record t : Type := Mk {
  buffer_ : list T;
  head_ : Z;
  tail_ : Z;
  capacity_ : Z
}.

(** [enum AllocationMode { CanAlloc, CannotAlloc };] *)
Inductive AllocationMode : Type := CanAlloc | CannotAlloc.

(** Enumerators without initialiser count from zero. *)
Definition enumerator (m : AllocationMode) : Z :=
  match m with
  | CanAlloc => 0
  | CannotAlloc => 1
  end.

(** [inner_enqueue] is declared [template<bool canAlloc, typename... Args>]
    and instantiated as [inner_enqueue<CanAlloc>] and
    [inner_enqueue<CannotAlloc>]: the enumerator is converted to [bool], zero
    to [false] and one to [true]. *)
Definition template_bool (m : AllocationMode) : bool := negb (enumerator m =? 0).

(** Construction builds the object, stops at a failed [assert], or leaves
    with the exception of the vector constructor. *)
Inductive constructed : Type :=
| Built (q : t)
| assertion_failed
| vector_threw (e : vector_exception).

(** [explicit SpscQueue()].  Members are initialised in the order of their
    declaration, [buffer_] first, so [buffer_(capacity_)] is evaluated before
    [capacity_] receives [INITIAL_CAPACITY]: the length of the vector is the
    value [stale] that the storage of [capacity_] held, and the vector
    constructor may throw for it.  The two [assert]s of the body run
    afterwards. *)
Definition new (max_size : Z) (allocates : Z → bool) (INITIAL_CAPACITY stale : Z)
  : constructed :=
  match vec_sized max_size allocates T0 stale with
  | inl e => vector_threw e
  | inr buffer =>
      if negb (0 <? INITIAL_CAPACITY) then assertion_failed
      else if negb (Z.land INITIAL_CAPACITY (SizeT.wrap (INITIAL_CAPACITY - 1)) =? 0)
      then assertion_failed
      else Built (Mk buffer 0 0 INITIAL_CAPACITY)
  end.

Definition empty (q : t) : bool := head_ q =? tail_ q.

Definition full (q : t) : bool :=
  Z.land (SizeT.wrap (tail_ q + 1)) (SizeT.wrap (capacity_ q - 1)) =? head_ q.

Definition size (q : t) : Z :=
  Z.land (SizeT.wrap (tail_ q - head_ q)) (SizeT.wrap (capacity_ q - 1)).

Definition capacity (q : t) : Z := SizeT.wrap (capacity_ q - 1).

(** [try_enqueue] and [try_emplace]:
    [return inner_enqueue<CannotAlloc>(element);].  The callee is a
    parameter, applied to the [bool] of its template argument. *)
Definition try_enqueue {R : Type} (inner_enqueue : bool → t → T → R)
    (q : t) (element : T) : R :=
  inner_enqueue (template_bool CannotAlloc) q element.

(** [enqueue] and [emplace]: [return inner_enqueue<CanAlloc>(element);]. *)
Definition enqueue {R : Type} (inner_enqueue : bool → t → T → R)
    (q : t) (element : T) : R :=
  inner_enqueue (template_bool CanAlloc) q element.

(** [SpscQueue(SpscQueue&& other)]: the new object, and what is left of
    [other].  A [std::vector] that was moved from by move construction is
    empty. *)
Definition move_construct (other : t) : t * t :=
  let this := Mk (buffer_ other) (head_ other) (tail_ other) (capacity_ other) in
  let other := Mk [] 0 0 0 in
  (this, other).

(** [operator=(SpscQueue&& other)] on two distinct objects; [leftover] is
    the valid but unspecified content that the move assignment of
    [std::vector] leaves in [other.buffer_]. *)
Definition move_assign (leftover : list T) (this other : t) : t * t :=
  let this := Mk (buffer_ other) (head_ other) (tail_ other) (capacity_ other) in
  let other := Mk leftover 0 0 0 in
  (this, other).

End Defs.
End SpscQueue.

(** ** [include/SpmcQueue.h]: the work-stealing deque [SpmcQueue<T, LogSize>]

    Calls made one after the other by one thread.  [T] is a pointer type;
    [nullptr] is its null value. *)

Module SpmcQueue.
Section Defs.
Context {T : Type}.
Context (nullptr : T).
Context (LogSize : Z).

Definition BufferSize_ : Z := Z.shiftl 1 LogSize.
Definition BufferMask_ : Z := BufferSize_ - 1.

Record t : Type := Mk {
  head_ : Z;
  tail_ : Z;
  buffer_ : list T
}.

Definition set_head (q : t) (h : Z) : t := Mk h (tail_ q) (buffer_ q).
Definition set_tail (q : t) (x : Z) : t := Mk (head_ q) x (buffer_ q).

(** [buffer_[i & BufferMask_].load(...)]: the masked index lies inside the
    array whenever it has [BufferSize_] cells. *)
Definition buffer_load (q : t) (i : Z) : T :=
  default nullptr (buffer_ q !! Z.to_nat (Z.land i BufferMask_)).

(** [buffer_[i & BufferMask_].store(o, ...)]. *)
Definition buffer_store (q : t) (i : Z) (o : T) : t :=
  Mk (head_ q) (tail_ q) (<[Z.to_nat (Z.land i BufferMask_) := o]> (buffer_ q)).

(** [SpmcQueue() = default]: the empty deque.  The atomics are
    value-initialised, as the default constructor of [std::atomic] does
    since C++20. *)
Definition new : t := Mk 0 0 (replicate (Z.to_nat BufferSize_) nullptr).

Definition empty (q : t) : bool :=
  let tail := tail_ q in
  let head := head_ q in
  tail <=? head.

Definition size (q : t) : Z :=
  let tail := tail_ q in
  let head := head_ q in
  if tail >=? head then tail - head else 0.

Definition capacity : Z := BufferSize_ - 1.

Definition try_push (q : t) (o : T) : t * bool :=
  let tail := tail_ q in
  let head := head_ q in
  if (tail - head) >=? BufferSize_ - 1 then (q, false)
  else
    let q := buffer_store q tail o in
    let q := set_tail q (tail + 1) in
    (q, true).

(** [push(o, on_full)]; the boolean tells whether [on_full] was invoked. *)
Definition push (q : t) (o : T) : t * bool :=
  let tail := tail_ q in
  let head := head_ q in
  if (tail - head) >=? BufferSize_ - 1 then (q, true)
  else
    let q := buffer_store q tail o in
    let q := set_tail q (tail + 1) in
    (q, false).

Definition pop (q : t) : t * T :=
  let tail := tail_ q - 1 in
  let q := set_tail q tail in
  let head := head_ q in
  if head <=? tail then
    let item := buffer_load q tail in
    if head =? tail then
      let '(cell, _, ok) := compare_exchange_strong (head_ q) head (head + 1) in
      let q := set_head q cell in
      let item := if ok then item else nullptr in
      let q := set_tail q (tail + 1) in
      (q, item)
    else (q, item)
  else
    let q := set_tail q (tail + 1) in
    (q, nullptr).

Definition steal (q : t) : t * T :=
  let head := head_ q in
  let tail := tail_ q in
  if head <? tail then
    let item := buffer_load q head in
    let '(cell, _, ok) := compare_exchange_strong (head_ q) head (head + 1) in
    let q := set_head q cell in
    if ok then (q, item) else (q, nullptr)
  else (q, nullptr).

End Defs.
End SpmcQueue.

(** ** [StringIntern.h] *)

Module StringIntern.
Section Defs.
(** Whether plain [char] is a signed type (implementation-defined). *)
Context (char_signed : bool).

Definition uint32 (z : Z) : Z := z mod 2 ^ 32.

(** The value of a [char] object holding the byte [c]. *)
Definition char_value (c : Ascii.ascii) : Z :=
  let n := Z.of_N (Ascii.N_of_ascii c) in
  if char_signed && (128 <=? n) then n - 256 else n.

(** The loop of [fnv1a] over the [length] characters at [str]. *)
Fixpoint fnv1a_loop (str : string) (hash : Z) : Z :=
  match str with
  | EmptyString => hash
  | String c str =>
      let hash := Z.lxor hash (uint32 (char_value c)) in
      let hash := uint32 (hash * 0x01000193) in
      fnv1a_loop str hash
  end.

Definition fnv1a (str : string) : Z := fnv1a_loop str 0x811c9dc5.
Definition fnv1a_runtime (str : string) : Z := fnv1a_loop str 0x811c9dc5.

(** The characters a [const char*] denotes: those before the first NUL. *)
Fixpoint c_str (s : string) : string :=
  match s with
  | EmptyString => EmptyString
  | String c s => if Ascii.eqb c Ascii.zero then EmptyString else String c (c_str s)
  end.

(** [class String]. *)
Record String_ : Type := MkString { data : string }.

(** The control block of a [std::shared_ptr<const String>]: the object, the
    number of owners and the hash captured by the deleter. *)
Record control_block : Type := MkBlock {
  object : String_;
  use_count : nat;
  deleter_hash : Z
}.

(** A [StringPtr] is null or the address of a control block. *)
Definition StringPtr : Type := option positive.

(** The pool together with the objects its pointers refer to. *)
Record t : Type := Mk {
  pool_ : gmap Z positive;
  heap : gmap positive control_block
}.

(** [std::weak_ptr::lock]. *)
Definition lock (sp : t) (w : positive) : t * StringPtr :=
  match heap sp !! w with
  | Some cb =>
      match use_count cb with
      | O => (sp, None)
      | S _ =>
          (Mk (pool_ sp)
              (<[w := MkBlock (object cb) (S (use_count cb)) (deleter_hash cb)]> (heap sp)),
           Some w)
      end
  | None => (sp, None)
  end.

(** Destruction of a [StringPtr]; the last owner runs the deleter installed
    by [intern]: [pool_.erase(hash); delete p]. *)
Definition release (sp : t) (p : StringPtr) : t :=
  match p with
  | None => sp
  | Some l =>
      match heap sp !! l with
      | Some cb =>
          match use_count cb with
          | S (S n) =>
              Mk (pool_ sp) (<[l := MkBlock (object cb) (S n) (deleter_hash cb)]> (heap sp))
          | _ => Mk (delete (deleter_hash cb) (pool_ sp)) (delete l (heap sp))
          end
      | None => sp
      end
  end.

(** [StringPool::intern(const char* str, std::uint32_t hash)]. *)
Definition intern (sp : t) (str : string) (hash : Z) : t * StringPtr :=
  match pool_ sp !! hash with
  | Some w => lock sp w
  | None =>
      let p := fresh (dom (heap sp)) in
      (Mk (<[hash := p]> (pool_ sp))
          (<[p := MkBlock (MkString str) 1 hash]> (heap sp)),
       Some p)
  end.

Definition getStringByHash (sp : t) (hash : Z) : t * StringPtr :=
  match pool_ sp !! hash with
  | Some w => lock sp w
  | None => (sp, None)
  end.

(** [isStringIntern]; the temporary returned by [getStringByHash] is
    destroyed at the end of the expression. *)
Definition isStringIntern (sp : t) (str : string) : t * bool :=
  let '(sp, p) := getStringByHash sp (fnv1a_runtime str) in
  (release sp p, bool_decide (p ≠ None)).

(** [StringPool::try_emplace(T&& arg)]. *)
Definition try_emplace (sp : t) (arg : string) : t * StringPtr :=
  intern sp (c_str arg) (fnv1a arg).

(** The text a non-null [StringPtr] points to. *)
Definition text (sp : t) (p : StringPtr) : option string :=
  l ← p; cb ← heap sp !! l; Some (data (object cb)).

Definition empty_pool : t := Mk ∅ ∅.

(** [StringPool::try_emplace(T&& arg)] for [T] a pointer to characters or a
    character array: [std::string str(arg)] holds the characters before the
    first NUL. *)
Definition try_emplace_chars (sp : t) (arg : string) : t * StringPtr :=
  let str := c_str arg in
  intern sp (c_str str) (fnv1a str).

(** The literal operator [_hs(str, length)]: the hash runs over the
    [length] characters of the literal, the [String] is built from [str] as
    a C string. *)
Definition operator_hs (sp : t) (str : string) : t * StringPtr :=
  let hash := fnv1a str in
  intern sp (c_str str) hash.

(** [class StringRef]. *)
Record StringRef : Type := MkRef { ptr_ : StringPtr }.

(** [StringRef(T&& arg)] for a [std::string] and for a character array. *)
Definition StringRef_of_string (sp : t) (arg : string) : t * StringRef :=
  let '(sp, p) := try_emplace sp arg in (sp, MkRef p).

Definition StringRef_of_chars (sp : t) (arg : string) : t * StringRef :=
  let '(sp, p) := try_emplace_chars sp arg in (sp, MkRef p).

(** [StringRef::operator==]: [ptr_.get() == other.ptr_.get()]. *)
Definition StringRef_eq (a b : StringRef) : bool := bool_decide (ptr_ a = ptr_ b).

(** [StringRef::operator!=]. *)
Definition StringRef_ne (a b : StringRef) : bool := bool_decide (ptr_ a ≠ ptr_ b).

(** Texts whose characters all have a value below 128. *)
Fixpoint seven_bit (s : string) : bool :=
  match s with
  | EmptyString => true
  | String c s => (Z.of_N (Ascii.N_of_ascii c) <? 128) && seven_bit s
  end.

(** The destruction of the last [StringPtr] of an object, in its two parts:
    the owner count drops to zero, and then the deleter runs, which takes
    the mutex, erases the entry under its hash and deletes the object.
    Another thread can hold the mutex in between. *)
Definition drop_last_owner (sp : t) (l : positive) : t :=
  match heap sp !! l with
  | Some cb => Mk (pool_ sp) (<[l := MkBlock (object cb) 0 (deleter_hash cb)]> (heap sp))
  | None => sp
  end.

Definition run_deleter (sp : t) (l : positive) : t :=
  match heap sp !! l with
  | Some cb => Mk (delete (deleter_hash cb) (pool_ sp)) (delete l (heap sp))
  | None => sp
  end.

End Defs.
End StringIntern.

(** ** Ring contents, programs and their observations *)

Section RingSlice.
Context {T : Type}.
Context (T0 : T).

(** The [n] cells of a ring of [C] slots that start at index [h]. *)
Fixpoint ring_slice (d : list T) (C h : Z) (n : nat) : list T :=
  match n with
  | O => []
  | S n => default T0 (d !! Z.to_nat h) :: ring_slice d C ((h + 1) mod C) n
  end.

End RingSlice.

(** One step of a stored ring index: [(i + 1) & mask]. *)
Definition next_index (i mask : Z) : Z := Z.land (SizeT.wrap (i + 1)) mask.

Module SPSCProgram.
Section Defs.
Context {T : Type}.
Context (T0 : T).
Context (Capacity : Z).

(** Well-formed objects: what the constructor establishes and every call
    keeps. *)
Definition wf (q : SPSCQueue.t (T:=T)) : Prop :=
  length (SPSCQueue.data q) = Z.to_nat Capacity ∧
  SPSCQueue.mask q = Capacity - 1 ∧
  0 ≤ SPSCQueue.head q < Capacity ∧
  0 ≤ SPSCQueue.tail q < Capacity.

Definition count (q : SPSCQueue.t (T:=T)) : Z :=
  (SPSCQueue.tail q - SPSCQueue.head q) mod Capacity.

(** The values held, oldest first. *)
Definition contents (q : SPSCQueue.t (T:=T)) : list T :=
  ring_slice T0 (SPSCQueue.data q) Capacity (SPSCQueue.head q) (Z.to_nat (count q)).

(** A single-threaded program: calls with the schedule of spurious
    compare-exchange failures each of them meets. *)
Inductive op : Type :=
| Enqueue (sched : list bool) (value : T)
| Dequeue (sched : list bool).

Inductive event : Type :=
| Enqueued (value : T) (ok : bool)
| Dequeued (result : T) (ok : bool).

Definition fair_op (o : op) : Prop :=
  match o with
  | Enqueue sched _ => fair sched
  | Dequeue sched => fair sched
  end.

(** Runs the calls in order; [result] is the variable every [dequeue] is
    given. *)
Fixpoint run (ops : list op) (q : SPSCQueue.t) (result : T)
  : outcome (SPSCQueue.t * T * list event) :=
  match ops with
  | [] => Ret (q, result, [])
  | Enqueue sched value :: ops =>
      r ← SPSCQueue.enqueue sched q value;
      r' ← run ops r.1 result;
      Ret (r'.1, Enqueued value r.2 :: r'.2)
  | Dequeue sched :: ops =>
      r ← SPSCQueue.dequeue sched q result;
      r' ← run ops r.1.1 r.1.2;
      Ret (r'.1, Dequeued r.1.2 r.2 :: r'.2)
  end.

(** Values accepted by the queue, and values handed out by it. *)
Definition enqueued (evs : list event) : list T :=
  omap (λ e, match e with Enqueued v true => Some v | _ => None end) evs.

Definition dequeued (evs : list event) : list T :=
  omap (λ e, match e with Dequeued v true => Some v | _ => None end) evs.

(** The bounded FIFO the queue is meant to be: a list holding at most
    [Capacity - 1] values. *)
Fixpoint fifo (ops : list op) (l : list T) (result : T) : list T * T * list event :=
  match ops with
  | [] => (l, result, [])
  | Enqueue _ value :: ops =>
      if Z.of_nat (length l) <? Capacity - 1 then
        let r := fifo ops (l ++ [value]) result in
        (r.1, Enqueued value true :: r.2)
      else
        let r := fifo ops l result in
        (r.1, Enqueued value false :: r.2)
  | Dequeue _ :: ops =>
      match l with
      | x :: l =>
          let r := fifo ops l x in
          (r.1, Dequeued x true :: r.2)
      | [] =>
          let r := fifo ops [] result in
          (r.1, Dequeued result false :: r.2)
      end
  end.

(** Enqueues the values of [items] in order and collects the returned
    booleans. *)
Fixpoint enqueue_all (items : list (list bool * T)) (q : SPSCQueue.t)
  : outcome (SPSCQueue.t * list bool) :=
  match items with
  | [] => Ret (q, [])
  | (sched, value) :: items =>
      r ← SPSCQueue.enqueue sched q value;
      r' ← enqueue_all items r.1;
      Ret (r'.1, r.2 :: r'.2)
  end.

End Defs.
End SPSCProgram.

Module SpmcProgram.
Section Defs.
Context {T : Type}.
Context (LogSize : Z).

(** Calls [try_push] on the handles of [hs] in order and collects the
    returned booleans. *)
Fixpoint try_push_all (hs : list T) (q : SpmcQueue.t) : SpmcQueue.t * list bool :=
  match hs with
  | [] => (q, [])
  | h :: hs =>
      let r := SpmcQueue.try_push LogSize q h in
      let r' := try_push_all hs r.1 in
      (r'.1, r.2 :: r'.2)
  end.

End Defs.
End SpmcProgram.

(** ** [include/SpmcQueue.h]: one owner and several thieves

    The calls of the owner ([try_push], [pop]) and of the thieves ([steal])
    are cut at their accesses to the atomics [head_], [tail_] and
    [buffer_[i]]; a step of the system is one such access by one thread, so
    an execution is an interleaving of these accesses.  Fences have no
    effect on an interleaving and are not steps. *)

Module SpmcThreads.
Section Defs.
Context {T : Type}.
Context `{EqDecision T}.
Context (nullptr : T).
Context (LogSize : Z).

(** Where the owner stands: the next access to perform, with the values of
    the locals [o], [tail], [head] and [item] that are live there. *)
Inductive owner : Type :=
| OIdle
| PushLoadTail (o : T)                    (* try_push: [tail_.load] *)
| PushLoadHead (o : T) (tail : Z)         (* try_push: [head_.load], full test *)
| PushStoreItem (o : T) (tail : Z)        (* try_push: [buffer_[..].store] *)
| PushStoreTail (o : T) (tail : Z)        (* try_push: [tail_.store], return *)
| PopLoadTail                             (* pop: [tail_.load() - 1] *)
| PopStoreTail (tail : Z)                 (* pop: [tail_.store(tail)] *)
| PopLoadHead (tail : Z)                  (* pop: [head_.load], [head <= tail] *)
| PopLoadItem (tail head : Z)             (* pop: [buffer_[..].load], [head == tail] *)
| PopCas (tail head : Z) (item : T)       (* pop: [head_.compare_exchange_strong] *)
| PopRestoreTail (tail : Z) (item : T).   (* pop: [tail_.store(tail + 1)], return *)

(** Where a thief stands in [steal]. *)
Inductive thief : Type :=
| TIdle
| StealLoadHead                           (* [head_.load] *)
| StealLoadTail (head : Z)                (* [tail_.load], [head < tail] *)
| StealLoadItem (head : Z)                (* [buffer_[..].load] *)
| StealCas (head : Z) (item : T).         (* [head_.compare_exchange_strong], return *)

(** What the calls return. *)
Inductive event : Type :=
| PushReturned (o : T) (ok : bool)
| PopReturned (item : T)
| StealReturned (i : nat) (item : T).

Record state : Type := State {
  mem : SpmcQueue.t (T:=T);
  own : owner;
  thieves : list thief;
  trace : list event
}.

(** The owner's next access. *)
Definition owner_step (m : SpmcQueue.t) (pc : owner)
  : option (SpmcQueue.t * owner * list event) :=
  match pc with
  | OIdle => None
  | PushLoadTail o => Some (m, PushLoadHead o (SpmcQueue.tail_ m), [])
  | PushLoadHead o tail =>
      let head := SpmcQueue.head_ m in
      if (tail - head) >=? SpmcQueue.BufferSize_ LogSize - 1
      then Some (m, OIdle, [PushReturned o false])
      else Some (m, PushStoreItem o tail, [])
  | PushStoreItem o tail =>
      Some (SpmcQueue.buffer_store LogSize m tail o, PushStoreTail o tail, [])
  | PushStoreTail o tail =>
      Some (SpmcQueue.set_tail m (tail + 1), OIdle, [PushReturned o true])
  | PopLoadTail => Some (m, PopStoreTail (SpmcQueue.tail_ m - 1), [])
  | PopStoreTail tail => Some (SpmcQueue.set_tail m tail, PopLoadHead tail, [])
  | PopLoadHead tail =>
      let head := SpmcQueue.head_ m in
      if head <=? tail then Some (m, PopLoadItem tail head, [])
      else Some (m, PopRestoreTail tail nullptr, [])
  | PopLoadItem tail head =>
      let item := SpmcQueue.buffer_load nullptr LogSize m tail in
      if head =? tail then Some (m, PopCas tail head item, [])
      else Some (m, OIdle, [PopReturned item])
  | PopCas tail head item =>
      let '(cell, _, ok) :=
        compare_exchange_strong (SpmcQueue.head_ m) head (head + 1) in
      Some (SpmcQueue.set_head m cell,
            PopRestoreTail tail (if ok then item else nullptr), [])
  | PopRestoreTail tail item =>
      Some (SpmcQueue.set_tail m (tail + 1), OIdle, [PopReturned item])
  end.

(** The next access of thief [i]. *)
Definition thief_step (i : nat) (m : SpmcQueue.t) (pc : thief)
  : option (SpmcQueue.t * thief * list event) :=
  match pc with
  | TIdle => None
  | StealLoadHead => Some (m, StealLoadTail (SpmcQueue.head_ m), [])
  | StealLoadTail head =>
      let tail := SpmcQueue.tail_ m in
      if head <? tail then Some (m, StealLoadItem head, [])
      else Some (m, TIdle, [StealReturned i nullptr])
  | StealLoadItem head =>
      Some (m, StealCas head (SpmcQueue.buffer_load nullptr LogSize m head), [])
  | StealCas head item =>
      let '(cell, _, ok) :=
        compare_exchange_strong (SpmcQueue.head_ m) head (head + 1) in
      Some (SpmcQueue.set_head m cell, TIdle,
            [StealReturned i (if ok then item else nullptr)])
  end.

(** What the scheduler and the callers may do next. *)
Inductive action : Type :=
| OwnerPush (o : T)      (* the idle owner calls [try_push(o)], [o] not null *)
| OwnerPop               (* the idle owner calls [pop()] *)
| OwnerStep              (* the owner performs its next access *)
| ThiefSteal (i : nat)   (* the idle thief [i] calls [steal()] *)
| ThiefStep (i : nat).   (* thief [i] performs its next access *)

(** One action; [None] when it is not enabled. *)
Definition exec (a : action) (s : state) : option state :=
  match a with
  | OwnerPush o =>
      match own s with
      | OIdle =>
          if decide (o = nullptr) then None
          else Some (State (mem s) (PushLoadTail o) (thieves s) (trace s))
      | _ => None
      end
  | OwnerPop =>
      match own s with
      | OIdle => Some (State (mem s) PopLoadTail (thieves s) (trace s))
      | _ => None
      end
  | OwnerStep =>
      match owner_step (mem s) (own s) with
      | Some (m, pc, evs) => Some (State m pc (thieves s) (trace s ++ evs))
      | None => None
      end
  | ThiefSteal i =>
      match thieves s !! i with
      | Some TIdle => Some (State (mem s) (own s) (<[i := StealLoadHead]> (thieves s)) (trace s))
      | _ => None
      end
  | ThiefStep i =>
      match thieves s !! i with
      | Some pc =>
          match thief_step i (mem s) pc with
          | Some (m, pc, evs) =>
              Some (State m (own s) (<[i := pc]> (thieves s)) (trace s ++ evs))
          | None => None
          end
      | None => None
      end
  end.

(** An interleaving is a list of actions, each enabled in its turn. *)
Fixpoint run (acts : list action) (s : state) : option state :=
  match acts with
  | [] => Some s
  | a :: acts =>
      match exec a s with
      | Some s => run acts s
      | None => None
      end
  end.

(** The empty deque with [K] idle thieves. *)
Definition init (K : nat) : state :=
  State (SpmcQueue.new nullptr LogSize) OIdle (replicate K TIdle) [].

(** No call is in progress. *)
Definition quiescent (s : state) : Prop :=
  own s = OIdle ∧ Forall (λ pc, pc = TIdle) (thieves s).

(** Handles of the successful pushes, in the order of their returns. *)
Definition pushed (tr : list event) : list T :=
  omap (λ e, match e with PushReturned o true => Some o | _ => None end) tr.

(** Handles returned by the successful pops and steals. *)
Definition popped (tr : list event) : list T :=
  omap (λ e, match e with
             | PopReturned item => if decide (item = nullptr) then None else Some item
             | _ => None
             end) tr.

Definition stolen (tr : list event) : list T :=
  omap (λ e, match e with
             | StealReturned _ item => if decide (item = nullptr) then None else Some item
             | _ => None
             end) tr.

Definition taken (tr : list event) : list T :=
  omap (λ e, match e with
             | PopReturned item | StealReturned _ item =>
                 if decide (item = nullptr) then None else Some item
             | _ => None
             end) tr.

(** *** The invariant of the interleavings *)

(** The buffer cells of the indices [h, h + n). *)
Definition dslice (m : SpmcQueue.t) (h : Z) (n : nat) : list T :=
  (λ i : nat, SpmcQueue.buffer_load nullptr LogSize m (h + Z.of_nat i)) <$> seq 0 n.

(** One past the index of the newest item not yet claimed by the owner. *)
Definition top (m : SpmcQueue.t (T:=T)) (pc : owner) : Z :=
  match pc with
  | PopLoadHead _ | PopCas _ _ _ | PopRestoreTail _ _ => SpmcQueue.tail_ m + 1
  | PopLoadItem tail head =>
      if head <? tail then SpmcQueue.tail_ m else SpmcQueue.tail_ m + 1
  | _ => SpmcQueue.tail_ m
  end.

(** The item the owner has claimed and not yet returned. *)
Definition inflight (m : SpmcQueue.t) (pc : owner) : list T :=
  match pc with
  | PopLoadItem tail head =>
      if head <? tail then [SpmcQueue.buffer_load nullptr LogSize m tail] else []
  | PopRestoreTail _ item => if decide (item = nullptr) then [] else [item]
  | _ => []
  end.

(** The items held: the cells from [head_] up to [top]. *)
Definition live (m : SpmcQueue.t) (pc : owner) : list T :=
  dslice m (SpmcQueue.head_ m) (Z.to_nat (top m pc - SpmcQueue.head_ m)).

(** What the owner knows at each point. *)
Definition owner_inv (m : SpmcQueue.t) (pc : owner) : Prop :=
  let h := SpmcQueue.head_ m in
  let t := SpmcQueue.tail_ m in
  match pc with
  | OIdle | PopLoadTail => True
  | PushLoadTail o => o ≠ nullptr
  | PushLoadHead o tail => o ≠ nullptr ∧ tail = t
  | PushStoreItem o tail =>
      o ≠ nullptr ∧ tail = t ∧ tail - h < SpmcQueue.BufferSize_ LogSize - 1
  | PushStoreTail o tail =>
      o ≠ nullptr ∧ tail = t ∧ tail - h < SpmcQueue.BufferSize_ LogSize - 1 ∧
      SpmcQueue.buffer_load nullptr LogSize m tail = o
  | PopStoreTail tail => tail = t - 1
  | PopLoadHead tail => tail = t
  | PopLoadItem tail head => tail = t ∧ head ≤ tail ∧ head ≤ h
  | PopCas tail head item =>
      tail = t ∧ head = tail ∧ head ≤ h ∧
      (h = tail → item = SpmcQueue.buffer_load nullptr LogSize m tail)
  | PopRestoreTail tail item => tail = t ∧ h = tail + 1
  end.

(** What a thief knows at each point; [tp] is [top]. *)
Definition thief_inv (m : SpmcQueue.t) (tp : Z) (pc : thief) : Prop :=
  let h := SpmcQueue.head_ m in
  match pc with
  | TIdle | StealLoadHead => True
  | StealLoadTail head => head ≤ h
  | StealLoadItem head => head ≤ h ∧ (head = h → head < tp)
  | StealCas head item =>
      head ≤ h ∧
      (head = h → head < tp ∧ item = SpmcQueue.buffer_load nullptr LogSize m head)
  end.

Record Inv (s : state) : Prop := MkInv {
  inv_length :
    length (SpmcQueue.buffer_ (mem s)) = Z.to_nat (SpmcQueue.BufferSize_ LogSize);
  inv_bounds :
    SpmcQueue.head_ (mem s) ≤ top (mem s) (own s) ≤
    SpmcQueue.head_ (mem s) + SpmcQueue.BufferSize_ LogSize - 1;
  inv_account :
    pushed (trace s) ≡ₚ
    taken (trace s) ++ inflight (mem s) (own s) ++ live (mem s) (own s);
  inv_nonnull : nullptr ∉ pushed (trace s);
  inv_owner : owner_inv (mem s) (own s);
  inv_thieves : Forall (thief_inv (mem s) (top (mem s) (own s))) (thieves s)
}.

End Defs.
End SpmcThreads.

(** ** [Queue.h]: single-threaded programs on an [SPMCQueue] *)

Module SPMCProgram.
Section Defs.
Context {T : Type}.

Inductive op : Type :=
| Enqueue (sched : list bool) (value : T)
| Dequeue (sched : list bool)
| Steal (sched : list bool).

Inductive event : Type :=
| Enqueued (value : T) (ok : bool)
| Dequeued (result : T) (ok : bool)
| Stolen (result : T) (ok : bool).

Definition fair_op (o : op) : Prop :=
  match o with
  | Enqueue sched _ => fair sched
  | Dequeue sched => fair sched
  | Steal sched => fair sched
  end.

(** Runs the calls in order; [result] is the variable every [dequeue] and
    [steal] is given. *)
Fixpoint run (ops : list op) (q : SPMCQueue.t) (result : T)
  : outcome (SPMCQueue.t * T * list event) :=
  match ops with
  | [] => Ret (q, result, [])
  | Enqueue sched value :: ops =>
      r ← SPMCQueue.enqueue sched q value;
      r' ← run ops r.1 result;
      Ret (r'.1, Enqueued value r.2 :: r'.2)
  | Dequeue sched :: ops =>
      r ← SPMCQueue.dequeue sched q result;
      r' ← run ops r.1.1 r.1.2;
      Ret (r'.1, Dequeued r.1.2 r.2 :: r'.2)
  | Steal sched :: ops =>
      r ← SPMCQueue.steal sched q result;
      r' ← run ops r.1.1 r.1.2;
      Ret (r'.1, Stolen r.1.2 r.2 :: r'.2)
  end.

(** Values accepted by the queue, and values handed out by it. *)
Definition enqueued (evs : list event) : list T :=
  omap (λ e, match e with Enqueued v true => Some v | _ => None end) evs.

Definition taken (evs : list event) : list T :=
  omap (λ e, match e with
             | Dequeued v true | Stolen v true => Some v
             | _ => None
             end) evs.

(** The members of an [SPMCQueue] read as those of an [SPSCQueue], and a
    program read as one on an [SPSCQueue], [steal] taken for [dequeue]. *)
Definition as_SPSC (q : SPMCQueue.t (T:=T)) : SPSCQueue.t (T:=T) :=
  SPSCQueue.Mk (SPMCQueue.data q) (SPMCQueue.head q) (SPMCQueue.tail q)
    (SPMCQueue.mask q).

Definition as_SPSC_built (c : SPMCQueue.constructed (T:=T))
  : SPSCQueue.constructed (T:=T) :=
  match c with
  | SPMCQueue.Built q => SPSCQueue.Built (as_SPSC q)
  | SPMCQueue.invalid_argument => SPSCQueue.invalid_argument
  end.

Definition as_SPSC_op (o : op) : SPSCProgram.op (T:=T) :=
  match o with
  | Enqueue sched value => SPSCProgram.Enqueue sched value
  | Dequeue sched | Steal sched => SPSCProgram.Dequeue sched
  end.

Definition as_SPSC_event (e : event) : SPSCProgram.event (T:=T) :=
  match e with
  | Enqueued value ok => SPSCProgram.Enqueued value ok
  | Dequeued result ok | Stolen result ok => SPSCProgram.Dequeued result ok
  end.

End Defs.
End SPMCProgram.

(** ** [include/SpmcQueue.h]: single-threaded programs on the deque *)

Module DequeProgram.
Section Defs.
Context {T : Type}.
Context (nullptr : T).
Context (LogSize : Z).

Inductive op : Type :=
| TryPush (o : T)
| Push (o : T)
| Pop
| Steal.

Inductive event : Type :=
| TryPushReturned (o : T) (ok : bool)
| PushReturned (o : T) (on_full : bool)   (* whether [on_full] was invoked *)
| PopReturned (item : T)
| StealReturned (item : T).

Fixpoint run (ops : list op) (q : SpmcQueue.t) : SpmcQueue.t * list event :=
  match ops with
  | [] => (q, [])
  | TryPush o :: ops =>
      let r := SpmcQueue.try_push LogSize q o in
      let r' := run ops r.1 in
      (r'.1, TryPushReturned o r.2 :: r'.2)
  | Push o :: ops =>
      let r := SpmcQueue.push LogSize q o in
      let r' := run ops r.1 in
      (r'.1, PushReturned o r.2 :: r'.2)
  | Pop :: ops =>
      let r := SpmcQueue.pop nullptr LogSize q in
      let r' := run ops r.1 in
      (r'.1, PopReturned r.2 :: r'.2)
  | Steal :: ops =>
      let r := SpmcQueue.steal nullptr LogSize q in
      let r' := run ops r.1 in
      (r'.1, StealReturned r.2 :: r'.2)
  end.

(** Well-formed objects: [BufferSize_] cells, and between zero and
    [BufferSize_ - 1] handles between [head_] and [tail_]. *)
Definition wf (q : SpmcQueue.t (T:=T)) : Prop :=
  length (SpmcQueue.buffer_ q) = Z.to_nat (SpmcQueue.BufferSize_ LogSize) ∧
  SpmcQueue.head_ q ≤ SpmcQueue.tail_ q ≤
    SpmcQueue.head_ q + SpmcQueue.BufferSize_ LogSize - 1.

(** The handles held, oldest first. *)
Definition contents (q : SpmcQueue.t (T:=T)) : list T :=
  SpmcThreads.dslice nullptr LogSize q (SpmcQueue.head_ q)
    (Z.to_nat (SpmcQueue.tail_ q - SpmcQueue.head_ q)).

(** The double-ended list the deque is meant to be: it holds at most
    [BufferSize_ - 1] handles, a push appends at the back, [pop] takes from
    the back and [steal] from the front, both giving [nullptr] when there is
    nothing to take. *)
Fixpoint model (ops : list op) (l : list T) : list T * list event :=
  match ops with
  | [] => (l, [])
  | TryPush o :: ops =>
      if Z.of_nat (length l) <? SpmcQueue.BufferSize_ LogSize - 1 then
        let r := model ops (l ++ [o]) in (r.1, TryPushReturned o true :: r.2)
      else
        let r := model ops l in (r.1, TryPushReturned o false :: r.2)
  | Push o :: ops =>
      if Z.of_nat (length l) <? SpmcQueue.BufferSize_ LogSize - 1 then
        let r := model ops (l ++ [o]) in (r.1, PushReturned o false :: r.2)
      else
        let r := model ops l in (r.1, PushReturned o true :: r.2)
  | Pop :: ops =>
      match last l with
      | Some x =>
          let r := model ops (take (pred (length l)) l) in
          (r.1, PopReturned x :: r.2)
      | None =>
          let r := model ops l in (r.1, PopReturned nullptr :: r.2)
      end
  | Steal :: ops =>
      match l with
      | x :: l => let r := model ops l in (r.1, StealReturned x :: r.2)
      | [] => let r := model ops [] in (r.1, StealReturned nullptr :: r.2)
      end
  end.

End Defs.
End DequeProgram.

(** ** [Queue.h]: one producer and one consumer on an [SPSCQueue]

    [enqueue] and [dequeue] are cut at their accesses to [head], [tail] and
    [data]; a step of the system is one such access by one of the two
    threads.  The scheduler decides for every [compare_exchange_weak]
    whether it fails spuriously. *)

Module SPSCThreads.
Section Defs.
Context {T : Type}.

(** Where the producer stands in [enqueue], with its live locals. *)
Inductive producer : Type :=
| PIdle
| EnqLoadTail (value : T)                           (* [tail.load] *)
| EnqLoadHead (value : T) (currentTail : Z)         (* [nextTail], [head.load], full test *)
| EnqStoreData (value : T) (currentTail nextTail : Z)  (* [data[currentTail] = value] *)
| EnqCas (value : T) (currentTail nextTail : Z).    (* [tail.compare_exchange_weak] *)

(** Where the consumer stands in [dequeue]. *)
Inductive consumer : Type :=
| CIdle
| DeqLoadHead                                       (* [head.load] *)
| DeqLoadTail (currentHead : Z)                     (* [tail.load], empty test *)
| DeqLoadData (currentHead : Z)                     (* [result = data[currentHead]] *)
| DeqCas (currentHead : Z).                         (* [nextHead], [head.compare_exchange_weak] *)

(** What the calls return; a [dequeue] is recorded with the content of the
    variable it was given. *)
Inductive event : Type :=
| Enqueued (value : T) (ok : bool)
| Dequeued (result : T) (ok : bool).

Record state : Type := State {
  mem : SPSCQueue.t (T:=T);
  prod : producer;
  cons : consumer;
  result : T;                 (* the consumer's variable, passed to [dequeue] *)
  trace : list event
}.

(** The producer's next access. *)
Definition producer_step (spurious : bool) (m : SPSCQueue.t) (pc : producer)
  : option (outcome (SPSCQueue.t * producer * list event)) :=
  match pc with
  | PIdle => None
  | EnqLoadTail value => Some (Ret (m, EnqLoadHead value (SPSCQueue.tail m), []))
  | EnqLoadHead value currentTail =>
      let nextTail := Z.land (SizeT.wrap (currentTail + 1)) (SPSCQueue.mask m) in
      if nextTail =? SPSCQueue.head m
      then Some (Ret (m, PIdle, [Enqueued value false]))
      else Some (Ret (m, EnqStoreData value currentTail nextTail, []))
  | EnqStoreData value currentTail nextTail =>
      Some (d ← vec_store (SPSCQueue.data m) currentTail value;
            Ret (SPSCQueue.set_data m d, EnqCas value currentTail nextTail, []))
  | EnqCas value currentTail nextTail =>
      let '(cell, currentTail, ok) :=
        compare_exchange_weak spurious (SPSCQueue.tail m) currentTail nextTail in
      let m := SPSCQueue.set_tail m cell in
      if ok then Some (Ret (m, PIdle, [Enqueued value true]))
      else Some (Ret (m, EnqLoadHead value currentTail, []))
  end.

(** The consumer's next access; [result] is its variable. *)
Definition consumer_step (spurious : bool) (m : SPSCQueue.t) (pc : consumer) (result : T)
  : option (outcome (SPSCQueue.t * consumer * T * list event)) :=
  match pc with
  | CIdle => None
  | DeqLoadHead => Some (Ret (m, DeqLoadTail (SPSCQueue.head m), result, []))
  | DeqLoadTail currentHead =>
      let currentTail := SPSCQueue.tail m in
      if currentHead =? currentTail
      then Some (Ret (m, CIdle, result, [Dequeued result false]))
      else Some (Ret (m, DeqLoadData currentHead, result, []))
  | DeqLoadData currentHead =>
      Some (result ← vec_load (SPSCQueue.data m) currentHead;
            Ret (m, DeqCas currentHead, result, []))
  | DeqCas currentHead =>
      let nextHead := Z.land (SizeT.wrap (currentHead + 1)) (SPSCQueue.mask m) in
      let '(cell, currentHead, ok) :=
        compare_exchange_weak spurious (SPSCQueue.head m) currentHead nextHead in
      let m := SPSCQueue.set_head m cell in
      if ok then Some (Ret (m, CIdle, result, [Dequeued result true]))
      else Some (Ret (m, DeqLoadTail currentHead, result, []))
  end.

(** What the scheduler and the callers may do next. *)
Inductive action : Type :=
| CallEnqueue (value : T)            (* the idle producer calls [enqueue(value)] *)
| ProducerStep (spurious : bool)     (* the producer performs its next access *)
| CallDequeue                        (* the idle consumer calls [dequeue(result)] *)
| ConsumerStep (spurious : bool).    (* the consumer performs its next access *)

(** One action: [None] when it is not enabled, [Some Undefined] when the
    access leaves the vector. *)
Definition exec (a : action) (s : state) : option (outcome state) :=
  match a with
  | CallEnqueue value =>
      match prod s with
      | PIdle => Some (Ret (State (mem s) (EnqLoadTail value) (cons s) (result s) (trace s)))
      | _ => None
      end
  | ProducerStep spurious =>
      r ← producer_step spurious (mem s) (prod s);
      Some ('(m, pc, evs) ← r;
            Ret (State m pc (cons s) (result s) (trace s ++ evs)))
  | CallDequeue =>
      match cons s with
      | CIdle => Some (Ret (State (mem s) (prod s) DeqLoadHead (result s) (trace s)))
      | _ => None
      end
  | ConsumerStep spurious =>
      r ← consumer_step spurious (mem s) (cons s) (result s);
      Some ('(m, pc, res, evs) ← r;
            Ret (State m (prod s) pc res (trace s ++ evs)))
  end.

(** An interleaving is a list of actions, each enabled in its turn. *)
Fixpoint run (acts : list action) (s : state) : option (outcome state) :=
  match acts with
  | [] => Some (Ret s)
  | a :: acts =>
      match exec a s with
      | Some (Ret s) => run acts s
      | r => r
      end
  end.

(** Both threads idle on the queue [q]. *)
Definition init (q : SPSCQueue.t) (result : T) : state :=
  State q PIdle CIdle result [].

Definition enqueued (tr : list event) : list T :=
  omap (λ e, match e with Enqueued v true => Some v | _ => None end) tr.

Definition dequeued (tr : list event) : list T :=
  omap (λ e, match e with Dequeued v true => Some v | _ => None end) tr.

(** The two unsynchronised accesses to [data] are about to touch the same
    slot. *)
Definition data_conflict (s : state) : Prop :=
  match prod s, cons s with
  | EnqStoreData _ currentTail _, DeqLoadData currentHead => currentTail = currentHead
  | _, _ => False
  end.

(** No call is in progress. *)
Definition quiescent (s : state) : Prop := prod s = PIdle ∧ cons s = CIdle.

(** *** The invariant of the interleavings *)

Context (T0 : T).
Context (C : Z).

(** What the producer knows at each point: [tail] is written by it alone,
    and the slot it fills is free. *)
Definition producer_inv (m : SPSCQueue.t) (pc : producer) : Prop :=
  match pc with
  | PIdle | EnqLoadTail _ => True
  | EnqLoadHead _ currentTail => currentTail = SPSCQueue.tail m
  | EnqStoreData _ currentTail nextTail =>
      currentTail = SPSCQueue.tail m ∧ nextTail = (currentTail + 1) mod C ∧
      SPSCProgram.count C m ≠ C - 1
  | EnqCas value currentTail nextTail =>
      currentTail = SPSCQueue.tail m ∧ nextTail = (currentTail + 1) mod C ∧
      SPSCProgram.count C m ≠ C - 1 ∧
      SPSCQueue.data m !! Z.to_nat currentTail = Some value
  end.

(** What the consumer knows at each point: [head] is written by it alone,
    and the slot it reads is occupied. *)
Definition consumer_inv (m : SPSCQueue.t) (pc : consumer) (result : T) : Prop :=
  match pc with
  | CIdle | DeqLoadHead => True
  | DeqLoadTail currentHead => currentHead = SPSCQueue.head m
  | DeqLoadData currentHead =>
      currentHead = SPSCQueue.head m ∧ SPSCProgram.count C m ≠ 0
  | DeqCas currentHead =>
      currentHead = SPSCQueue.head m ∧ SPSCProgram.count C m ≠ 0 ∧
      SPSCQueue.data m !! Z.to_nat currentHead = Some result
  end.

Record Inv (s : state) : Prop := MkInv {
  inv_wf : SPSCProgram.wf C (mem s);
  inv_account :
    enqueued (trace s) = dequeued (trace s) ++ SPSCProgram.contents T0 C (mem s);
  inv_producer : producer_inv (mem s) (prod s);
  inv_consumer : consumer_inv (mem s) (cons s) (result s)
}.

End Defs.
End SPSCThreads.

(** ** [StringIntern.h]: sequences of calls on the pool

    The calls a program makes on the pool returned by
    [StringPool::getInstance()], one after the other. *)

Module PoolCalls.
Section Defs.
Context (char_signed : bool).

Inductive op : Type :=
| TryEmplace (arg : string)           (* [StringPool::try_emplace] on a [std::string] *)
| TryEmplaceChars (arg : string)      (* [StringPool::try_emplace] on a character array *)
| Hs (str : string)                   (* a literal with the suffix [_hs] *)
| Intern (str : string) (hash : Z)    (* [intern(str, hash)] *)
| GetStringByHash (hash : Z)
| IsStringIntern (str : string)
| Release (p : StringIntern.StringPtr).  (* the destruction of a [StringPtr] *)

Inductive result : Type :=
| Pointer (p : StringIntern.StringPtr)
| Boolean (b : bool)
| Nothing.

Definition call (sp : StringIntern.t) (o : op) : StringIntern.t * result :=
  match o with
  | TryEmplace arg =>
      let r := StringIntern.try_emplace char_signed sp arg in (r.1, Pointer r.2)
  | TryEmplaceChars arg =>
      let r := StringIntern.try_emplace_chars char_signed sp arg in (r.1, Pointer r.2)
  | Hs str =>
      let r := StringIntern.operator_hs char_signed sp str in (r.1, Pointer r.2)
  | Intern str hash =>
      let r := StringIntern.intern sp str hash in (r.1, Pointer r.2)
  | GetStringByHash hash =>
      let r := StringIntern.getStringByHash sp hash in (r.1, Pointer r.2)
  | IsStringIntern str =>
      let r := StringIntern.isStringIntern char_signed sp str in (r.1, Boolean r.2)
  | Release p => (StringIntern.release sp p, Nothing)
  end.

Fixpoint run (ops : list op) (sp : StringIntern.t) : StringIntern.t * list result :=
  match ops with
  | [] => (sp, [])
  | o :: ops =>
      let r := call sp o in
      let r' := run ops r.1 in
      (r'.1, r.2 :: r'.2)
  end.

(** The table and the objects agree: an entry under a hash points to an
    object whose deleter erases that hash, and every object has an owner and
    is the one the entry under its hash points to. *)
Definition consistent (sp : StringIntern.t) : Prop :=
  (∀ h l, StringIntern.pool_ sp !! h = Some l →
     ∃ cb, StringIntern.heap sp !! l = Some cb ∧ StringIntern.deleter_hash cb = h) ∧
  (∀ l cb, StringIntern.heap sp !! l = Some cb →
     StringIntern.pool_ sp !! StringIntern.deleter_hash cb = Some l ∧
     (0 < StringIntern.use_count cb)%nat).

End Defs.
End PoolCalls.

(** ** [Queue.h]: one producer and several consumers on an [SPMCQueue]

    As for [SPSCQueue]: [enqueue] and [dequeue] are cut at their accesses to
    [head], [tail] and [data], and a step of the system is one such access
    by one thread.  Every consumer has a variable of its own that it passes
    to [dequeue]. *)

Module SPMCThreads.
Section Defs.
Context {T : Type}.

Inductive producer : Type :=
| PIdle
| EnqLoadTail (value : T)                           (* [tail.load] *)
| EnqLoadHead (value : T) (currentTail : Z)         (* [nextTail], [head.load], full test *)
| EnqStoreData (value : T) (currentTail nextTail : Z)  (* [data[currentTail] = value] *)
| EnqCas (value : T) (currentTail nextTail : Z).    (* [tail.compare_exchange_weak] *)

Inductive consumer : Type :=
| CIdle
| DeqLoadHead                                       (* [head.load] *)
| DeqLoadTail (currentHead : Z)                     (* [tail.load], empty test *)
| DeqLoadData (currentHead : Z)                     (* [result = data[currentHead]] *)
| DeqCas (currentHead : Z).                         (* [nextHead], [head.compare_exchange_weak] *)

(** What the calls return; [i] is the consumer. *)
Inductive event : Type :=
| Enqueued (value : T) (ok : bool)
| Dequeued (i : nat) (result : T) (ok : bool).

Record state : Type := State {
  mem : SPMCQueue.t (T:=T);
  prod : producer;
  cons : list (consumer * T);     (* where each consumer stands, and its variable *)
  trace : list event
}.

Definition producer_step (spurious : bool) (m : SPMCQueue.t) (pc : producer)
  : option (outcome (SPMCQueue.t * producer * list event)) :=
  match pc with
  | PIdle => None
  | EnqLoadTail value => Some (Ret (m, EnqLoadHead value (SPMCQueue.tail m), []))
  | EnqLoadHead value currentTail =>
      let nextTail := Z.land (SizeT.wrap (currentTail + 1)) (SPMCQueue.mask m) in
      if nextTail =? SPMCQueue.head m
      then Some (Ret (m, PIdle, [Enqueued value false]))
      else Some (Ret (m, EnqStoreData value currentTail nextTail, []))
  | EnqStoreData value currentTail nextTail =>
      Some (d ← vec_store (SPMCQueue.data m) currentTail value;
            Ret (SPMCQueue.set_data m d, EnqCas value currentTail nextTail, []))
  | EnqCas value currentTail nextTail =>
      let '(cell, currentTail, ok) :=
        compare_exchange_weak spurious (SPMCQueue.tail m) currentTail nextTail in
      let m := SPMCQueue.set_tail m cell in
      if ok then Some (Ret (m, PIdle, [Enqueued value true]))
      else Some (Ret (m, EnqLoadHead value currentTail, []))
  end.

Definition consumer_step (i : nat) (spurious : bool) (m : SPMCQueue.t)
    (pc : consumer) (result : T)
  : option (outcome (SPMCQueue.t * (consumer * T) * list event)) :=
  match pc with
  | CIdle => None
  | DeqLoadHead => Some (Ret (m, (DeqLoadTail (SPMCQueue.head m), result), []))
  | DeqLoadTail currentHead =>
      let currentTail := SPMCQueue.tail m in
      if currentHead =? currentTail
      then Some (Ret (m, (CIdle, result), [Dequeued i result false]))
      else Some (Ret (m, (DeqLoadData currentHead, result), []))
  | DeqLoadData currentHead =>
      Some (result ← vec_load (SPMCQueue.data m) currentHead;
            Ret (m, (DeqCas currentHead, result), []))
  | DeqCas currentHead =>
      let nextHead := Z.land (SizeT.wrap (currentHead + 1)) (SPMCQueue.mask m) in
      let '(cell, currentHead, ok) :=
        compare_exchange_weak spurious (SPMCQueue.head m) currentHead nextHead in
      let m := SPMCQueue.set_head m cell in
      if ok then Some (Ret (m, (CIdle, result), [Dequeued i result true]))
      else Some (Ret (m, (DeqLoadTail currentHead, result), []))
  end.

Inductive action : Type :=
| CallEnqueue (value : T)                 (* the idle producer calls [enqueue(value)] *)
| ProducerStep (spurious : bool)          (* the producer performs its next access *)
| CallDequeue (i : nat)                   (* the idle consumer [i] calls [dequeue(result)] *)
| ConsumerStep (i : nat) (spurious : bool).  (* consumer [i] performs its next access *)

Definition exec (a : action) (s : state) : option (outcome state) :=
  match a with
  | CallEnqueue value =>
      match prod s with
      | PIdle => Some (Ret (State (mem s) (EnqLoadTail value) (cons s) (trace s)))
      | _ => None
      end
  | ProducerStep spurious =>
      r ← producer_step spurious (mem s) (prod s);
      Some ('(m, pc, evs) ← r; Ret (State m pc (cons s) (trace s ++ evs)))
  | CallDequeue i =>
      match cons s !! i with
      | Some (CIdle, result) =>
          Some (Ret (State (mem s) (prod s) (<[i := (DeqLoadHead, result)]> (cons s))
                       (trace s)))
      | _ => None
      end
  | ConsumerStep i spurious =>
      c ← cons s !! i;
      r ← consumer_step i spurious (mem s) c.1 c.2;
      Some ('(m, c, evs) ← r;
            Ret (State m (prod s) (<[i := c]> (cons s)) (trace s ++ evs)))
  end.

Fixpoint run (acts : list action) (s : state) : option (outcome state) :=
  match acts with
  | [] => Some (Ret s)
  | a :: acts =>
      match exec a s with
      | Some (Ret s) => run acts s
      | r => r
      end
  end.

(** All threads idle on the queue [q]; [K] consumers, their variables
    holding [result]. *)
Definition init (q : SPMCQueue.t) (K : nat) (result : T) : state :=
  State q PIdle (replicate K (CIdle, result)) [].

(** An execution with two consumers.  Consumer 0 reads the first value [x]
    and is then delayed before its compare-exchange; meanwhile consumer 1
    takes [x] and a second value [y], and the producer adds a third value
    [z], which brings [head] back to the index consumer 0 had read. *)
Definition stale_head (x y z : T) : list action :=
  [CallEnqueue x; ProducerStep false; ProducerStep false; ProducerStep false;
   ProducerStep false;
   CallDequeue 0; ConsumerStep 0 false; ConsumerStep 0 false; ConsumerStep 0 false;
   CallDequeue 1; ConsumerStep 1 false; ConsumerStep 1 false; ConsumerStep 1 false;
   ConsumerStep 1 false;
   CallEnqueue y; ProducerStep false; ProducerStep false; ProducerStep false;
   ProducerStep false;
   CallDequeue 1; ConsumerStep 1 false; ConsumerStep 1 false; ConsumerStep 1 false;
   ConsumerStep 1 false;
   CallEnqueue z; ProducerStep false; ProducerStep false; ProducerStep false;
   ProducerStep false;
   ConsumerStep 0 false].

(** *** What every interleaving keeps: the indices stay inside the vector *)

Context (C : Z).

Definition in_range (i : Z) : Prop := 0 ≤ i < C.

Definition wf (m : SPMCQueue.t (T:=T)) : Prop :=
  length (SPMCQueue.data m) = Z.to_nat C ∧
  SPMCQueue.mask m = C - 1 ∧
  in_range (SPMCQueue.head m) ∧
  in_range (SPMCQueue.tail m).

Definition producer_inv (pc : producer) : Prop :=
  match pc with
  | PIdle | EnqLoadTail _ => True
  | EnqLoadHead _ currentTail => in_range currentTail
  | EnqStoreData _ currentTail nextTail | EnqCas _ currentTail nextTail =>
      in_range currentTail ∧ in_range nextTail
  end.

Definition consumer_inv (c : consumer * T) : Prop :=
  match c.1 with
  | CIdle | DeqLoadHead => True
  | DeqLoadTail currentHead | DeqLoadData currentHead | DeqCas currentHead =>
      in_range currentHead
  end.

Definition Inv (s : state) : Prop :=
  wf (mem s) ∧ producer_inv (prod s) ∧ Forall consumer_inv (cons s).

End Defs.
End SPMCThreads.

(** ** [include/SpmcQueue.h]: two thieves after the same handle *)

Module SpmcRaces.
Section Defs.
Context {T : Type}.

(** The owner pushes [a] and [b]; thieves 0 and 1 both read [head_],
    [tail_] and the oldest handle; thief 0 then wins the compare-exchange on
    [head_] and thief 1 loses it. *)
Definition lost_race (a b : T) : list (SpmcThreads.action (T:=T)) :=
  [SpmcThreads.OwnerPush a; SpmcThreads.OwnerStep; SpmcThreads.OwnerStep;
   SpmcThreads.OwnerStep; SpmcThreads.OwnerStep;
   SpmcThreads.OwnerPush b; SpmcThreads.OwnerStep; SpmcThreads.OwnerStep;
   SpmcThreads.OwnerStep; SpmcThreads.OwnerStep;
   SpmcThreads.ThiefSteal 0; SpmcThreads.ThiefSteal 1;
   SpmcThreads.ThiefStep 0; SpmcThreads.ThiefStep 1;
   SpmcThreads.ThiefStep 0; SpmcThreads.ThiefStep 1;
   SpmcThreads.ThiefStep 0; SpmcThreads.ThiefStep 1;
   SpmcThreads.ThiefStep 0; SpmcThreads.ThiefStep 1].

End Defs.
End SpmcRaces.

(** ** Concrete inputs used to exercise the statements *)

Module Examples.

(** A pool in which ["liquid"] is interned and held by one owner; plain
    [char] is signed. *)
Definition pool_with_liquid : StringIntern.t :=
  (StringIntern.intern StringIntern.empty_pool "liquid"
     (StringIntern.fnv1a true "liquid")).1.

(** Two pushes, then a [steal] of thief 0 racing with a [pop] of the owner,
    then a [steal] of thief 1 and a [pop] on the drained deque. *)
Definition race : list (SpmcThreads.action (T:=Z)) :=
  [SpmcThreads.OwnerPush 11; SpmcThreads.OwnerStep; SpmcThreads.OwnerStep;
   SpmcThreads.OwnerStep; SpmcThreads.OwnerStep;
   SpmcThreads.OwnerPush 12; SpmcThreads.OwnerStep; SpmcThreads.OwnerStep;
   SpmcThreads.OwnerStep; SpmcThreads.OwnerStep;
   SpmcThreads.ThiefSteal 0; SpmcThreads.ThiefStep 0; SpmcThreads.ThiefStep 0;
   SpmcThreads.OwnerPop; SpmcThreads.OwnerStep; SpmcThreads.OwnerStep;
   SpmcThreads.ThiefStep 0;
   SpmcThreads.OwnerStep; SpmcThreads.OwnerStep;
   SpmcThreads.ThiefStep 0;
   SpmcThreads.ThiefSteal 1; SpmcThreads.ThiefStep 1; SpmcThreads.ThiefStep 1;
   SpmcThreads.OwnerPop; SpmcThreads.OwnerStep; SpmcThreads.OwnerStep;
   SpmcThreads.OwnerStep; SpmcThreads.OwnerStep].

(** The state [race] ends in on a deque of four cells with two thieves. *)
Definition race_end : SpmcThreads.state (T:=Z) :=
  SpmcThreads.State (SpmcQueue.Mk 1 1 [11; 12; 0; 0]) SpmcThreads.OIdle
    [SpmcThreads.TIdle; SpmcThreads.TIdle]
    [SpmcThreads.PushReturned 11 true; SpmcThreads.PushReturned 12 true;
     SpmcThreads.PopReturned 12; SpmcThreads.StealReturned 0 11;
     SpmcThreads.StealReturned 1 0; SpmcThreads.PopReturned 0].

(** Two pushes by the owner, then a complete [steal] by thief 0. *)
Definition push_push_steal : list (SpmcThreads.action (T:=Z)) :=
  [SpmcThreads.OwnerPush 11; SpmcThreads.OwnerStep; SpmcThreads.OwnerStep;
   SpmcThreads.OwnerStep; SpmcThreads.OwnerStep;
   SpmcThreads.OwnerPush 12; SpmcThreads.OwnerStep; SpmcThreads.OwnerStep;
   SpmcThreads.OwnerStep; SpmcThreads.OwnerStep;
   SpmcThreads.ThiefSteal 0; SpmcThreads.ThiefStep 0; SpmcThreads.ThiefStep 0;
   SpmcThreads.ThiefStep 0; SpmcThreads.ThiefStep 0].

(** The state [push_push_steal] ends in on a deque of four cells with one
    thief. *)
Definition push_push_steal_end : SpmcThreads.state (T:=Z) :=
  SpmcThreads.State (SpmcQueue.Mk 1 2 [11; 12; 0; 0]) SpmcThreads.OIdle
    [SpmcThreads.TIdle]
    [SpmcThreads.PushReturned 11 true; SpmcThreads.PushReturned 12 true;
     SpmcThreads.StealReturned 0 11].

(** A producer and a consumer on an [SPSCQueue] of two slots: an [enqueue]
    that meets one spurious compare-exchange failure, raced by a [dequeue]
    that finds the queue empty and a second one that takes the value, and an
    [enqueue] that finds the queue full. *)
Definition spsc_race : list (SPSCThreads.action (T:=Z)) :=
  [SPSCThreads.CallEnqueue 7; SPSCThreads.ProducerStep false;
   SPSCThreads.CallDequeue; SPSCThreads.ConsumerStep false;
   SPSCThreads.ProducerStep false; SPSCThreads.ConsumerStep false;
   SPSCThreads.ProducerStep false; SPSCThreads.ProducerStep true;
   SPSCThreads.CallDequeue; SPSCThreads.ConsumerStep false;
   SPSCThreads.ProducerStep false; SPSCThreads.ProducerStep false;
   SPSCThreads.ProducerStep false; SPSCThreads.ConsumerStep false;
   SPSCThreads.CallEnqueue 8; SPSCThreads.ProducerStep false;
   SPSCThreads.ProducerStep false; SPSCThreads.ConsumerStep false;
   SPSCThreads.ConsumerStep false].

(** The state [spsc_race] ends in. *)
Definition spsc_race_end : SPSCThreads.state (T:=Z) :=
  SPSCThreads.State (SPSCQueue.Mk [7; 0] 1 1 1) SPSCThreads.PIdle SPSCThreads.CIdle 7
    [SPSCThreads.Dequeued 0 false; SPSCThreads.Enqueued 7 true;
     SPSCThreads.Enqueued 8 false; SPSCThreads.Dequeued 7 true].

(** A producer and a consumer on an [SPSCQueue] of four slots, both stopped
    before their compare-exchange: the first [enqueue] completes, then a
    [dequeue] and a second [enqueue] advance side by side up to their last
    access. *)
Definition spsc_at_cas : list (SPSCThreads.action (T:=Z)) :=
  [SPSCThreads.CallEnqueue 7; SPSCThreads.ProducerStep false;
   SPSCThreads.ProducerStep false; SPSCThreads.ProducerStep false;
   SPSCThreads.ProducerStep false;
   SPSCThreads.CallDequeue; SPSCThreads.CallEnqueue 8;
   SPSCThreads.ConsumerStep false; SPSCThreads.ProducerStep false;
   SPSCThreads.ConsumerStep false; SPSCThreads.ProducerStep false;
   SPSCThreads.ConsumerStep false; SPSCThreads.ProducerStep false].

(** The state [spsc_at_cas] ends in. *)
Definition spsc_at_cas_end : SPSCThreads.state (T:=Z) :=
  SPSCThreads.State (SPSCQueue.Mk [7; 8; 0; 0] 0 1 3)
    (SPSCThreads.EnqCas 8 1 2) (SPSCThreads.DeqCas 0) 7
    [SPSCThreads.Enqueued 7 true].

(** The state the execution [SPMCThreads.stale_head 1 2 3] ends in on an
    [SPMCQueue] of two slots with two consumers. *)
Definition stale_head_end : SPMCThreads.state (T:=Z) :=
  SPMCThreads.State (SPMCQueue.Mk [3; 2] 1 1 1) SPMCThreads.PIdle
    [(SPMCThreads.CIdle, 1); (SPMCThreads.CIdle, 2)]
    [SPMCThreads.Enqueued 1 true; SPMCThreads.Dequeued 1 1 true;
     SPMCThreads.Enqueued 2 true; SPMCThreads.Dequeued 1 2 true;
     SPMCThreads.Enqueued 3 true; SPMCThreads.Dequeued 0 1 true].

End Examples.

(** * Properties *)

(** ** Arithmetic of [size_t] and of power-of-two masks *)

Section SizeTFacts.

Lemma modulus_eq : SizeT.modulus = 18446744073709551616.
Proof. reflexivity. Qed.

Lemma wrap_small z : 0 ≤ z < SizeT.modulus → SizeT.wrap z = z.
Proof. intros. unfold SizeT.wrap. apply Z.mod_small. lia. Qed.

Lemma pow2_range C : SizeT.pow2 C → 1 ≤ C ∧ 2 * C ≤ SizeT.modulus.
Proof.
  intros (k & Hk & ->). unfold SizeT.bits in Hk. split.
  - pose proof (Z.pow_pos_nonneg 2 k). lia.
  - unfold SizeT.modulus, SizeT.bits. replace 64 with (Z.succ 63) by lia.
    rewrite Z.pow_succ_r by lia.
    pose proof (Z.pow_le_mono_r 2 k 63). lia.
Qed.

(** Masking with [C - 1] is reduction modulo [C]. *)
Lemma land_mask_mod C x : SizeT.pow2 C → Z.land x (C - 1) = x mod C.
Proof.
  intros (k & Hk & ->).
  rewrite <- Z.land_ones by lia. f_equal. rewrite Z.ones_equiv. lia.
Qed.

Lemma wrap_mask C : SizeT.pow2 C → SizeT.wrap (C - 1) = C - 1.
Proof. intros H. apply pow2_range in H. apply wrap_small. lia. Qed.

(** Wrapping to 64 bits first does not change the residue modulo [C]. *)
Lemma wrap_mod C x : SizeT.pow2 C → SizeT.wrap x mod C = x mod C.
Proof.
  intros (k & Hk & ->). unfold SizeT.wrap, SizeT.modulus, SizeT.bits in *.
  replace 64 with (k + (64 - k)) by lia.
  rewrite Z.pow_add_r by lia.
  rewrite Z.rem_mul_r by (try apply Z.pow_nonzero; try apply Z.pow_pos_nonneg; lia).
  rewrite (Z.mul_comm (2 ^ k)), Z.mod_add by (apply Z.pow_nonzero; lia).
  apply Z.mod_mod. apply Z.pow_nonzero; lia.
Qed.

Lemma land_wrap_mask C x : SizeT.pow2 C → Z.land (SizeT.wrap x) (C - 1) = x mod C.
Proof. intros H. rewrite land_mask_mod by done. by apply wrap_mod. Qed.

End SizeTFacts.

(** ** Ring contents *)

Section RingSliceFacts.
Context {T : Type}.
Context (T0 : T).
Implicit Types (d : list T) (C h : Z) (n : nat).

Lemma ring_slice_length d C h n : length (ring_slice T0 d C h n) = n.
Proof. revert h. induction n as [|n IH]; intros h; simpl; [done|]. by rewrite IH. Qed.

(** The slice one cell longer ends with the cell [n] places after [h]. *)
Lemma ring_slice_snoc d C h n :
  0 < C → 0 ≤ h < C →
  ring_slice T0 d C h (S n) =
  ring_slice T0 d C h n ++ [default T0 (d !! Z.to_nat ((h + Z.of_nat n) mod C))].
Proof.
  intros HC. revert h. induction n as [|n IH]; intros h Hh.
  - cbn [ring_slice app Z.of_nat]. rewrite Z.add_0_r. rewrite Z.mod_small by lia. done.
  - change (ring_slice T0 d C h (S (S n)))
      with (default T0 (d !! Z.to_nat h) :: ring_slice T0 d C ((h + 1) mod C) (S n)).
    rewrite IH by (apply Z.mod_pos_bound; lia).
    assert (((h + 1) mod C + Z.of_nat n) mod C = (h + Z.of_nat (S n)) mod C) as ->.
    { rewrite Zplus_mod_idemp_l. f_equal. lia. }
    done.
Qed.

(** Writing the cell just behind a slice shorter than the ring leaves the
    slice as it was. *)
Lemma ring_slice_insert_behind d C h n x :
  0 < C → 0 ≤ h < C → Z.of_nat n < C →
  ring_slice T0 (<[Z.to_nat ((h + Z.of_nat n) mod C) := x]> d) C h n =
  ring_slice T0 d C h n.
Proof.
  intros HC. revert h. induction n as [|n IH]; intros h Hh Hn; [done|].
  cbn [ring_slice]. f_equal.
  - rewrite list_lookup_insert_ne; [done|].
    intros Heq. apply Z2Nat.inj in Heq; [|apply Z.mod_pos_bound; lia|lia].
    assert (Hlt : 0 < Z.of_nat (S n) < C) by lia.
    assert ((h + Z.of_nat (S n)) mod C ≠ h); [|done].
    destruct (Z_lt_ge_dec (h + Z.of_nat (S n)) C).
    + rewrite Z.mod_small by lia. lia.
    + replace (h + Z.of_nat (S n)) with (h + Z.of_nat (S n) - C + 1 * C) by lia.
      rewrite Z.mod_add, Z.mod_small by lia. lia.
  - replace ((h + Z.of_nat (S n)) mod C) with (((h + 1) mod C + Z.of_nat n) mod C).
    + apply IH; [apply Z.mod_pos_bound; lia|lia].
    + rewrite Zplus_mod_idemp_l. f_equal. lia.
Qed.

End RingSliceFacts.

(** ** [SPSCQueue] of [Queue.h]: one call *)

Section ModFacts.

Lemma mod_succ_cases C t :
  0 ≤ t < C → (t + 1) mod C = if t + 1 <? C then t + 1 else 0.
Proof.
  intros Ht. destruct (Z.ltb_spec (t + 1) C).
  - apply Z.mod_small. lia.
  - replace (t + 1) with C by lia. apply Z.mod_same. lia.
Qed.

Lemma mod_sub_cases C h t :
  0 ≤ h < C → 0 ≤ t < C → (t - h) mod C = if h <=? t then t - h else t - h + C.
Proof.
  intros Hh Ht. destruct (Z.leb_spec h t).
  - apply Z.mod_small. lia.
  - rewrite <- (Z.mod_add (t - h) 1 C) by lia. rewrite Z.mod_small by lia. lia.
Qed.

End ModFacts.

(** Without interference a strong compare-exchange on the value just read
    succeeds. *)
Lemma compare_exchange_strong_same v d :
  compare_exchange_strong v v d = (d, v, true).
Proof. unfold compare_exchange_strong. by rewrite Z.eqb_refl. Qed.

Section SPSCFacts.
Context {T : Type}.
Context (T0 : T).
Context (C : Z).
Context (HC : SizeT.pow2 C).

Import SPSCQueue SPSCProgram.

Local Abbreviation wf := (SPSCProgram.wf (T:=T) C).
Local Abbreviation count := (SPSCProgram.count (T:=T) C).
Local Abbreviation contents := (SPSCProgram.contents T0 C).
Implicit Types (q : SPSCQueue.t (T:=T)) (r v : T).

Lemma spsc_new_built :
  SPSCQueue.new T0 C = Built (Mk (replicate (Z.to_nat C) T0) 0 0 (C - 1)).
Proof.
  unfold new. rewrite wrap_mask by done. rewrite land_mask_mod by done.
  rewrite Z.mod_same by (apply pow2_range in HC; lia). done.
Qed.

Lemma spsc_new_wf q : SPSCQueue.new T0 C = Built q → wf q ∧ head q = 0 ∧ tail q = 0.
Proof.
  rewrite spsc_new_built. intros [= <-]. apply pow2_range in HC.
  unfold SPSCProgram.wf. simpl. rewrite length_replicate. repeat split; lia.
Qed.

Lemma spsc_count_range q : wf q → 0 ≤ count q < C.
Proof.
  intros (_ & _ & Hh & Ht). unfold SPSCProgram.count. apply Z.mod_pos_bound. lia.
Qed.

Lemma spsc_contents_length q : wf q → Z.of_nat (length (contents q)) = count q.
Proof.
  intros Hwf. unfold SPSCProgram.contents. rewrite ring_slice_length.
  apply spsc_count_range in Hwf. lia.
Qed.

(** The full test of [enqueue] in terms of the number of values held. *)
Lemma spsc_full_count q :
  wf q →
  (Z.land (SizeT.wrap (tail q + 1)) (mask q) =? head q) = (count q =? C - 1).
Proof.
  intros (_ & -> & Hh & Ht). rewrite land_wrap_mask by done.
  unfold SPSCProgram.count.
  rewrite mod_succ_cases, mod_sub_cases by lia.
  repeat case_match; lia.
Qed.

Lemma spsc_empty_count q : wf q → (head q =? tail q) = (count q =? 0).
Proof.
  intros (_ & _ & Hh & Ht). unfold SPSCProgram.count.
  rewrite mod_sub_cases by lia. repeat case_match; lia.
Qed.

(** A full queue refuses the value, whatever the schedule. *)
Lemma spsc_enqueue_full sched q v :
  wf q → count q = C - 1 → enqueue sched q v = Ret (q, false).
Proof.
  intros Hwf Hc. unfold enqueue.
  destruct sched; simpl; rewrite spsc_full_count by done;
    rewrite Hc, Z.eqb_refl; done.
Qed.

Lemma spsc_enqueue_loop_ok sched q v :
  wf q → fair sched → count q ≠ C - 1 →
  enqueue_loop sched q (tail q) v =
  Ret (Mk (<[Z.to_nat (tail q) := v]> (data q)) (head q) ((tail q + 1) mod C) (mask q),
       true).
Proof.
  revert q. induction sched as [|sp sched IH]; intros q Hwf Hfair Hc.
  { by apply elem_of_nil in Hfair. }
  pose proof Hwf as (Hlen & Hmask & Hh & Ht).
  cbn [enqueue_loop]. rewrite spsc_full_count by done.
  destruct (Z.eqb_spec (count q) (C - 1)) as [|_]; [done|].
  unfold vec_store. rewrite decide_True by lia. cbn [mbind outcome_bind].
  destruct sp.
  - (* the attempt fails spuriously: the body runs again *)
    cbn [compare_exchange_weak set_data set_tail data head tail mask].
    apply elem_of_cons in Hfair as [|Hfair]; [done|].
    set (q1 := set_tail _ _).
    etrans; [apply (IH q1); subst q1; try done|].
    + unfold SPSCProgram.wf. simpl. by rewrite length_insert.
    + subst q1. simpl. by rewrite list_insert_insert_eq.
  - cbn [compare_exchange_weak compare_exchange_strong set_data set_tail
         data head tail mask].
    rewrite compare_exchange_strong_same. unfold set_tail, set_data. simpl.
    rewrite Hmask, land_wrap_mask by done. done.
Qed.

(** A queue that is not full accepts the value at the slot [tail] and
    advances [tail] by one modulo [C]. *)
Lemma spsc_enqueue_ok sched q v :
  wf q → fair sched → count q ≠ C - 1 →
  enqueue sched q v =
  Ret (Mk (<[Z.to_nat (tail q) := v]> (data q)) (head q) ((tail q + 1) mod C) (mask q),
       true).
Proof. apply spsc_enqueue_loop_ok. Qed.

Lemma spsc_dequeue_empty sched q r :
  head q = tail q → dequeue sched q r = Ret (q, r, false).
Proof.
  intros Hc. unfold dequeue. destruct sched; simpl; rewrite Hc, Z.eqb_refl; done.
Qed.

Lemma spsc_dequeue_loop_ok sched q r :
  wf q → fair sched → head q ≠ tail q →
  dequeue_loop sched q (head q) r =
  Ret (set_head q ((head q + 1) mod C), default T0 (data q !! Z.to_nat (head q)), true).
Proof.
  revert q r. induction sched as [|sp sched IH]; intros q r Hwf Hfair Hc.
  { by apply elem_of_nil in Hfair. }
  pose proof Hwf as (Hlen & Hmask & Hh & Ht).
  cbn [dequeue_loop].
  destruct (Z.eqb_spec (head q) (tail q)) as [|_]; [done|].
  unfold vec_load. rewrite decide_True by lia.
  destruct (lookup_lt_is_Some_2 (data q) (Z.to_nat (head q))) as [x Hx]; [lia|].
  rewrite Hx. cbn [mbind outcome_bind default].
  destruct sp.
  - cbn [compare_exchange_weak set_head data head tail mask].
    apply elem_of_cons in Hfair as [|Hfair]; [done|].
    set (q1 := set_head _ _).
    etrans; [apply (IH q1 x); subst q1; done|].
    subst q1. simpl. by rewrite Hx.
  - cbn [compare_exchange_weak compare_exchange_strong set_head
         data head tail mask].
    rewrite compare_exchange_strong_same. unfold set_head. simpl.
    rewrite Hmask, land_wrap_mask by done. done.
Qed.

(** A queue that is not empty hands out the value at the slot [head] and
    advances [head] by one modulo [C]. *)
Lemma spsc_dequeue_ok sched q r :
  wf q → fair sched → head q ≠ tail q →
  dequeue sched q r =
  Ret (set_head q ((head q + 1) mod C), default T0 (data q !! Z.to_nat (head q)), true).
Proof. apply spsc_dequeue_loop_ok. Qed.

End SPSCFacts.

(** ** [SPSCQueue] of [Queue.h] is a bounded FIFO *)

Section SPSCFifo.
Context {T : Type}.
Context (T0 : T).
Context (C : Z).
Context (HC : SizeT.pow2 C).

Import SPSCQueue SPSCProgram.

Local Abbreviation wf := (SPSCProgram.wf (T:=T) C).
Local Abbreviation count := (SPSCProgram.count (T:=T) C).
Local Abbreviation contents := (SPSCProgram.contents T0 C).
Implicit Types (q : SPSCQueue.t (T:=T)) (r v : T).

Lemma spsc_enqueue_fifo sched q v :
  wf q → fair sched →
  ∃ q' ok, enqueue sched q v = Ret (q', ok) ∧ wf q' ∧
    (contents q', ok) =
    if Z.of_nat (length (contents q)) <? C - 1 then (contents q ++ [v], true)
    else (contents q, false).
Proof.
  intros Hwf Hfair. pose proof (spsc_count_range C q Hwf) as Hcount.
  pose proof Hwf as (Hlen & Hmask & Hh & Ht).
  rewrite spsc_contents_length by done.
  destruct (Z.ltb_spec (count q) (C - 1)) as [Hlt|Hge].
  - eexists _, _. split; [apply spsc_enqueue_ok; [done..|lia]|].
    assert (Hnext : 0 ≤ (tail q + 1) mod C < C) by (apply Z.mod_pos_bound; lia).
    split.
    { unfold SPSCProgram.wf. simpl. by rewrite length_insert. }
    f_equal. unfold SPSCProgram.contents, SPSCProgram.count in *. simpl.
    assert (Hc' : ((tail q + 1) mod C - head q) mod C =
                  (tail q - head q) mod C + 1).
    { revert Hlt. rewrite mod_succ_cases by lia.
      destruct (Z.ltb_spec (tail q + 1) C);
        rewrite !mod_sub_cases by lia; repeat case_match; lia. }
    rewrite Hc'.
    replace (Z.to_nat ((tail q - head q) mod C + 1))
      with (S (Z.to_nat ((tail q - head q) mod C))) by lia.
    assert (Htail : (head q + Z.of_nat (Z.to_nat ((tail q - head q) mod C))) mod C
                    = tail q).
    { rewrite Z2Nat.id by lia. rewrite Zplus_mod_idemp_r.
      replace (head q + (tail q - head q)) with (tail q) by lia.
      apply Z.mod_small. lia. }
    rewrite (ring_slice_snoc T0 _ C) by lia. rewrite Htail.
    rewrite list_lookup_insert_eq by lia. f_equal.
    rewrite <- Htail at 1. apply ring_slice_insert_behind; lia.
  - eexists _, _. split; [apply (spsc_enqueue_full C HC); [done|lia]|]. done.
Qed.

Lemma spsc_dequeue_fifo sched q r :
  wf q → fair sched →
  ∃ q' r' ok, dequeue sched q r = Ret (q', r', ok) ∧ wf q' ∧
    (contents q', r', ok) =
    match contents q with
    | x :: l => (l, x, true)
    | [] => (contents q, r, false)
    end.
Proof.
  intros Hwf Hfair. pose proof (spsc_count_range C q Hwf) as Hcount.
  pose proof Hwf as (Hlen & Hmask & Hh & Ht).
  pose proof (spsc_empty_count C q Hwf) as Hempty.
  destruct (Z.eqb_spec (head q) (tail q)) as [Heq|Hne].
  - eexists _, _, _. split; [by apply spsc_dequeue_empty|]. split; [done|].
    symmetry in Hempty. apply Z.eqb_eq in Hempty.
    unfold SPSCProgram.contents. by rewrite Hempty.
  - eexists _, _, _. split; [by apply spsc_dequeue_ok|].
    assert (Hnext : 0 ≤ (head q + 1) mod C < C) by (apply Z.mod_pos_bound; lia).
    split; [done|].
    symmetry in Hempty. apply Z.eqb_neq in Hempty.
    unfold SPSCProgram.contents, SPSCProgram.count in *. simpl.
    assert (Hc' : (tail q - head q) mod C =
                  (tail q - (head q + 1) mod C) mod C + 1).
    { revert Hempty. rewrite mod_succ_cases by lia.
      destruct (Z.ltb_spec (head q + 1) C);
        rewrite !mod_sub_cases by lia; repeat case_match; lia. }
    rewrite Hc'.
    replace (Z.to_nat ((tail q - (head q + 1) mod C) mod C + 1))
      with (S (Z.to_nat ((tail q - (head q + 1) mod C) mod C))).
    + done.
    + pose proof (Z.mod_pos_bound (tail q - (head q + 1) mod C) C). lia.
Qed.

(** The queue computes what the bounded FIFO list computes. *)
Lemma spsc_run_fifo ops q r :
  wf q → Forall fair_op ops →
  ∃ q' r' evs, run ops q r = Ret (q', r', evs) ∧ wf q' ∧
    fifo C ops (contents q) r = (contents q', r', evs).
Proof.
  intros Hwf Hops. revert q r Hwf.
  induction Hops as [|o ops Ho Hops IH]; intros q r Hwf.
  { eexists _, _, _. simpl. done. }
  destruct o as [sched v|sched]; simpl in Ho.
  - destruct (spsc_enqueue_fifo sched q v Hwf Ho) as (q1 & ok & Hcall & Hwf1 & Hfifo).
    destruct (IH q1 r Hwf1) as (q' & r' & evs & Hrun & Hwf' & Hrest).
    eexists _, _, _. cbn [run fifo]. rewrite Hcall. cbn [mbind outcome_bind fst snd].
    rewrite Hrun. cbn [mbind outcome_bind fst snd]. split; [done|]. split; [done|].
    destruct (_ <? _); injection Hfifo as Hq1 ->; rewrite <- Hq1, Hrest; done.
  - destruct (spsc_dequeue_fifo sched q r Hwf Ho)
      as (q1 & r1 & ok & Hcall & Hwf1 & Hfifo).
    destruct (IH q1 r1 Hwf1) as (q' & r' & evs & Hrun & Hwf' & Hrest).
    eexists _, _, _. cbn [run fifo]. rewrite Hcall. cbn [mbind outcome_bind fst snd].
    rewrite Hrun. cbn [mbind outcome_bind fst snd]. split; [done|]. split; [done|].
    destruct (contents q); injection Hfifo as Hq1 -> ->; rewrite <- ?Hq1, Hrest; done.
Qed.

(** In the bounded FIFO, what was held or accepted is what was handed out
    or is still held, in the same order. *)
Lemma fifo_order ops (l : list T) r :
  l ++ enqueued (fifo C ops l r).2 = dequeued (fifo C ops l r).2 ++ (fifo C ops l r).1.1.
Proof.
  revert l r. induction ops as [|o ops IH]; intros l r.
  { simpl. by rewrite app_nil_r. }
  destruct o as [sched v|sched]; cbn [fifo].
  - destruct (_ <? _); cbn [fst snd].
    + change (enqueued (Enqueued v true :: ?evs)) with (v :: enqueued evs).
      change (dequeued (Enqueued v true :: ?evs)) with (dequeued evs).
      rewrite <- IH. by rewrite <- app_assoc.
    + apply IH.
  - destruct l as [|x l]; cbn [fst snd].
    + apply IH.
    + change (enqueued (Dequeued x true :: ?evs)) with (enqueued evs).
      change (dequeued (Dequeued x true :: ?evs)) with (x :: dequeued evs).
      cbn [app]. f_equal. apply IH.
Qed.

(** Strict FIFO for every single-threaded program on a freshly constructed
    queue. *)
Lemma spsc_program_fifo ops q0 r0 :
  Forall fair_op ops → SPSCQueue.new T0 C = Built q0 →
  ∃ q r evs, run ops q0 r0 = Ret (q, r, evs) ∧
    dequeued evs `prefix_of` enqueued evs ∧
    (empty q = true → dequeued evs = enqueued evs).
Proof.
  intros Hops Hnew.
  destruct (spsc_new_wf T0 C HC q0 Hnew) as (Hwf & Hh & Ht).
  destruct (spsc_run_fifo ops q0 r0 Hwf Hops) as (q & r & evs & Hrun & Hwfq & Hfifo).
  assert (Hnil : contents q0 = []).
  { unfold SPSCProgram.contents, SPSCProgram.count. rewrite Hh, Ht.
    rewrite Z.sub_diag, Z.mod_0_l by (apply pow2_range in HC; lia). done. }
  pose proof (fifo_order ops (contents q0) r0) as Hord.
  rewrite Hfifo, Hnil in Hord. simpl in Hord.
  eexists _, _, _. split; [done|]. split.
  - rewrite Hord. by eexists.
  - intros Hempty. unfold empty in Hempty.
    rewrite (spsc_empty_count C) in Hempty by done. apply Z.eqb_eq in Hempty.
    rewrite Hord. unfold SPSCProgram.contents. rewrite Hempty. simpl.
    by rewrite app_nil_r.
Qed.

End SPSCFifo.

(** ** C1 *)

Lemma pow2_16 : SizeT.pow2 16.
Proof. exists 4. unfold SizeT.bits. split; [lia|done]. Qed.

(** C1.  A single thread using the [SPSCQueue] of capacity 16: the three
    calls [enqueue(1)], [enqueue(2)], [enqueue(3)] return [true], the three
    following [dequeue] calls return [true] and yield 1, 2 and 3 in that
    order, and [empty()] is [true] afterwards.  For every capacity that is a
    power of two and every sequence of [enqueue] and [dequeue] calls on a
    fresh queue, all calls return and the values handed out by [dequeue] are,
    in order, the first of the values accepted by [enqueue] (strict FIFO);
    when the queue ends empty they are all of them.  Calls may meet any
    number of spurious [compare_exchange_weak] failures. *)
Theorem C1_spsc_queue_is_fifo :
  (∀ s1 s2 s3 s4 s5 s6 (r0 : Z),
     fair s1 → fair s2 → fair s3 → fair s4 → fair s5 → fair s6 →
     ∃ q0 q r,
       SPSCQueue.new 0 16 = SPSCQueue.Built q0 ∧
       SPSCProgram.run
         [SPSCProgram.Enqueue s1 1; SPSCProgram.Enqueue s2 2;
          SPSCProgram.Enqueue s3 3; SPSCProgram.Dequeue s4;
          SPSCProgram.Dequeue s5; SPSCProgram.Dequeue s6] q0 r0 =
       Ret (q, r,
            [SPSCProgram.Enqueued 1 true; SPSCProgram.Enqueued 2 true;
             SPSCProgram.Enqueued 3 true; SPSCProgram.Dequeued 1 true;
             SPSCProgram.Dequeued 2 true; SPSCProgram.Dequeued 3 true]) ∧
       SPSCQueue.empty q = true) ∧
  (∀ (T : Type) (T0 : T) (C : Z) (ops : list SPSCProgram.op) q0 (r0 : T),
     SizeT.pow2 C → Forall SPSCProgram.fair_op ops →
     SPSCQueue.new T0 C = SPSCQueue.Built q0 →
     ∃ q r evs,
       SPSCProgram.run ops q0 r0 = Ret (q, r, evs) ∧
       SPSCProgram.dequeued evs `prefix_of` SPSCProgram.enqueued evs ∧
       (SPSCQueue.empty q = true →
        SPSCProgram.dequeued evs = SPSCProgram.enqueued evs)).
Proof.
  split.
  - intros s1 s2 s3 s4 s5 s6 r0 H1 H2 H3 H4 H5 H6.
    pose proof (spsc_new_built 0 16 pow2_16) as Hnew.
    eexists. 
    destruct (spsc_new_wf 0 16 pow2_16 _ Hnew) as (Hwf & Hh & Ht).
    set (ops := [SPSCProgram.Enqueue s1 1; SPSCProgram.Enqueue s2 2;
                 SPSCProgram.Enqueue s3 3; SPSCProgram.Dequeue s4;
                 SPSCProgram.Dequeue s5; SPSCProgram.Dequeue s6]).
    assert (Hops : Forall SPSCProgram.fair_op ops).
    { subst ops. repeat (constructor; [assumption|]). constructor. }
    destruct (spsc_run_fifo 0 16 pow2_16 ops _ r0 Hwf Hops)
      as (q & r & evs & Hrun & Hwfq & Hfifo).
    exists q, r. split; [exact Hnew|].
    rewrite Hrun.
    change (SPSCProgram.contents 0 16 _) with (@nil Z) in Hfifo at 1.
    assert (Hlist : SPSCProgram.fifo 16 ops [] r0 =
              ([], 3,
               [SPSCProgram.Enqueued 1 true; SPSCProgram.Enqueued 2 true;
                SPSCProgram.Enqueued 3 true; SPSCProgram.Dequeued 1 true;
                SPSCProgram.Dequeued 2 true; SPSCProgram.Dequeued 3 true]))
      by reflexivity.
    rewrite Hlist in Hfifo. injection Hfifo as Hc <- <-. split; [done|].
    unfold SPSCQueue.empty. rewrite (spsc_empty_count 16) by done.
    apply Z.eqb_eq. rewrite <- (spsc_contents_length 0 16) by done.
    by rewrite <- Hc.
  - intros T T0 C ops q0 r0 HC Hops Hnew. by apply (spsc_program_fifo T0 C).
Qed.

Lemma C1_spsc_queue_is_fifo_witness :
  (∃ q0 q r,
     SPSCQueue.new 0 16 = SPSCQueue.Built q0 ∧
     SPSCProgram.run
       [SPSCProgram.Enqueue [false] 1; SPSCProgram.Enqueue [true; false] 2;
        SPSCProgram.Enqueue [false] 3; SPSCProgram.Dequeue [false];
        SPSCProgram.Dequeue [true; true; false]; SPSCProgram.Dequeue [false]] q0 0 =
     Ret (q, r,
          [SPSCProgram.Enqueued 1 true; SPSCProgram.Enqueued 2 true;
           SPSCProgram.Enqueued 3 true; SPSCProgram.Dequeued 1 true;
           SPSCProgram.Dequeued 2 true; SPSCProgram.Dequeued 3 true]) ∧
     SPSCQueue.empty q = true) ∧
  (∃ q r evs,
     SPSCProgram.run
       [SPSCProgram.Enqueue [true; false] 7; SPSCProgram.Enqueue [false] 8;
        SPSCProgram.Dequeue [false]; SPSCProgram.Enqueue [false] 9;
        SPSCProgram.Dequeue [false]]
       (SPSCQueue.Mk [0; 0] 0 0 1) 0 = Ret (q, r, evs) ∧
     SPSCProgram.dequeued evs `prefix_of` SPSCProgram.enqueued evs ∧
     (SPSCQueue.empty q = true →
      SPSCProgram.dequeued evs = SPSCProgram.enqueued evs)).
Proof.
  split.
  - apply (proj1 C1_spsc_queue_is_fifo); unfold fair; repeat constructor.
  - apply (proj2 C1_spsc_queue_is_fifo Z 0 2).
    + exists 1. unfold SizeT.bits. split; [lia|reflexivity].
    + repeat (constructor; [unfold SPSCProgram.fair_op, fair; repeat constructor|]).
      constructor.
    + reflexivity.
Defined.

(** ** C4: filling a queue up to its usable capacity *)

Section SPSCFill.
Context {T : Type}.
Context (T0 : T).
Context (C : Z).
Context (HC : SizeT.pow2 C).

Import SPSCQueue SPSCProgram.

Local Abbreviation wf := (SPSCProgram.wf (T:=T) C).
Local Abbreviation count := (SPSCProgram.count (T:=T) C).
Implicit Types (q : SPSCQueue.t (T:=T)).

(** [size()] is the number of values held. *)
Lemma spsc_size_count q : wf q → size C q = count q.
Proof.
  intros (_ & Hmask & Hh & Ht). unfold size, SPSCProgram.count.
  rewrite Hmask, land_wrap_mask by done.
  rewrite <- (Z.mul_1_l C) at 1. rewrite Z.mod_add by (apply pow2_range in HC; lia).
  by apply wrap_mod.
Qed.

Lemma spsc_enqueue_all_fill (items : list (list bool * T)) q :
  wf q → Forall (λ it, fair it.1) items →
  count q + Z.of_nat (length items) ≤ C - 1 →
  ∃ q', enqueue_all items q = Ret (q', replicate (length items) true) ∧
    wf q' ∧ count q' = count q + Z.of_nat (length items).
Proof.
  intros Hwf Hfair. revert q Hwf.
  induction Hfair as [|[sched v] items Hs Hfair IH]; intros q Hwf Hroom.
  { exists q. cbn [enqueue_all length replicate]. split; [done|]. split; [done|]. lia. }
  cbn [length] in Hroom. cbn [fst] in Hs.
  destruct (spsc_enqueue_fifo T0 C HC sched q v Hwf Hs) as (q1 & ok & Hcall & Hwf1 & Hres).
  pose proof (spsc_contents_length T0 C q Hwf) as Hlen.
  pose proof (spsc_contents_length T0 C q1 Hwf1) as Hlen1.
  rewrite Hlen in Hres.
  destruct (Z.ltb_spec (count q) (C - 1)) as [_|]; [|lia].
  injection Hres as Hc1 ->. rewrite Hc1, length_app in Hlen1. cbn [length] in Hlen1.
  destruct (IH q1 Hwf1) as (q' & Hrest & Hwf' & Hcount'); [lia|].
  exists q'. cbn [enqueue_all length replicate]. rewrite Hcall.
  cbn [mbind outcome_bind fst snd]. rewrite Hrest.
  split; [done|]. split; [done|]. lia.
Qed.

End SPSCFill.

(** C4.  For every power-of-two capacity [C] and every [k ≤ C - 1]: on a
    freshly constructed [SPSCQueue] ([Queue.h]) of capacity [C], [k] calls
    of [enqueue] in a row all return [true] and [size()] is [k] afterwards;
    after [C - 1] of them a further [enqueue] returns [false] and changes
    nothing. *)
Theorem C4_fill_to_capacity :
  ∀ (T : Type) (T0 : T) (C : Z) q0 (items : list (list bool * T)),
    SizeT.pow2 C → SPSCQueue.new T0 C = SPSCQueue.Built q0 →
    Forall (λ it, fair it.1) items → Z.of_nat (length items) ≤ C - 1 →
    ∃ q, SPSCProgram.enqueue_all items q0 = Ret (q, replicate (length items) true) ∧
      SPSCQueue.size C q = Z.of_nat (length items) ∧
      (Z.of_nat (length items) = C - 1 →
       ∀ sched v, SPSCQueue.enqueue sched q v = Ret (q, false)).
Proof.
  intros T T0 C q0 items HC Hnew Hfair Hlen.
  destruct (spsc_new_wf T0 C HC q0 Hnew) as (Hwf & Hh & Ht).
  assert (Hc0 : SPSCProgram.count C q0 = 0).
  { unfold SPSCProgram.count. rewrite Hh, Ht, Z.sub_diag.
    apply Z.mod_0_l. apply pow2_range in HC. lia. }
  destruct (spsc_enqueue_all_fill T0 C HC items q0 Hwf Hfair)
    as (q & Hall & Hwfq & Hcount); [lia|].
  exists q. split; [done|]. split.
  - rewrite spsc_size_count by done. lia.
  - intros Hfull sched v. apply (spsc_enqueue_full C HC); [done|lia].
Qed.

Lemma C4_fill_to_capacity_witness :
  ∃ q, SPSCProgram.enqueue_all [([false], 5); ([true; false], 6); ([false], 7)]
         (SPSCQueue.Mk [0; 0; 0; 0] 0 0 3) = Ret (q, [true; true; true]) ∧
    SPSCQueue.size 4 q = 3 ∧
    (3 = 4 - 1 → ∀ sched v, SPSCQueue.enqueue sched q v = Ret (q, false)).
Proof.
  assert (Hp : SizeT.pow2 4) by (exists 2; unfold SizeT.bits; split; [lia|reflexivity]).
  apply (C4_fill_to_capacity Z 0 4 _
           [([false], 5); ([true; false], 6); ([false], 7)] Hp).
  - reflexivity.
  - repeat (constructor; [unfold fair; simpl; repeat constructor|]). constructor.
  - simpl. lia.
Defined.

(** ** C7: the allocation-permitted path of [cpputils::SpscQueue] *)

(** C7 (the code departs from the claim).  [enqueue] and [emplace], the
    calls that are allowed to allocate, instantiate [inner_enqueue] with the
    enumerator [CanAlloc], whose value is 0: the [bool] template argument
    [canAlloc] is [false], the instantiation in which the branch
    [else if (canAlloc)] leading to [resize()] is dead.  It is [try_enqueue]
    and [try_emplace], passing [CannotAlloc = 1], that select the
    instantiation with [canAlloc = true].  This holds whatever
    [inner_enqueue] does. *)
Theorem C7_enqueue_selects_no_allocation :
  ∀ (T R : Type) (inner_enqueue : bool → SpscQueue.t → T → R)
    (q : SpscQueue.t) (element : T),
    SpscQueue.enumerator SpscQueue.CanAlloc = 0 ∧
    SpscQueue.enumerator SpscQueue.CannotAlloc = 1 ∧
    SpscQueue.enqueue inner_enqueue q element = inner_enqueue false q element ∧
    SpscQueue.try_enqueue inner_enqueue q element = inner_enqueue true q element.
Proof. intros T R inner_enqueue q element. repeat split. Qed.

(** ** C2: the work-stealing deque used by one thread *)

Section DequeFacts.
Context {T : Type}.
Context (nullptr : T).
Context (LogSize : Z).

Import SpmcQueue.
Implicit Types (q : SpmcQueue.t (T:=T)).

Lemma deque_pop_size q :
  (pop nullptr LogSize q).2 ≠ nullptr →
  size (pop nullptr LogSize q).1 = size q - 1.
Proof.
  unfold pop, size. cbn [set_tail head_ tail_ buffer_].
  rewrite compare_exchange_strong_same.
  destruct (Z.leb_spec (head_ q) (tail_ q - 1)) as [Hle|Hgt]; [|done].
  destruct (Z.eqb_spec (head_ q) (tail_ q - 1)) as [Heq|Hne];
    cbn [fst snd set_head set_tail head_ tail_ buffer_]; intros _;
    repeat case_match; lia.
Qed.

Lemma deque_steal_size q :
  (steal nullptr LogSize q).2 ≠ nullptr →
  size (steal nullptr LogSize q).1 = size q - 1.
Proof.
  unfold steal, size. rewrite compare_exchange_strong_same.
  destruct (Z.ltb_spec (head_ q) (tail_ q)) as [Hlt|Hge]; [|done].
  cbn [fst snd set_head set_tail head_ tail_ buffer_]; intros _.
  repeat case_match; lia.
Qed.

End DequeFacts.

(** C2.  The deque with [BufferSize_ = 16] ([LogSize = 4]) used by one
    thread: from the empty deque, 15 calls of [try_push] with distinct
    non-null handles all return [true] and [size()] is 15; [pop()] then
    returns the handle pushed last and leaves 14; a following [steal()]
    returns the handle pushed first and leaves 13.  In every state of every
    deque, a [pop] or a [steal] that returns a non-null handle decreases
    [size()] by exactly one. *)
Theorem C2_deque_pop_lifo_steal_fifo :
  (∀ (T : Type) (nullptr : T) (hs : list T),
     length hs = 15%nat → NoDup hs → nullptr ∉ hs →
     ∃ q15 q14 q13 h_last h_first,
       SpmcProgram.try_push_all 4 hs (SpmcQueue.new nullptr 4) =
         (q15, replicate 15 true) ∧
       SpmcQueue.size q15 = 15 ∧
       last hs = Some h_last ∧ head hs = Some h_first ∧
       SpmcQueue.pop nullptr 4 q15 = (q14, h_last) ∧
       SpmcQueue.size q14 = 14 ∧
       SpmcQueue.steal nullptr 4 q14 = (q13, h_first) ∧
       SpmcQueue.size q13 = 13) ∧
  (∀ (T : Type) (nullptr : T) (LogSize : Z) (q : SpmcQueue.t),
     ((SpmcQueue.pop nullptr LogSize q).2 ≠ nullptr →
      SpmcQueue.size (SpmcQueue.pop nullptr LogSize q).1 = SpmcQueue.size q - 1) ∧
     ((SpmcQueue.steal nullptr LogSize q).2 ≠ nullptr →
      SpmcQueue.size (SpmcQueue.steal nullptr LogSize q).1 = SpmcQueue.size q - 1)).
Proof.
  split.
  - intros T nullptr hs Hlen _ _.
    destruct hs as [|h1 [|h2 [|h3 [|h4 [|h5 [|h6 [|h7 [|h8 [|h9 [|h10 [|h11
      [|h12 [|h13 [|h14 [|h15 [|h16 hs]]]]]]]]]]]]]]]]; try discriminate Hlen.
    set (hs := [h1; h2; h3; h4; h5; h6; h7; h8; h9; h10; h11; h12; h13; h14; h15]).
    set (q15 := (SpmcProgram.try_push_all 4 hs (SpmcQueue.new nullptr 4)).1).
    set (q14 := (SpmcQueue.pop nullptr 4 q15).1).
    set (q13 := (SpmcQueue.steal nullptr 4 q14).1).
    exists q15, q14, q13, h15, h1.
    repeat split; vm_compute; reflexivity.
  - intros T nullptr LogSize q. split.
    + apply deque_pop_size.
    + apply deque_steal_size.
Qed.

Lemma C2_deque_pop_lifo_steal_fifo_witness :
  ∃ q15 q14 q13 h_last h_first,
    SpmcProgram.try_push_all 4
      [101; 102; 103; 104; 105; 106; 107; 108; 109; 110; 111; 112; 113; 114; 115]
      (SpmcQueue.new 0 4) = (q15, replicate 15 true) ∧
    SpmcQueue.size q15 = 15 ∧
    last [101; 102; 103; 104; 105; 106; 107; 108; 109; 110; 111; 112; 113; 114; 115]
      = Some h_last ∧
    head [101; 102; 103; 104; 105; 106; 107; 108; 109; 110; 111; 112; 113; 114; 115]
      = Some h_first ∧
    SpmcQueue.pop 0 4 q15 = (q14, h_last) ∧
    SpmcQueue.size q14 = 14 ∧
    SpmcQueue.steal 0 4 q14 = (q13, h_first) ∧
    SpmcQueue.size q13 = 13.
Proof.
  apply (proj1 C2_deque_pop_lifo_steal_fifo Z 0
           [101; 102; 103; 104; 105; 106; 107; 108; 109; 110; 111; 112; 113; 114; 115]).
  - reflexivity.
  - apply (bool_decide_unpack _). vm_compute. exact I.
  - apply (bool_decide_unpack _). vm_compute. exact I.
Defined.

(** ** C3: what [capacity()] returns *)

(** C3 as stated fails on [Queue.h]: the [SPSCQueue] built with 16 slots
    reports 16, not 15. *)
Lemma C3_capacity_counterexample :
  ¬ (∀ (N : Z) (q : SPSCQueue.t (T:=Z)),
       SizeT.pow2 N → SPSCQueue.new 0 N = SPSCQueue.Built q →
       SPSCQueue.capacity N q = N - 1).
Proof.
  intros H. specialize (H 16 _ pow2_16 eq_refl). discriminate H.
Qed.

(** C3 (amended).  For a slot count [N] that is a power of two,
    [capacity()] returns [N - 1] for [cpputils::SpscQueue]
    ([capacity_ = N]) and for the work-stealing [SpmcQueue]
    ([BufferSize_ = N]); the [SPSCQueue] and [SPMCQueue] of [Queue.h] return
    the template parameter [Capacity = N] itself. *)
Theorem C3_capacity_values :
  ∀ (T : Type) (T0 : T) (N k : Z),
    0 ≤ k < SizeT.bits → N = 2 ^ k →
    (∀ q : SpscQueue.t (T:=T), SpscQueue.capacity_ q = N → SpscQueue.capacity q = N - 1) ∧
    (SpmcQueue.BufferSize_ k = N ∧ SpmcQueue.capacity k = N - 1) ∧
    (∀ q, SPSCQueue.new T0 N = SPSCQueue.Built q → SPSCQueue.capacity N q = N) ∧
    (∀ q, SPMCQueue.new T0 N = SPMCQueue.Built q → SPMCQueue.capacity N q = N).
Proof.
  intros T T0 N k Hk HN.
  assert (HP : SizeT.pow2 N) by (by exists k).
  split; [|split; [|split]].
  - intros q Hq. unfold SpscQueue.capacity. rewrite Hq. by apply wrap_mask.
  - unfold SpmcQueue.capacity, SpmcQueue.BufferSize_.
    rewrite Z.shiftl_1_l. split; [done|]. by rewrite HN.
  - done.
  - done.
Qed.

Lemma C3_capacity_values_witness :
  (∀ q : SpscQueue.t (T:=Z), SpscQueue.capacity_ q = 16 → SpscQueue.capacity q = 16 - 1) ∧
  (SpmcQueue.BufferSize_ 4 = 16 ∧ SpmcQueue.capacity 4 = 16 - 1) ∧
  (∀ q, SPSCQueue.new 0 16 = SPSCQueue.Built q → SPSCQueue.capacity 16 q = 16) ∧
  (∀ q, SPMCQueue.new 0 16 = SPMCQueue.Built q → SPMCQueue.capacity 16 q = 16).
Proof.
  apply (C3_capacity_values Z 0 16 4).
  - unfold SizeT.bits. lia.
  - reflexivity.
Defined.

(** ** C5: what the constructors reject *)

(** A positive number that shares no bit with its predecessor is a power of
    two. *)
Lemma land_pred_pow2 C :
  0 < C → Z.land C (C - 1) = 0 → ∃ k, 0 ≤ k ∧ C = 2 ^ k.
Proof.
  intros HC Hland. exists (Z.log2 C).
  pose proof (Z.log2_nonneg C) as Hk. split; [done|].
  destruct (Z.log2_spec C HC) as [Hlo Hhi].
  destruct (decide (C = 2 ^ Z.log2 C)) as [|Hne]; [done|exfalso].
  assert (Hpred : Z.log2 (C - 1) = Z.log2 C).
  { apply Z.log2_unique; [done|]. lia. }
  assert (Hbit : Z.testbit (Z.land C (C - 1)) (Z.log2 C) = true).
  { rewrite Z.land_spec, Z.bit_log2 by done.
    rewrite <- Hpred. rewrite Z.bit_log2; [done|].
    pose proof (Z.pow_pos_nonneg 2 (Z.log2 C)). lia. }
  rewrite Hland, Z.bits_0 in Hbit. discriminate.
Qed.

Section Constructors.
Context {T : Type}.
Context (T0 : T).

(** The check of the [Queue.h] constructors rejects every positive slot
    count that is not a power of two. *)
Lemma spsc_new_rejects C :
  0 < C < SizeT.modulus → ¬ SizeT.pow2 C →
  SPSCQueue.new T0 C = SPSCQueue.invalid_argument.
Proof.
  intros HC Hnp. unfold SPSCQueue.new. rewrite wrap_small by lia.
  destruct (Z.eqb_spec (Z.land C (C - 1)) 0) as [Hz|]; [|done].
  exfalso. apply Hnp. destruct (land_pred_pow2 C) as (k & Hk & ->); [lia|done|].
  exists k. split; [|done]. split; [done|].
  apply (Z.pow_lt_mono_r_iff 2); [lia|unfold SizeT.bits; lia|apply HC].
Qed.

Lemma spmc_new_rejects C :
  0 < C < SizeT.modulus → ¬ SizeT.pow2 C →
  SPMCQueue.new T0 C = SPMCQueue.invalid_argument.
Proof.
  intros HC Hnp. unfold SPMCQueue.new. rewrite wrap_small by lia.
  destruct (Z.eqb_spec (Z.land C (C - 1)) 0) as [Hz|]; [|done].
  exfalso. apply Hnp. destruct (land_pred_pow2 C) as (k & Hk & ->); [lia|done|].
  exists k. split; [|done]. split; [done|].
  apply (Z.pow_lt_mono_r_iff 2); [lia|unfold SizeT.bits; lia|apply HC].
Qed.

(** The constructor of [cpputils::SpscQueue] builds no object when the slot
    count is zero: unless the vector has thrown before, it stops at its
    first [assert]. *)
Lemma spscq_new_zero max_size allocates stale q :
  SpscQueue.new T0 max_size allocates 0 stale ≠ SpscQueue.Built q.
Proof. unfold SpscQueue.new. by destruct (vec_sized _ _ _ _). Qed.

End Constructors.

(** C5 (the code departs from the claim).  [Capacity = 0] is not a power of
    two, yet the constructors of [SPSCQueue] and [SPMCQueue] do not throw:
    [mask] wraps to [2^64 - 1], [Capacity & mask] is 0, and the object is
    built over an empty vector.  The first [enqueue] on it writes [data[0]]
    outside the vector. *)
Theorem C5_zero_capacity_is_built :
  ∀ (T : Type) (T0 : T),
    SPSCQueue.new T0 0 =
      SPSCQueue.Built (SPSCQueue.Mk [] 0 0 18446744073709551615) ∧
    SPMCQueue.new T0 0 =
      SPMCQueue.Built (SPMCQueue.Mk [] 0 0 18446744073709551615) ∧
    (∀ sched (v : T),
       SPSCQueue.enqueue sched (SPSCQueue.Mk [] 0 0 18446744073709551615) v
       = Undefined) ∧
    (∀ sched (v : T),
       SPMCQueue.enqueue sched (SPMCQueue.Mk [] 0 0 18446744073709551615) v
       = Undefined).
Proof.
  intros T T0. split; [reflexivity|]. split; [reflexivity|].
  split; intros [|sp sched] v; reflexivity.
Qed.

(** ** C9: [SPMCQueue::steal] is [SPMCQueue::dequeue] *)

(** C9.  For every state of an [SPMCQueue], every value of the
    out-parameter and every schedule of spurious compare-exchange failures,
    [steal(result)] and [dequeue(result)] have the same outcome: the same
    returned boolean, the same value in [result] and the same final
    state. *)
Theorem C9_spmc_steal_is_dequeue :
  ∀ (T : Type) (sched : list bool) (q : SPMCQueue.t (T:=T)) (result : T),
    SPMCQueue.steal sched q result = SPMCQueue.dequeue sched q result.
Proof.
  intros T sched q result. unfold SPMCQueue.steal, SPMCQueue.dequeue.
  generalize (SPMCQueue.head q) as currentHead. revert q result.
  induction sched as [|spurious sched IH]; intros q result currentHead.
  - reflexivity.
  - cbn [SPMCQueue.steal_loop SPMCQueue.dequeue_loop].
    destruct (currentHead =? SPMCQueue.tail q); [reflexivity|].
    destruct (vec_load (SPMCQueue.data q) currentHead) as [x| |]; [|reflexivity..].
    cbn [mbind outcome_bind].
    destruct (compare_exchange_weak _ _ _ _) as [[cell expected] ok].
    destruct ok; [reflexivity|]. apply IH.
Qed.

(** ** C6: how the stored indices move *)

(** The stored [tail] of an [SPSCQueue] of two slots goes from 1 back to 0:
    C6 as stated fails on the ring queues. *)
Lemma C6_monotone_counterexample :
  ¬ (∀ (ops : list SPSCProgram.op) (q0 q q' : SPSCQueue.t (T:=Z)) r evs sched v ok,
       SPSCQueue.new 0 2 = SPSCQueue.Built q0 →
       SPSCProgram.run ops q0 0 = Ret (q, r, evs) →
       SPSCQueue.enqueue sched q v = Ret (q', ok) →
       SPSCQueue.tail q ≤ SPSCQueue.tail q').
Proof.
  intros H.
  specialize (H [SPSCProgram.Enqueue [false] 7; SPSCProgram.Dequeue [false]]
                _ _ _ _ _ [false] 8 _ eq_refl eq_refl eq_refl).
  vm_compute in H. by apply H.
Qed.

Section RingIndices.
Context {T : Type}.

Lemma spsc_enqueue_indices sched (q q' : SPSCQueue.t (T:=T)) v ok :
  SPSCQueue.enqueue sched q v = Ret (q', ok) →
  SPSCQueue.head q' = SPSCQueue.head q ∧
  SPSCQueue.tail q' =
    (if ok then next_index (SPSCQueue.tail q) (SPSCQueue.mask q) else SPSCQueue.tail q).
Proof.
  unfold SPSCQueue.enqueue, next_index. revert q.
  induction sched as [|sp sched IH]; intros q; cbn [SPSCQueue.enqueue_loop].
  - destruct (_ =? _); [by intros [= <- <-]|].
    by destruct (vec_store _ _ _).
  - destruct (_ =? _); [by intros [= <- <-]|].
    destruct (vec_store _ _ _) as [d| |]; [|done..]. cbn [mbind outcome_bind].
    destruct sp; cbn [compare_exchange_weak].
    + intros Hrec. by apply (IH (SPSCQueue.set_tail (SPSCQueue.set_data q d) _)) in Hrec.
    + rewrite compare_exchange_strong_same. by intros [= <- <-].
Qed.

Lemma spsc_dequeue_indices sched (q q' : SPSCQueue.t (T:=T)) r r' ok :
  SPSCQueue.dequeue sched q r = Ret (q', r', ok) →
  SPSCQueue.tail q' = SPSCQueue.tail q ∧
  SPSCQueue.head q' =
    (if ok then next_index (SPSCQueue.head q) (SPSCQueue.mask q) else SPSCQueue.head q).
Proof.
  unfold SPSCQueue.dequeue, next_index. revert q r.
  induction sched as [|sp sched IH]; intros q r; cbn [SPSCQueue.dequeue_loop].
  - destruct (_ =? _); [by intros [= <- <- <-]|].
    by destruct (vec_load _ _).
  - destruct (_ =? _); [by intros [= <- <- <-]|].
    destruct (vec_load _ _) as [x| |]; [|done..]. cbn [mbind outcome_bind].
    destruct sp; cbn [compare_exchange_weak].
    + intros Hrec. by apply (IH (SPSCQueue.set_head q _)) in Hrec.
    + rewrite compare_exchange_strong_same. by intros [= <- <- <-].
Qed.

Lemma spmc_enqueue_indices sched (q q' : SPMCQueue.t (T:=T)) v ok :
  SPMCQueue.enqueue sched q v = Ret (q', ok) →
  SPMCQueue.head q' = SPMCQueue.head q ∧
  SPMCQueue.tail q' =
    (if ok then next_index (SPMCQueue.tail q) (SPMCQueue.mask q) else SPMCQueue.tail q).
Proof.
  unfold SPMCQueue.enqueue, next_index. revert q.
  induction sched as [|sp sched IH]; intros q; cbn [SPMCQueue.enqueue_loop].
  - destruct (_ =? _); [by intros [= <- <-]|].
    by destruct (vec_store _ _ _).
  - destruct (_ =? _); [by intros [= <- <-]|].
    destruct (vec_store _ _ _) as [d| |]; [|done..]. cbn [mbind outcome_bind].
    destruct sp; cbn [compare_exchange_weak].
    + intros Hrec. by apply (IH (SPMCQueue.set_tail (SPMCQueue.set_data q d) _)) in Hrec.
    + rewrite compare_exchange_strong_same. by intros [= <- <-].
Qed.

Lemma spmc_dequeue_indices sched (q q' : SPMCQueue.t (T:=T)) r r' ok :
  SPMCQueue.dequeue sched q r = Ret (q', r', ok) →
  SPMCQueue.tail q' = SPMCQueue.tail q ∧
  SPMCQueue.head q' =
    (if ok then next_index (SPMCQueue.head q) (SPMCQueue.mask q) else SPMCQueue.head q).
Proof.
  unfold SPMCQueue.dequeue, next_index. revert q r.
  induction sched as [|sp sched IH]; intros q r; cbn [SPMCQueue.dequeue_loop].
  - destruct (_ =? _); [by intros [= <- <- <-]|].
    by destruct (vec_load _ _).
  - destruct (_ =? _); [by intros [= <- <- <-]|].
    destruct (vec_load _ _) as [x| |]; [|done..]. cbn [mbind outcome_bind].
    destruct sp; cbn [compare_exchange_weak].
    + intros Hrec. by apply (IH (SPMCQueue.set_head q _)) in Hrec.
    + rewrite compare_exchange_strong_same. by intros [= <- <- <-].
Qed.

End RingIndices.

Section DequeIndices.
Context {T : Type}.
Context (nullptr : T).
Context (LogSize : Z).

Import SpmcQueue.
Implicit Types (q : SpmcQueue.t (T:=T)).

Lemma deque_try_push_indices q o :
  head_ (try_push LogSize q o).1 = head_ q ∧
  tail_ (try_push LogSize q o).1 =
    (if (try_push LogSize q o).2 then tail_ q + 1 else tail_ q).
Proof. unfold try_push. by destruct (_ >=? _). Qed.

Lemma deque_steal_indices q :
  tail_ (steal nullptr LogSize q).1 = tail_ q ∧
  (head_ (steal nullptr LogSize q).1 = head_ q ∨
   head_ (steal nullptr LogSize q).1 = head_ q + 1).
Proof.
  unfold steal. rewrite compare_exchange_strong_same.
  destruct (_ <? _); cbn; auto.
Qed.

(** [pop] restores [tail] unless it takes the item at [tail - 1] while an
    older one remains; then [tail] stays one lower. *)
Lemma deque_pop_indices q :
  (head_ (pop nullptr LogSize q).1 = head_ q ∨
   head_ (pop nullptr LogSize q).1 = head_ q + 1) ∧
  (if head_ q <? tail_ q - 1
   then tail_ (pop nullptr LogSize q).1 = tail_ q - 1 ∧
        (pop nullptr LogSize q).2 = buffer_load nullptr LogSize q (tail_ q - 1)
   else tail_ (pop nullptr LogSize q).1 = tail_ q).
Proof.
  unfold pop. cbn [set_tail head_ tail_ buffer_].
  rewrite compare_exchange_strong_same.
  destruct (Z.ltb_spec (head_ q) (tail_ q - 1)) as [Hlt|Hge].
  - rewrite (proj2 (Z.leb_le _ _)) by lia.
    rewrite (proj2 (Z.eqb_neq _ _)) by lia. cbn. split; [by left|done].
  - destruct (Z.leb_spec (head_ q) (tail_ q - 1)) as [Hle|Hgt].
    + rewrite (proj2 (Z.eqb_eq _ _)) by lia. cbn. split; [by right|lia].
    + cbn. split; [by left|lia].
Qed.

End DequeIndices.

(** C6 (amended).  In the work-stealing deque the stored [head] never
    decreases, and the stored [tail] never decreases except in [pop], which
    leaves it one lower exactly when more than one item is held (it then
    returns the newest) and restores it otherwise.  In the ring queues
    [SPSCQueue] and [SPMCQueue] of [Queue.h] the indices are stored reduced
    by the mask: a call that returns [true] replaces its index [i] by
    [(i + 1) & mask], which is 0 after [mask], and every other index is left
    as it was. *)
Theorem C6_stored_indices :
  ∀ (T : Type) (nullptr : T),
    (∀ LogSize (q : SpmcQueue.t (T:=T)) o,
       SpmcQueue.head_ (SpmcQueue.try_push LogSize q o).1 = SpmcQueue.head_ q ∧
       SpmcQueue.tail_ q ≤ SpmcQueue.tail_ (SpmcQueue.try_push LogSize q o).1) ∧
    (∀ LogSize (q : SpmcQueue.t (T:=T)),
       SpmcQueue.tail_ (SpmcQueue.steal nullptr LogSize q).1 = SpmcQueue.tail_ q ∧
       SpmcQueue.head_ q ≤ SpmcQueue.head_ (SpmcQueue.steal nullptr LogSize q).1) ∧
    (∀ LogSize (q : SpmcQueue.t (T:=T)),
       SpmcQueue.head_ q ≤ SpmcQueue.head_ (SpmcQueue.pop nullptr LogSize q).1 ∧
       (if SpmcQueue.head_ q <? SpmcQueue.tail_ q - 1
        then SpmcQueue.tail_ (SpmcQueue.pop nullptr LogSize q).1 = SpmcQueue.tail_ q - 1 ∧
             (SpmcQueue.pop nullptr LogSize q).2 =
               SpmcQueue.buffer_load nullptr LogSize q (SpmcQueue.tail_ q - 1)
        else SpmcQueue.tail_ (SpmcQueue.pop nullptr LogSize q).1 = SpmcQueue.tail_ q)) ∧
    (∀ sched (q q' : SPSCQueue.t (T:=T)) v ok,
       SPSCQueue.enqueue sched q v = Ret (q', ok) →
       SPSCQueue.head q' = SPSCQueue.head q ∧
       SPSCQueue.tail q' =
         (if ok then next_index (SPSCQueue.tail q) (SPSCQueue.mask q)
          else SPSCQueue.tail q)) ∧
    (∀ sched (q q' : SPSCQueue.t (T:=T)) r r' ok,
       SPSCQueue.dequeue sched q r = Ret (q', r', ok) →
       SPSCQueue.tail q' = SPSCQueue.tail q ∧
       SPSCQueue.head q' =
         (if ok then next_index (SPSCQueue.head q) (SPSCQueue.mask q)
          else SPSCQueue.head q)) ∧
    (∀ sched (q q' : SPMCQueue.t (T:=T)) v ok,
       SPMCQueue.enqueue sched q v = Ret (q', ok) →
       SPMCQueue.head q' = SPMCQueue.head q ∧
       SPMCQueue.tail q' =
         (if ok then next_index (SPMCQueue.tail q) (SPMCQueue.mask q)
          else SPMCQueue.tail q)) ∧
    (∀ sched (q q' : SPMCQueue.t (T:=T)) r r' ok,
       SPMCQueue.dequeue sched q r = Ret (q', r', ok) →
       SPMCQueue.tail q' = SPMCQueue.tail q ∧
       SPMCQueue.head q' =
         (if ok then next_index (SPMCQueue.head q) (SPMCQueue.mask q)
          else SPMCQueue.head q)) ∧
    (∀ C i, SizeT.pow2 C → 0 ≤ i < C →
       next_index i (C - 1) = (if i + 1 <? C then i + 1 else 0)).
Proof.
  intros T nullptr.
  split.
  { intros LogSize q o. destruct (deque_try_push_indices LogSize q o) as [Hh Ht].
    split; [done|]. rewrite Ht. case_match; lia. }
  split.
  { intros LogSize q. destruct (deque_steal_indices nullptr LogSize q) as [Ht Hh].
    split; [done|]. lia. }
  split.
  { intros LogSize q. destruct (deque_pop_indices nullptr LogSize q) as [Hh Ht].
    split; [lia|done]. }
  split; [intros *; apply spsc_enqueue_indices|].
  split; [intros *; apply spsc_dequeue_indices|].
  split; [intros *; apply spmc_enqueue_indices|].
  split; [intros *; apply spmc_dequeue_indices|].
  intros C i HC Hi. unfold next_index.
  rewrite land_wrap_mask by done. by apply mod_succ_cases.
Qed.

Lemma C6_stored_indices_witness :
  (SPSCQueue.head (SPSCQueue.Mk [7; 8] 1 0 1) = 1 ∧
   SPSCQueue.tail (SPSCQueue.Mk [7; 8] 1 0 1) =
     next_index (SPSCQueue.tail (SPSCQueue.Mk [7; 0] 1 1 1)) 1) ∧
  next_index 1 (2 - 1) = 0.
Proof.
  destruct (C6_stored_indices Z 0)
    as (_ & _ & _ & Henq & _ & _ & _ & Hnext).
  split.
  - apply (Henq [true; false] (SPSCQueue.Mk [7; 0] 1 1 1)
             (SPSCQueue.Mk [7; 8] 1 0 1) 8 true).
    reflexivity.
  - apply (Hnext 2 1).
    + exists 1. unfold SizeT.bits. split; [lia|reflexivity].
    + lia.
Defined.

(** ** C10: the string pool looks at the hash only *)

Section PoolFacts.
Context (char_signed : bool).

Import StringIntern.

(** Locking a pointer to a live object yields that object and adds an
    owner. *)
Lemma lock_alive (sp : StringIntern.t) (p : positive) (cb : control_block) :
  heap sp !! p = Some cb → (0 < use_count cb)%nat →
  lock sp p =
    (Mk (pool_ sp)
        (<[p := MkBlock (object cb) (S (use_count cb)) (deleter_hash cb)]> (heap sp)),
     Some p).
Proof.
  intros Hcb Halive. unfold lock. rewrite Hcb.
  destruct (use_count cb) eqn:Hn; [lia|done].
Qed.

End PoolFacts.

(** C10.  The pool keys its entries on the 32-bit hash alone.  When a string
    [s] is interned and alive (the entry under [fnv1a s] points to an object
    with text [s] and at least one owner) and a different text [t] has the
    same hash, [intern(t, fnv1a t)] returns the pointer to the object of [s],
    whose text is [s] and not [t], the table is left as it was, and
    [isStringIntern(t)] returns [true]. *)
Theorem C10_pool_ignores_text :
  ∀ (char_signed : bool) (sp : StringIntern.t) (s t : string)
    (p : positive) (cb : StringIntern.control_block),
    StringIntern.pool_ sp !! StringIntern.fnv1a char_signed s = Some p →
    StringIntern.heap sp !! p = Some cb →
    StringIntern.data (StringIntern.object cb) = s →
    (0 < StringIntern.use_count cb)%nat →
    t ≠ s →
    StringIntern.fnv1a char_signed t = StringIntern.fnv1a char_signed s →
    (StringIntern.intern sp t (StringIntern.fnv1a char_signed t)).2 = Some p ∧
    StringIntern.text
      (StringIntern.intern sp t (StringIntern.fnv1a char_signed t)).1 (Some p) = Some s ∧
    StringIntern.text
      (StringIntern.intern sp t (StringIntern.fnv1a char_signed t)).1 (Some p) ≠ Some t ∧
    StringIntern.pool_ (StringIntern.intern sp t (StringIntern.fnv1a char_signed t)).1
      = StringIntern.pool_ sp ∧
    (StringIntern.isStringIntern char_signed sp t).2 = true.
Proof.
  intros char_signed sp s t p cb Hpool Hheap Hdata Halive Hne Hhash.
  assert (Hintern : StringIntern.intern sp t (StringIntern.fnv1a char_signed t) =
            (StringIntern.Mk (StringIntern.pool_ sp)
               (<[p := StringIntern.MkBlock (StringIntern.object cb)
                         (S (StringIntern.use_count cb))
                         (StringIntern.deleter_hash cb)]> (StringIntern.heap sp)),
             Some p)).
  { unfold StringIntern.intern. rewrite Hhash, Hpool. by apply lock_alive. }
  assert (Htext : StringIntern.text
            (StringIntern.intern sp t (StringIntern.fnv1a char_signed t)).1 (Some p)
            = Some s).
  { rewrite Hintern. unfold StringIntern.text. cbn.
    rewrite lookup_insert_eq. cbn. by rewrite Hdata. }
  split; [by rewrite Hintern|]. split; [done|]. split.
  { rewrite Htext. intros [= ->]. done. }
  split; [by rewrite Hintern|].
  unfold StringIntern.isStringIntern, StringIntern.getStringByHash,
    StringIntern.fnv1a_runtime.
  fold (StringIntern.fnv1a char_signed t). rewrite Hhash, Hpool.
  rewrite (lock_alive sp p cb) by done. done.
Qed.

Lemma C10_pool_ignores_text_witness :
  (StringIntern.intern Examples.pool_with_liquid "costarring"
     (StringIntern.fnv1a true "costarring")).2 = Some 1%positive ∧
  StringIntern.text
    (StringIntern.intern Examples.pool_with_liquid "costarring"
       (StringIntern.fnv1a true "costarring")).1
    (Some 1%positive) = Some "liquid" ∧
  StringIntern.text
    (StringIntern.intern Examples.pool_with_liquid "costarring"
       (StringIntern.fnv1a true "costarring")).1
    (Some 1%positive) ≠ Some "costarring" ∧
  StringIntern.pool_
    (StringIntern.intern Examples.pool_with_liquid "costarring"
       (StringIntern.fnv1a true "costarring")).1
    = StringIntern.pool_ Examples.pool_with_liquid ∧
  (StringIntern.isStringIntern true Examples.pool_with_liquid "costarring").2 = true.
Proof.
  apply (C10_pool_ignores_text true Examples.pool_with_liquid "liquid" "costarring"
           1%positive
           (StringIntern.MkBlock (StringIntern.MkString "liquid") 1 1582148253)).
  - vm_compute. reflexivity.
  - vm_compute. reflexivity.
  - reflexivity.
  - simpl. lia.
  - discriminate.
  - vm_compute. reflexivity.
Defined.

(** ** C8: one owner and several thieves on the work-stealing deque *)

Lemma mod_neq_of_close N i j : 0 < j - i < N → i mod N ≠ j mod N.
Proof.
  intros Hij Heq.
  assert (Hz : (j - i) mod N = 0).
  { rewrite Zminus_mod, Heq, Z.sub_diag. apply Z.mod_0_l. lia. }
  rewrite Z.mod_small in Hz by lia. lia.
Qed.

Section DequeCells.
Context {T : Type}.
Context (nullptr : T).
Context (LogSize : Z).
Context (HL : 0 ≤ LogSize).

Import SpmcQueue.
Implicit Types (m : SpmcQueue.t (T:=T)).

Local Abbreviation N := (BufferSize_ LogSize).
Local Abbreviation load := (buffer_load nullptr LogSize).
Local Abbreviation store := (buffer_store (T:=T) LogSize).

Lemma buffer_size_pos : 0 < N.
Proof. unfold BufferSize_. rewrite Z.shiftl_1_l. by apply Z.pow_pos_nonneg. Qed.

Lemma land_buffer_mask i : Z.land i (BufferMask_ LogSize) = i mod N.
Proof.
  unfold BufferMask_, BufferSize_. rewrite Z.shiftl_1_l.
  rewrite <- Z.land_ones by done. f_equal. rewrite Z.ones_equiv. lia.
Qed.

Lemma load_store_same m i o :
  length (buffer_ m) = Z.to_nat N → load (store m i o) i = o.
Proof.
  intros Hlen. unfold buffer_load, buffer_store. cbn [buffer_].
  rewrite land_buffer_mask.
  pose proof (Z.mod_pos_bound i N buffer_size_pos).
  rewrite list_lookup_insert_eq by lia. done.
Qed.

Lemma load_store_other m i j o :
  i mod N ≠ j mod N → load (store m j o) i = load m i.
Proof.
  intros Hne. unfold buffer_load, buffer_store. cbn [buffer_].
  rewrite !land_buffer_mask.
  pose proof (Z.mod_pos_bound i N buffer_size_pos).
  pose proof (Z.mod_pos_bound j N buffer_size_pos).
  rewrite list_lookup_insert_ne by lia. done.
Qed.

Lemma set_head_same m : set_head m (head_ m) = m.
Proof. by destruct m. Qed.

End DequeCells.

Section DequeThreads.
Context {T : Type}.
Context `{EqDecision T}.
Context (nullptr : T).
Context (LogSize : Z).
Context (HL : 0 ≤ LogSize).

Import SpmcQueue SpmcThreads.
Implicit Types (m : SpmcQueue.t (T:=T)) (pc : owner (T:=T)) (th : thief (T:=T)).
Implicit Types (tr evs : list (event (T:=T))).

Local Abbreviation N := (BufferSize_ LogSize).
Local Abbreviation load := (buffer_load nullptr LogSize).
Local Abbreviation store := (buffer_store (T:=T) LogSize).
Local Abbreviation dslice := (SpmcThreads.dslice nullptr LogSize).
Local Abbreviation top := (SpmcThreads.top (T:=T)).
Local Abbreviation inflight := (SpmcThreads.inflight nullptr LogSize).
Local Abbreviation live := (SpmcThreads.live nullptr LogSize).
Local Abbreviation owner_inv := (SpmcThreads.owner_inv nullptr LogSize).
Local Abbreviation thief_inv := (SpmcThreads.thief_inv nullptr LogSize).
Local Abbreviation Inv := (SpmcThreads.Inv nullptr LogSize).

(** *** Slices of the buffer *)

Lemma dslice_cons m h n :
  dslice m h (S n) = load m h :: dslice m (h + 1) n.
Proof.
  unfold SpmcThreads.dslice. cbn [seq fmap list_fmap]. rewrite Z.add_0_r. f_equal.
  rewrite <- fmap_S_seq, <- list_fmap_compose. apply list_fmap_ext.
  intros _ i _. cbn. f_equal. lia.
Qed.

Lemma dslice_snoc m h n :
  dslice m h (S n) = dslice m h n ++ [load m (h + Z.of_nat n)].
Proof.
  unfold SpmcThreads.dslice. rewrite seq_S, fmap_app. done.
Qed.

Lemma dslice_ext m m' h n :
  (∀ i, h ≤ i < h + Z.of_nat n → load m' i = load m i) →
  dslice m' h n = dslice m h n.
Proof.
  intros Hext. unfold SpmcThreads.dslice. apply list_fmap_ext.
  intros k i Hi. apply lookup_seq in Hi as [-> Hk]. apply Hext. lia.
Qed.

(** *** Events *)

Lemma pushed_app tr evs : pushed (tr ++ evs) = pushed tr ++ pushed evs.
Proof. apply omap_app. Qed.

Lemma taken_app tr evs : taken nullptr (tr ++ evs) = taken nullptr tr ++ taken nullptr evs.
Proof. apply omap_app. Qed.

Lemma taken_pop_nonnull item :
  item ≠ nullptr → taken nullptr [PopReturned item] = [item].
Proof. intros Hne. cbn. by rewrite decide_False. Qed.

Lemma taken_steal_nonnull i item :
  item ≠ nullptr → taken nullptr [StealReturned i item] = [item].
Proof. intros Hne. cbn. by rewrite decide_False. Qed.

Lemma taken_steal_null i : taken nullptr [StealReturned i nullptr] = [].
Proof. cbn. by rewrite decide_True. Qed.

(** *** The thieves under a step of another thread *)

Lemma tail_le_top m pc : tail_ m ≤ top m pc.
Proof. destruct pc; cbn; try case_match; lia. Qed.

(** A thief's knowledge survives a step that advances [head_], or that keeps
    [head_], keeps the cell at [head_] and keeps [head_] below [top]. *)
Lemma thief_inv_step m m' tp tp' th :
  head_ m ≤ head_ m' →
  (head_ m' = head_ m → head_ m < tp →
   head_ m < tp' ∧ load m' (head_ m) = load m (head_ m)) →
  thief_inv m tp th → thief_inv m' tp' th.
Proof.
  intros Hh Hsame. destruct th as [| |hd|hd|hd item]; cbn; try done.
  - lia.
  - intros [Hle Hlt]. split; [lia|]. intros Heq.
    assert (head_ m' = head_ m) as Hm by lia.
    destruct (Hsame Hm) as [? _]; [rewrite <- Hm, <- Heq; apply Hlt; lia|]. lia.
  - intros [Hle Hlt]. split; [lia|]. intros Heq.
    assert (head_ m' = head_ m) as Hm by lia.
    destruct Hlt as [Hlt ->]; [lia|].
    destruct (Hsame Hm) as [? Hload]; [lia|].
    split; [lia|]. rewrite Heq, Hm. done.
Qed.

Lemma thieves_inv_step m m' tp tp' (ths : list thief) :
  head_ m ≤ head_ m' →
  (head_ m' = head_ m → head_ m < tp →
   head_ m < tp' ∧ load m' (head_ m) = load m (head_ m)) →
  Forall (thief_inv m tp) ths → Forall (thief_inv m' tp') ths.
Proof.
  intros Hh Hsame Hths. eapply Forall_impl; [exact Hths|].
  intros th. by apply thief_inv_step.
Qed.

(** Every item accounted for is a handle that was pushed, hence not null. *)
Lemma accounted_nonnull tr (l1 l2 l3 : list T) x :
  pushed tr ≡ₚ l1 ++ l2 ++ l3 → nullptr ∉ pushed tr → x ∈ l2 ++ l3 → x ≠ nullptr.
Proof.
  intros Hacc Hnn Hx ->. apply Hnn. rewrite Hacc. apply elem_of_app. by right.
Qed.

Local Ltac fin := first [done | cbn; first [done | lia]].

(** *** Steps of the owner *)

Lemma owner_step_inv m pc ths tr m' pc' evs :
  Inv (State m pc ths tr) →
  owner_step nullptr LogSize m pc = Some (m', pc', evs) →
  Inv (State m' pc' ths (tr ++ evs)).
Proof.
  intros [Hlen Hb Hacc Hnn Ho Hth] Hstep. cbn [mem own thieves trace] in *.
  pose proof (buffer_size_pos LogSize HL) as HN.
  destruct pc as [|o|o tl|o tl|o tl| |tl|tl|tl hd|tl hd item|tl item];
    cbn [owner_step] in Hstep.
  - done.
  - (* try_push: tail_.load *)
    injection Hstep as <- <- <-. rewrite app_nil_r.
    constructor; cbn [mem own thieves trace]; fin.
  - (* try_push: head_.load and the full test *)
    destruct Ho as [Hnull ->].
    destruct (Z.geb_spec (tail_ m - head_ m) (N - 1)) as [Hfull|Hroom];
      injection Hstep as <- <- <-.
    + constructor; cbn [mem own thieves trace];
        [fin|fin| |by rewrite pushed_app, app_nil_r|fin|fin].
      by rewrite taken_app, pushed_app, !app_nil_r.
    + rewrite app_nil_r.
      constructor; cbn [mem own thieves trace]; [fin|fin|fin|fin| |fin].
      cbn. split; [done|]. split; [done|]. lia.
  - (* try_push: the store into the buffer *)
    destruct Ho as (Hnull & -> & Hroom).
    injection Hstep as <- <- <-. rewrite app_nil_r.
    cbn in Hb.
    assert (Hkeep : ∀ i, head_ m ≤ i < tail_ m → load (store m (tail_ m) o) i = load m i).
    { intros i Hi. apply load_store_other; [done|]. apply mod_neq_of_close. lia. }
    constructor; cbn [mem own thieves trace]; [|fin| |fin| |].
    + cbn. by rewrite length_insert.
    + rewrite Hacc. cbn. do 1 f_equiv. unfold SpmcThreads.live. cbn.
      symmetry. apply Permutation_refl'. apply dslice_ext. intros i Hi. apply Hkeep. lia.
    + cbn. split; [done|]. split; [done|]. split; [done|]. by apply load_store_same.
    + eapply thieves_inv_step; [| |exact Hth]; cbn; [lia|].
      intros _ Hlt. split; [done|]. apply Hkeep. lia.
  - (* try_push: tail_.store and return *)
    destruct Ho as (Hnull & -> & Hroom & Hcell).
    injection Hstep as <- <- <-. cbn in Hb.
    constructor; cbn [mem own thieves trace]; [fin| | | |fin|].
    + cbn. lia.
    + rewrite pushed_app, taken_app, app_nil_r. cbn [pushed omap].
      rewrite Hacc. cbn. unfold SpmcThreads.live. cbn.
      replace (Z.to_nat (tail_ m + 1 - head_ m)) with (S (Z.to_nat (tail_ m - head_ m))) by lia.
      rewrite dslice_snoc. rewrite Z2Nat.id by lia.
      replace (head_ m + (tail_ m - head_ m)) with (tail_ m) by lia.
      change (load (set_tail m (tail_ m + 1)) (tail_ m)) with (load m (tail_ m)).
      rewrite Hcell. rewrite !app_assoc. reflexivity.
    + rewrite pushed_app. cbn. rewrite elem_of_app, list_elem_of_singleton.
      intros [?|?]; [done|]. by apply Hnull.
    + eapply thieves_inv_step; [| |exact Hth]; cbn; [lia|].
      intros _ Hlt. split; [lia|done].
  - (* pop: tail_.load *)
    injection Hstep as <- <- <-. rewrite app_nil_r.
    constructor; cbn [mem own thieves trace]; fin.
  - (* pop: tail_.store(tail) *)
    cbn in Ho. subst tl.
    injection Hstep as <- <- <-. rewrite app_nil_r. cbn in Hb.
    constructor; cbn [mem own thieves trace]; [fin| | |fin|fin|].
    + cbn. lia.
    + rewrite Hacc. cbn. unfold SpmcThreads.live. cbn.
      replace (tail_ m - 1 + 1 - head_ m) with (tail_ m - head_ m) by lia. done.
    + cbn. eapply thieves_inv_step; [| |exact Hth]; cbn; [lia|].
      intros _ Hlt. split; [lia|done].
  - (* pop: head_.load and the test head <= tail *)
    cbn in Ho. subst tl. cbn in Hb.
    destruct (Z.leb_spec (head_ m) (tail_ m)) as [Hle|Hgt];
      injection Hstep as <- <- <-; rewrite app_nil_r.
    + destruct (Z.ltb_spec (head_ m) (tail_ m)) as [Hlt|Hge].
      * (* more than one item: the owner claims the newest *)
        constructor; cbn [mem own thieves trace]; [fin| | |fin| |].
        -- cbn. rewrite (proj2 (Z.ltb_lt _ _) Hlt). lia.
        -- rewrite Hacc. cbn. unfold SpmcThreads.live. cbn.
           rewrite (proj2 (Z.ltb_lt _ _) Hlt).
           replace (Z.to_nat (tail_ m + 1 - head_ m))
             with (S (Z.to_nat (tail_ m - head_ m))) by lia.
           rewrite dslice_snoc. rewrite Z2Nat.id by lia.
           replace (head_ m + (tail_ m - head_ m)) with (tail_ m) by lia.
           f_equiv. cbn. symmetry. apply Permutation_cons_append.
        -- cbn. lia.
        -- cbn. rewrite (proj2 (Z.ltb_lt _ _) Hlt).
           eapply thieves_inv_step; [| |exact Hth]; cbn; [lia|].
           intros _ _. split; [lia|done].
      * constructor; cbn [mem own thieves trace]; [fin| | |fin| |].
        -- cbn. rewrite (proj2 (Z.ltb_ge _ _)) by lia. lia.
        -- rewrite Hacc. cbn. unfold SpmcThreads.live. cbn.
           rewrite (proj2 (Z.ltb_ge _ _)) by lia. done.
        -- cbn. lia.
        -- cbn. rewrite (proj2 (Z.ltb_ge _ _)) by lia. done.
    + constructor; cbn [mem own thieves trace]; [fin|fin| |fin| |fin].
      * rewrite Hacc. cbn. rewrite decide_True by done. done.
      * cbn. lia.
  - (* pop: the load from the buffer and the test head == tail *)
    destruct Ho as (-> & Hle & Hhd).
    destruct (Z.eqb_spec hd (tail_ m)) as [->|Hne];
      injection Hstep as <- <- <-.
    + rewrite app_nil_r. cbn in Hb, Hacc, Hth.
      rewrite Z.ltb_irrefl in Hb, Hacc, Hth.
      constructor; cbn [mem own thieves trace]; [fin|fin| |fin| |fin].
      * unfold SpmcThreads.live in Hacc |- *. cbn in Hacc |- *.
        rewrite Z.ltb_irrefl in Hacc. exact Hacc.
      * cbn. repeat split; try done; lia.
    + assert (Hlt : hd < tail_ m) by lia.
      cbn in Hb, Hacc, Hth. rewrite (proj2 (Z.ltb_lt _ _) Hlt) in Hb, Hacc, Hth.
      assert (Hitem : load m (tail_ m) ≠ nullptr).
      { eapply accounted_nonnull; [exact Hacc|done|]. apply elem_of_app. left.
        apply list_elem_of_singleton. done. }
      constructor; cbn [mem own thieves trace]; [fin|fin| | |fin|fin].
      * rewrite pushed_app, taken_app, app_nil_r. rewrite taken_pop_nonnull by done.
        rewrite Hacc. cbn. unfold SpmcThreads.live. cbn.
        rewrite (proj2 (Z.ltb_lt _ _) Hlt). by rewrite <- app_assoc.
      * by rewrite pushed_app, app_nil_r.
  - (* pop: the compare-exchange on head_ *)
    destruct Ho as (-> & -> & Hhd & Hitem). cbn in Hb, Hacc, Hth.
    unfold compare_exchange_strong in Hstep.
    destruct (Z.eqb_spec (head_ m) (tail_ m)) as [Heq|Hne];
      injection Hstep as <- <- <-; rewrite app_nil_r.
    + (* the owner wins the last item *)
      specialize (Hitem Heq). unfold SpmcThreads.live in Hacc. cbn in Hacc.
      rewrite Heq in Hacc.
      replace (Z.to_nat (tail_ m + 1 - tail_ m)) with 1%nat in Hacc by lia.
      rewrite dslice_cons in Hacc. cbn in Hacc. rewrite <- Hitem in Hacc.
      assert (Hnz : item ≠ nullptr).
      { apply (accounted_nonnull tr (taken nullptr tr) [] [item]); [exact Hacc|done|].
        by apply list_elem_of_singleton. }
      constructor; cbn [mem own thieves trace]; [fin| | |fin| |].
      * cbn. lia.
      * rewrite Hacc. cbn. rewrite decide_False by done.
        unfold SpmcThreads.live. cbn.
        replace (Z.to_nat (tail_ m + 1 - (tail_ m + 1))) with 0%nat by lia. done.
      * cbn. split; [done|]. lia.
      * eapply thieves_inv_step; [| |exact Hth]; cbn; [lia|]. intros ?. lia.
    + (* a thief was faster *)
      rewrite set_head_same.
      constructor; cbn [mem own thieves trace]; [fin|fin| |fin| |fin].
      * rewrite Hacc. cbn. rewrite decide_True by done. done.
      * cbn. split; [done|]. lia.
  - (* pop: tail_.store(tail + 1) and return *)
    destruct Ho as (-> & Hh). injection Hstep as <- <- <-.
    cbn in Hb, Hacc, Hth.
    constructor; cbn [mem own thieves trace]; [fin|fin| | |fin|].
    + rewrite pushed_app, taken_app, app_nil_r. rewrite Hacc.
      unfold SpmcThreads.live. cbn. rewrite <- !app_assoc. f_equiv.
      destruct (decide (item = nullptr)) as [->|Hnz]; reflexivity.
    + by rewrite pushed_app, app_nil_r.
    + eapply thieves_inv_step; [| |exact Hth]; cbn; [lia|].
      intros _ Hlt. split; [lia|done].
Qed.

(** *** Steps of a thief *)

Lemma top_set_head m x pc : top (set_head m x) pc = top m pc.
Proof. by destruct pc. Qed.

Lemma inflight_set_head m x pc : inflight (set_head m x) pc = inflight m pc.
Proof. by destruct pc. Qed.

(** The owner's knowledge survives a successful compare-exchange of a
    thief. *)
Lemma owner_inv_head_advance m pc :
  owner_inv m pc → head_ m < top m pc →
  owner_inv (set_head m (head_ m + 1)) pc.
Proof.
  destruct pc as [|o|o tl|o tl|o tl| |tl|tl|tl hd|tl hd item|tl item];
    cbn; try done.
  - intros (? & ? & ?) _. repeat split; try done; lia.
  - intros (? & ? & ? & ?) _. repeat split; try done; lia.
  - intros (? & ? & ?) _. repeat split; try done; lia.
  - intros (? & ? & ? & ?) _. repeat split; try done; lia.
  - intros (? & ?) ?. lia.
Qed.

Lemma thief_step_inv i m pc ths tr th m' th' evs :
  Inv (State m pc ths tr) → ths !! i = Some th →
  thief_step nullptr LogSize i m th = Some (m', th', evs) →
  Inv (State m' pc (<[i := th']> ths) (tr ++ evs)).
Proof.
  intros [Hlen Hb Hacc Hnn Ho Hth] Hi Hstep. cbn [mem own thieves trace] in *.
  pose proof (buffer_size_pos LogSize HL) as HN.
  pose proof (Forall_lookup_1 _ _ _ _ Hth Hi) as Hme.
  destruct th as [| |hd|hd|hd item]; cbn [thief_step] in Hstep.
  - done.
  - (* head_.load *)
    injection Hstep as <- <- <-. rewrite app_nil_r.
    constructor; cbn [mem own thieves trace]; [done|done|done|done|done|].
    apply Forall_insert; [done|]. cbn. lia.
  - (* tail_.load and the test head < tail *)
    cbn in Hme. pose proof (tail_le_top m pc) as Htop.
    destruct (Z.ltb_spec hd (tail_ m)) as [Hlt|Hge]; injection Hstep as <- <- <-.
    + rewrite app_nil_r.
      constructor; cbn [mem own thieves trace]; [done|done|done|done|done|].
      apply Forall_insert; [done|]. cbn. split; [done|]. lia.
    + constructor; cbn [mem own thieves trace]; [done|done| | |done|].
      * by rewrite pushed_app, taken_app, taken_steal_null, !app_nil_r.
      * by rewrite pushed_app, app_nil_r.
      * by apply Forall_insert.
  - (* the load from the buffer *)
    destruct Hme as [Hle Hlt].
    injection Hstep as <- <- <-. rewrite app_nil_r.
    constructor; cbn [mem own thieves trace]; [done|done|done|done|done|].
    apply Forall_insert; [done|]. cbn. split; [done|]. intros Heq. split; [|done].
    by apply Hlt.
  - (* the compare-exchange on head_ *)
    destruct Hme as [Hle Hfact].
    unfold compare_exchange_strong in Hstep.
    destruct (Z.eqb_spec (head_ m) hd) as [Heq|Hne]; injection Hstep as <- <- <-.
    + (* the thief takes the oldest item *)
      subst hd. destruct Hfact as [Hlt ->]; [done|].
      assert (Hlive : live m pc =
                load m (head_ m) ::
                dslice m (head_ m + 1) (Z.to_nat (top m pc - (head_ m + 1)))).
      { unfold SpmcThreads.live.
        replace (Z.to_nat (top m pc - head_ m))
          with (S (Z.to_nat (top m pc - (head_ m + 1)))) by lia.
        apply dslice_cons. }
      assert (Hnz : load m (head_ m) ≠ nullptr).
      { eapply accounted_nonnull; [exact Hacc|done|]. apply elem_of_app. right.
        rewrite Hlive. apply list_elem_of_here. }
      constructor; cbn [mem own thieves trace].
      * done.
      * rewrite top_set_head. cbn. lia.
      * rewrite pushed_app, taken_app, app_nil_r, taken_steal_nonnull by done.
        rewrite Hacc, Hlive, inflight_set_head.
        unfold SpmcThreads.live. rewrite top_set_head. cbn [head_ set_head].
        rewrite <- app_assoc. f_equiv. cbn [app].
        rewrite <- Permutation_middle. done.
      * by rewrite pushed_app, app_nil_r.
      * by apply owner_inv_head_advance.
      * apply Forall_insert; [|done]. rewrite top_set_head.
        eapply thieves_inv_step; [| |exact Hth]; cbn; [lia|]. intros ?. lia.
    + (* another thread was faster *)
      rewrite set_head_same.
      constructor; cbn [mem own thieves trace]; [done|done| | |done|].
      * by rewrite pushed_app, taken_app, taken_steal_null, !app_nil_r.
      * by rewrite pushed_app, app_nil_r.
      * by apply Forall_insert.
Qed.

(** *** Interleavings *)

Lemma init_inv K : Inv (init nullptr LogSize K).
Proof.
  pose proof (buffer_size_pos LogSize HL) as HN.
  constructor; cbn.
  - by rewrite length_replicate.
  - lia.
  - done.
  - apply not_elem_of_nil.
  - done.
  - by apply Forall_replicate.
Qed.

Lemma exec_inv a s s' : Inv s → exec nullptr LogSize a s = Some s' → Inv s'.
Proof.
  intros HI Hexec. destruct s as [m pc ths tr].
  destruct a as [o| | |i|i]; cbn [exec mem own thieves trace] in Hexec.
  - destruct pc; try done. destruct (decide (o = nullptr)) as [|Hnz]; [done|].
    injection Hexec as <-. destruct HI as [Hlen Hb Hacc Hnn Ho Hth].
    by constructor.
  - destruct pc; try done. injection Hexec as <-.
    destruct HI as [Hlen Hb Hacc Hnn Ho Hth]. by constructor.
  - destruct (owner_step nullptr LogSize m pc) as [[[m' pc'] evs]|] eqn:Hstep; [|done].
    injection Hexec as <-. by eapply owner_step_inv.
  - destruct (ths !! i) as [[| | | |]|] eqn:Hi; try done.
    injection Hexec as <-. destruct HI as [Hlen Hb Hacc Hnn Ho Hth].
    constructor; cbn [mem own thieves trace] in *; try done.
    by apply Forall_insert.
  - destruct (ths !! i) as [th|] eqn:Hi; [|done].
    destruct (thief_step nullptr LogSize i m th) as [[[m' th'] evs]|] eqn:Hstep; [|done].
    injection Hexec as <-. by eapply thief_step_inv.
Qed.

Lemma run_inv acts s s' : Inv s → run nullptr LogSize acts s = Some s' → Inv s'.
Proof.
  revert s. induction acts as [|a acts IH]; intros s HI Hrun; cbn [run] in Hrun.
  - by injection Hrun as <-.
  - destruct (exec nullptr LogSize a s) as [s1|] eqn:Hexec; [|done].
    eapply IH; [|done]. by eapply exec_inv.
Qed.

Lemma taken_length tr :
  length (taken nullptr tr) = (length (popped nullptr tr) + length (stolen nullptr tr))%nat.
Proof.
  induction tr as [|e tr IH]; [done|].
  change (e :: tr) with ([e] ++ tr).
  unfold taken, popped, stolen in *. rewrite !omap_app, !length_app, IH.
  destruct e as [o ok|item|i item]; cbn; try done;
    destruct (decide (item = nullptr)); cbn; lia.
Qed.

(** *** The counters stay small

    One action moves [head_] up by at most one and [tail_] by at most one in
    either direction, so in an interleaving of [n] actions [head_] lies in
    [0, n] and [tail_] in [-1, n]: the [int64_t] counters cannot overflow in
    any execution of fewer than 2^63 - 1 actions. *)

Lemma exec_counters a s s' :
  Inv s → exec nullptr LogSize a s = Some s' →
  head_ (mem s) ≤ head_ (mem s') ≤ head_ (mem s) + 1 ∧
  tail_ (mem s) - 1 ≤ tail_ (mem s') ≤ tail_ (mem s) + 1.
Proof.
  intros [_ _ _ _ Ho _] Hexec. destruct s as [m pc ths tr].
  cbn [mem own thieves trace] in *.
  destruct a as [o| | |i|i]; cbn [exec mem own thieves trace] in Hexec.
  - destruct pc; try done. destruct (decide (o = nullptr)); [done|].
    injection Hexec as <-. cbn. lia.
  - destruct pc; try done. injection Hexec as <-. cbn. lia.
  - destruct pc as [|o|o tl|o tl|o tl| |tl|tl|tl hd|tl hd item|tl item];
      cbn in Hexec, Ho; try done.
    + injection Hexec as <-. cbn. lia.
    + destruct (_ >=? _); injection Hexec as <-; cbn; lia.
    + injection Hexec as <-. cbn. lia.
    + destruct Ho as (_ & -> & _). injection Hexec as <-. cbn. lia.
    + injection Hexec as <-. cbn. lia.
    + subst tl. injection Hexec as <-. cbn. lia.
    + destruct (_ <=? _); injection Hexec as <-; cbn; lia.
    + destruct (_ =? _); injection Hexec as <-; cbn; lia.
    + destruct Ho as (-> & _). unfold compare_exchange_strong in Hexec.
      destruct (Z.eqb_spec (head_ m) hd); injection Hexec as <-; cbn; lia.
    + destruct Ho as (-> & _). injection Hexec as <-. cbn. lia.
  - destruct (ths !! i) as [[| | | |]|]; try done. injection Hexec as <-. cbn. lia.
  - destruct (ths !! i) as [[| |hd|hd|hd item]|]; cbn in Hexec; try done.
    + injection Hexec as <-. cbn. lia.
    + destruct (_ <? _); injection Hexec as <-; cbn; lia.
    + injection Hexec as <-. cbn. lia.
    + unfold compare_exchange_strong in Hexec.
      destruct (Z.eqb_spec (head_ m) hd); injection Hexec as <-; cbn; lia.
Qed.

Lemma run_counters acts K s :
  run nullptr LogSize acts (init nullptr LogSize K) = Some s →
  0 ≤ head_ (mem s) ≤ Z.of_nat (length acts) ∧
  -1 ≤ tail_ (mem s) ≤ Z.of_nat (length acts).
Proof.
  intros Hrun.
  assert (Hgen : ∀ acts s0 s, Inv s0 → run nullptr LogSize acts s0 = Some s →
            head_ (mem s0) ≤ head_ (mem s) ≤ head_ (mem s0) + Z.of_nat (length acts) ∧
            tail_ (mem s) ≤ tail_ (mem s0) + Z.of_nat (length acts)).
  { clear Hrun s acts. intros acts. induction acts as [|a acts IH]; intros s0 s HI Hrun;
      cbn [run] in Hrun.
    - injection Hrun as <-. cbn. lia.
    - destruct (exec nullptr LogSize a s0) as [s1|] eqn:Hexec; [|done].
      pose proof (exec_counters a s0 s1 HI Hexec).
      pose proof (IH s1 s (exec_inv a s0 s1 HI Hexec) Hrun).
      cbn [length]. lia. }
  pose proof (init_inv K) as HI0.
  destruct (Hgen acts _ s HI0 Hrun) as [Hh Ht]. cbn in Hh, Ht.
  pose proof (run_inv acts _ s HI0 Hrun) as [_ Hb _ _ _ _].
  pose proof (tail_le_top (mem s) (own s)) as Htop.
  assert (top (mem s) (own s) ≤ tail_ (mem s) + 1)
    by (destruct (own s); cbn; try case_match; lia).
  lia.
Qed.

(** In a drained state nothing is held and nothing is claimed. *)
Lemma drained_account s :
  Inv s → quiescent s → SpmcQueue.empty (mem s) = true →
  pushed (trace s) ≡ₚ taken nullptr (trace s).
Proof.
  intros [Hlen Hb Hacc Hnn Ho Hth] [Hown _] Hempty.
  destruct s as [m pc ths tr]. cbn [mem own thieves trace] in *. subst pc.
  unfold SpmcQueue.empty in Hempty. apply Z.leb_le in Hempty. cbn in Hb.
  rewrite Hacc. unfold SpmcThreads.live. cbn.
  replace (Z.to_nat (tail_ m - head_ m)) with 0%nat by lia.
  cbn. by rewrite app_nil_r.
Qed.

End DequeThreads.

(** *** A thread running alone performs the sequential call

    The accesses of one call, performed without any step of another thread
    in between, compute what [SpmcQueue::try_push], [pop] and [steal]
    compute. *)

Section DequeAlone.
Context {T : Type}.
Context `{EqDecision T}.
Context (nullptr : T).
Context (LogSize : Z).

Import SpmcQueue SpmcThreads.

Lemma owner_alone_try_push (m : SpmcQueue.t (T:=T)) o ths tr :
  o ≠ nullptr →
  ∃ n, run nullptr LogSize (OwnerPush o :: replicate n OwnerStep) (State m OIdle ths tr)
       = Some (State (try_push LogSize m o).1 OIdle ths
                 (tr ++ [PushReturned o (try_push LogSize m o).2])).
Proof.
  intros Hnz. destruct m as [h t b]. unfold try_push. cbn [head_ tail_].
  destruct (t - h >=? BufferSize_ LogSize - 1) eqn:Hfull.
  - exists 2%nat. cbn. rewrite decide_False by done.
    repeat (progress (cbn; rewrite ?Hfull, ?app_nil_r)). done.
  - exists 4%nat. cbn. rewrite decide_False by done.
    repeat (progress (cbn; rewrite ?Hfull, ?app_nil_r)). done.
Qed.

Lemma owner_alone_pop (m : SpmcQueue.t (T:=T)) ths tr :
  ∃ n, run nullptr LogSize (OwnerPop :: replicate n OwnerStep) (State m OIdle ths tr)
       = Some (State (pop nullptr LogSize m).1 OIdle ths
                 (tr ++ [PopReturned (pop nullptr LogSize m).2])).
Proof.
  destruct m as [h t b]. unfold pop. cbn [head_ tail_ set_tail buffer_].
  rewrite compare_exchange_strong_same.
  destruct (h <=? t - 1) eqn:Hle.
  - destruct (h =? t - 1) eqn:Heq.
    + exists 6%nat.
      repeat (progress (cbn; rewrite ?Hle, ?Heq, ?compare_exchange_strong_same,
                          ?app_nil_r)).
      done.
    + exists 4%nat.
      repeat (progress (cbn; rewrite ?Hle, ?Heq, ?app_nil_r)). done.
  - exists 4%nat.
    repeat (progress (cbn; rewrite ?Hle, ?app_nil_r)). done.
Qed.

Lemma thief_alone_steal (m : SpmcQueue.t (T:=T)) pc ths tr i :
  ths !! i = Some TIdle →
  ∃ n, run nullptr LogSize (ThiefSteal i :: replicate n (ThiefStep i)) (State m pc ths tr)
       = Some (State (steal nullptr LogSize m).1 pc ths
                 (tr ++ [StealReturned i (steal nullptr LogSize m).2])).
Proof.
  intros Hi. destruct m as [h t b]. unfold steal. cbn [head_ tail_ set_tail buffer_].
  assert (Hlen : (i < length ths)%nat) by (by eapply lookup_lt_Some).
  rewrite compare_exchange_strong_same.
  destruct (h <? t) eqn:Hlt.
  - exists 4%nat. cbn. rewrite Hi.
    repeat (progress (cbn; rewrite ?Hlt, ?compare_exchange_strong_same, ?app_nil_r,
                        ?list_insert_insert_eq;
                      rewrite ?list_lookup_insert_eq by done)).
    by rewrite list_insert_id.
  - exists 2%nat. cbn. rewrite Hi.
    repeat (progress (cbn; rewrite ?Hlt, ?app_nil_r, ?list_insert_insert_eq;
                      rewrite ?list_lookup_insert_eq by done)).
    by rewrite list_insert_id.
Qed.

End DequeAlone.

(** C8.  One owner calling [try_push] (with non-null handles) and [pop], and
    [K] thieves calling [steal], their accesses to [head_], [tail_] and the
    buffer interleaved in any way.  At every point of every interleaving the
    handles returned by the successful pops and steals are, counted with
    multiplicity, among the handles of the successful pushes: a handle
    pushed once is returned at most once.  When no call is in progress and
    the deque is empty, the handles returned are exactly the handles
    pushed, and the number of successful pops plus the number of successful
    steals equals the number of successful pushes. *)
Theorem C8_deque_interleavings :
  ∀ (T : Type) (EqT : EqDecision T) (nullptr : T) (LogSize : Z) (K : nat)
    (acts : list SpmcThreads.action) (s : SpmcThreads.state),
    0 ≤ LogSize →
    SpmcThreads.run nullptr LogSize acts (SpmcThreads.init nullptr LogSize K) = Some s →
    SpmcThreads.taken nullptr (SpmcThreads.trace s)
      ⊆+ SpmcThreads.pushed (SpmcThreads.trace s) ∧
    (NoDup (SpmcThreads.pushed (SpmcThreads.trace s)) →
     NoDup (SpmcThreads.taken nullptr (SpmcThreads.trace s))) ∧
    (SpmcThreads.quiescent s → SpmcQueue.empty (SpmcThreads.mem s) = true →
     SpmcThreads.taken nullptr (SpmcThreads.trace s)
       ≡ₚ SpmcThreads.pushed (SpmcThreads.trace s) ∧
     (length (SpmcThreads.popped nullptr (SpmcThreads.trace s)) +
      length (SpmcThreads.stolen nullptr (SpmcThreads.trace s)))%nat =
     length (SpmcThreads.pushed (SpmcThreads.trace s))).
Proof.
  intros T EqT nullptr LogSize K acts s HL Hrun.
  assert (HI : SpmcThreads.Inv nullptr LogSize s).
  { eapply run_inv; [done| |exact Hrun]. by apply init_inv. }
  pose proof (SpmcThreads.inv_account _ _ _ HI) as Hacc.
  split; [|split].
  - rewrite Hacc. by apply submseteq_inserts_r.
  - intros Hnd. rewrite Hacc in Hnd. by apply NoDup_app in Hnd as [? _].
  - intros Hq Hempty.
    pose proof (drained_account nullptr LogSize s HI Hq Hempty) as Hdrained.
    split; [done|]. rewrite <- taken_length. by rewrite Hdrained.
Qed.

Lemma C8_deque_interleavings_witness :
  SpmcThreads.run 0 2 Examples.race (SpmcThreads.init 0 2 2) = Some Examples.race_end ∧
  [12; 11] ⊆+ [11; 12] ∧
  [12; 11] ≡ₚ [11; 12] ∧
  (1 + 1)%nat = 2%nat.
Proof.
  assert (Hrun : SpmcThreads.run 0 2 Examples.race (SpmcThreads.init 0 2 2)
                 = Some Examples.race_end)
    by (vm_compute; reflexivity).
  split; [exact Hrun|].
  destruct (C8_deque_interleavings Z _ 0 2 2 Examples.race Examples.race_end)
    as (Hsub & _ & Hdrained); [lia|exact Hrun|].
  split; [exact Hsub|].
  apply Hdrained.
  - split; [reflexivity|]. repeat constructor.
  - reflexivity.
Defined.

(** * Further properties *)

(** ** [Queue.h]: construction, observers and failing calls *)

Section SPSCReach.
Context {T : Type}.
Context (T0 : T).
Context (C : Z).
Context (HC : SizeT.pow2 C).

Import SPSCQueue SPSCProgram.

(** What holds of every object a single-threaded program reaches from the
    constructor. *)
Lemma spsc_run_reach ops q0 r0 q r evs :
  Forall fair_op ops → SPSCQueue.new T0 C = Built q0 →
  run ops q0 r0 = Ret (q, r, evs) →
  SPSCProgram.wf C q ∧
  enqueued evs = dequeued evs ++ SPSCProgram.contents T0 C q.
Proof.
  intros Hops Hnew Hrun.
  destruct (spsc_new_wf T0 C HC q0 Hnew) as (Hwf & Hh & Ht).
  destruct (spsc_run_fifo T0 C HC ops q0 r0 Hwf Hops)
    as (q' & r' & evs' & Hrun' & Hwfq & Hfifo).
  rewrite Hrun in Hrun'. injection Hrun' as <- <- <-.
  split; [done|].
  assert (Hnil : SPSCProgram.contents T0 C q0 = []).
  { unfold SPSCProgram.contents, SPSCProgram.count. rewrite Hh, Ht.
    rewrite Z.sub_diag, Z.mod_0_l by (apply pow2_range in HC; lia). done. }
  pose proof (fifo_order C ops (SPSCProgram.contents T0 C q0) r0) as Hord.
  rewrite Hfifo, Hnil in Hord. exact Hord.
Qed.

End SPSCReach.

(** X1.  The constructors of [SPSCQueue] and [SPMCQueue] for a slot count
    [0 < Capacity < 2^64].  When [Capacity] is not a power of two they throw
    [std::invalid_argument].  When it is a power of two the check passes and
    [data.resize(Capacity)] decides: above [max_size()] the constructor
    leaves with [std::length_error], when the allocation fails with
    [std::bad_alloc], and otherwise it builds a queue of [Capacity]
    value-initialised slots with [head = tail = 0] and
    [mask = Capacity - 1], the object that [new] describes. *)
Theorem X1_queue_constructor :
  ∀ (T : Type) (T0 : T) (max_size : Z) (allocates : Z → bool) (C : Z),
    0 < C < SizeT.modulus →
    (¬ SizeT.pow2 C →
     SPSCQueue.constructor T0 max_size allocates C = SPSCQueue.threw_invalid_argument ∧
     SPMCQueue.constructor T0 max_size allocates C = SPMCQueue.threw_invalid_argument) ∧
    (SizeT.pow2 C → max_size < C →
     SPSCQueue.constructor T0 max_size allocates C = SPSCQueue.resize_threw length_error ∧
     SPMCQueue.constructor T0 max_size allocates C = SPMCQueue.resize_threw length_error) ∧
    (SizeT.pow2 C → C ≤ max_size → allocates C = false →
     SPSCQueue.constructor T0 max_size allocates C = SPSCQueue.resize_threw bad_alloc ∧
     SPMCQueue.constructor T0 max_size allocates C = SPMCQueue.resize_threw bad_alloc) ∧
    (SizeT.pow2 C → C ≤ max_size → allocates C = true →
     SPSCQueue.constructor T0 max_size allocates C =
       SPSCQueue.Constructed (SPSCQueue.Mk (replicate (Z.to_nat C) T0) 0 0 (C - 1)) ∧
     SPSCQueue.new T0 C =
       SPSCQueue.Built (SPSCQueue.Mk (replicate (Z.to_nat C) T0) 0 0 (C - 1)) ∧
     SPMCQueue.constructor T0 max_size allocates C =
       SPMCQueue.Constructed (SPMCQueue.Mk (replicate (Z.to_nat C) T0) 0 0 (C - 1)) ∧
     SPMCQueue.new T0 C =
       SPMCQueue.Built (SPMCQueue.Mk (replicate (Z.to_nat C) T0) 0 0 (C - 1))).
Proof.
  intros T T0 max_size allocates C HC.
  assert (Hcheck : SizeT.pow2 C → (Z.land C (SizeT.wrap (C - 1)) =? 0) = true).
  { intros HP. rewrite wrap_mask, land_mask_mod by done.
    rewrite Z.mod_same by lia. done. }
  split; [|split; [|split]].
  - intros HP.
    pose proof (spsc_new_rejects T0 C HC HP) as H1.
    pose proof (spmc_new_rejects T0 C HC HP) as H2.
    unfold SPSCQueue.new in H1. unfold SPMCQueue.new in H2.
    unfold SPSCQueue.constructor, SPMCQueue.constructor.
    destruct (Z.land C (SizeT.wrap (C - 1)) =? 0); [discriminate H1|done].
  - intros HP Hmax.
    unfold SPSCQueue.constructor, SPMCQueue.constructor, vec_sized.
    rewrite (Hcheck HP). cbn [negb].
    by rewrite (proj2 (Z.ltb_lt max_size C)) by done.
  - intros HP Hmax Ha.
    unfold SPSCQueue.constructor, SPMCQueue.constructor, vec_sized.
    rewrite (Hcheck HP), Ha. cbn [negb].
    rewrite (proj2 (Z.ltb_ge max_size C)) by done.
    by rewrite (proj2 (Z.ltb_lt 0 C)) by lia.
  - intros HP Hmax Ha.
    unfold SPSCQueue.constructor, SPMCQueue.constructor, vec_sized,
      SPSCQueue.new, SPMCQueue.new.
    rewrite (Hcheck HP), Ha. cbn [negb].
    rewrite (proj2 (Z.ltb_ge max_size C)) by done.
    rewrite andb_false_r, wrap_mask by done. done.
Qed.

Lemma X1_queue_constructor_witness :
  (SPSCQueue.constructor 0 1024 (λ n, n <=? 64) 16 =
     SPSCQueue.Constructed (SPSCQueue.Mk (replicate 16 0) 0 0 15) ∧
   SPMCQueue.constructor 0 1024 (λ n, n <=? 64) 16 =
     SPMCQueue.Constructed (SPMCQueue.Mk (replicate 16 0) 0 0 15)) ∧
  SPSCQueue.constructor 0 1024 (λ n, n <=? 64) 12 = SPSCQueue.threw_invalid_argument ∧
  SPSCQueue.constructor 0 1024 (λ n, n <=? 64) 2048 =
    SPSCQueue.resize_threw length_error ∧
  SPSCQueue.constructor 0 1024 (λ n, n <=? 64) 128 = SPSCQueue.resize_threw bad_alloc.
Proof.
  assert (Hp : ∀ k, 0 ≤ k < 64 → SizeT.pow2 (2 ^ k)) by (intros k Hk; by exists k).
  assert (Hm : ∀ C, 0 < C < 4096 → 0 < C < SizeT.modulus)
    by (intros C HC; rewrite modulus_eq; lia).
  split; [|split; [|split]].
  - destruct (X1_queue_constructor Z 0 1024 (λ n, n <=? 64) 16 (Hm 16 ltac:(lia)))
      as (_ & _ & _ & H).
    destruct (H (Hp 4 ltac:(lia)) ltac:(lia) eq_refl) as (H1 & _ & H2 & _).
    split; [exact H1|exact H2].
  - destruct (X1_queue_constructor Z 0 1024 (λ n, n <=? 64) 12 (Hm 12 ltac:(lia)))
      as (H & _).
    apply H. intros (k & Hk & Heq).
    assert (k < 4) by (apply (Z.pow_lt_mono_r_iff 2); lia).
    assert (k = 0 ∨ k = 1 ∨ k = 2 ∨ k = 3) as [-> | [-> | [-> | ->]]] by lia; discriminate Heq.
  - destruct (X1_queue_constructor Z 0 1024 (λ n, n <=? 64) 2048 (Hm 2048 ltac:(lia)))
      as (_ & H & _).
    apply (H (Hp 11 ltac:(lia))). lia.
  - destruct (X1_queue_constructor Z 0 1024 (λ n, n <=? 64) 128 (Hm 128 ltac:(lia)))
      as (_ & _ & H & _).
    apply (H (Hp 7 ltac:(lia))); [lia|reflexivity].
Defined.

(** X2.  [SPSCQueue] used by one thread, from its construction with a
    power-of-two [Capacity]: after any sequence of [enqueue] and [dequeue]
    calls, [size()] is the number of successful enqueues minus the number of
    successful dequeues, it lies between 0 and [Capacity - 1], [empty()]
    holds exactly when it is 0 and [full()] exactly when it is
    [Capacity - 1]. *)
Theorem X2_spsc_observers :
  ∀ (T : Type) (T0 : T) (C : Z) (ops : list SPSCProgram.op) q0 (r0 : T),
    SizeT.pow2 C → Forall SPSCProgram.fair_op ops →
    SPSCQueue.new T0 C = SPSCQueue.Built q0 →
    ∃ q r evs,
      SPSCProgram.run ops q0 r0 = Ret (q, r, evs) ∧
      SPSCQueue.size C q =
        Z.of_nat (length (SPSCProgram.enqueued evs)) -
        Z.of_nat (length (SPSCProgram.dequeued evs)) ∧
      0 ≤ SPSCQueue.size C q ≤ C - 1 ∧
      SPSCQueue.empty q = (SPSCQueue.size C q =? 0) ∧
      SPSCQueue.full q = (SPSCQueue.size C q =? C - 1).
Proof.
  intros T T0 C ops q0 r0 HC Hops Hnew.
  destruct (spsc_program_fifo T0 C HC ops q0 r0 Hops Hnew) as (q & r & evs & Hrun & _).
  destruct (spsc_run_reach T0 C HC ops q0 r0 q r evs Hops Hnew Hrun) as (Hwf & Hacc).
  exists q, r, evs. split; [done|].
  pose proof (spsc_count_range C q Hwf) as Hcount.
  pose proof (spsc_contents_length T0 C q Hwf) as Hlen.
  rewrite (spsc_size_count C HC q Hwf).
  split.
  { rewrite Hacc, length_app. lia. }
  split.
  { lia. }
  split.
  - unfold SPSCQueue.empty. by apply spsc_empty_count.
  - unfold SPSCQueue.full. by apply spsc_full_count.
Qed.

Lemma X2_spsc_observers_witness :
  ∃ q r evs,
    SPSCProgram.run
      [SPSCProgram.Enqueue [true; false] 7; SPSCProgram.Enqueue [false] 8;
       SPSCProgram.Dequeue [false]; SPSCProgram.Enqueue [false] 9;
       SPSCProgram.Enqueue [false] 10]
      (SPSCQueue.Mk [0; 0; 0; 0] 0 0 3) 0 = Ret (q, r, evs) ∧
    SPSCQueue.size 4 q =
      Z.of_nat (length (SPSCProgram.enqueued evs)) -
      Z.of_nat (length (SPSCProgram.dequeued evs)) ∧
    0 ≤ SPSCQueue.size 4 q ≤ 4 - 1 ∧
    SPSCQueue.empty q = (SPSCQueue.size 4 q =? 0) ∧
    SPSCQueue.full q = (SPSCQueue.size 4 q =? 4 - 1).
Proof.
  apply (X2_spsc_observers Z 0 4).
  - exists 2. unfold SizeT.bits. split; [lia|reflexivity].
  - repeat (constructor; [unfold SPSCProgram.fair_op, fair; repeat constructor|]).
    constructor.
  - reflexivity.
Defined.

(** X3.  [SPSCQueue] used by one thread, in any state reached from its
    construction: [enqueue] on a full queue returns [false] and leaves the
    object as it was, whatever the schedule, and on a queue that is not full
    it returns [true]; [dequeue] on an empty queue returns [false] and leaves
    the object and the variable passed as [result] as they were, and on a
    queue that is not empty it returns [true]. *)
Theorem X3_spsc_failing_calls :
  ∀ (T : Type) (T0 : T) (C : Z) (ops : list SPSCProgram.op) q0 (r0 : T) q r evs,
    SizeT.pow2 C → Forall SPSCProgram.fair_op ops →
    SPSCQueue.new T0 C = SPSCQueue.Built q0 →
    SPSCProgram.run ops q0 r0 = Ret (q, r, evs) →
    (SPSCQueue.full q = true →
     ∀ sched v, SPSCQueue.enqueue sched q v = Ret (q, false)) ∧
    (SPSCQueue.full q = false →
     ∀ sched v, fair sched → ∃ q', SPSCQueue.enqueue sched q v = Ret (q', true)) ∧
    (SPSCQueue.empty q = true →
     ∀ sched r1, SPSCQueue.dequeue sched q r1 = Ret (q, r1, false)) ∧
    (SPSCQueue.empty q = false →
     ∀ sched r1, fair sched →
       ∃ q' r', SPSCQueue.dequeue sched q r1 = Ret (q', r', true)).
Proof.
  intros T T0 C ops q0 r0 q r evs HC Hops Hnew Hrun.
  destruct (spsc_run_reach T0 C HC ops q0 r0 q r evs Hops Hnew Hrun) as (Hwf & _).
  unfold SPSCQueue.full, SPSCQueue.empty.
  rewrite (spsc_full_count C HC q Hwf).
  repeat split.
  - intros Hfull%Z.eqb_eq sched v. by apply (spsc_enqueue_full C HC).
  - intros Hfull%Z.eqb_neq sched v Hfair. eexists.
    by apply (spsc_enqueue_ok C HC).
  - intros Hempty%Z.eqb_eq sched r1. by apply spsc_dequeue_empty.
  - intros Hempty%Z.eqb_neq sched r1 Hfair. eexists _, _.
    by apply (spsc_dequeue_ok T0 C HC).
Qed.

Lemma X3_spsc_failing_calls_witness :
  (SPSCQueue.full (SPSCQueue.Mk [7; 0] 0 1 1) = true →
   ∀ sched v, SPSCQueue.enqueue sched (SPSCQueue.Mk [7; 0] 0 1 1) v
              = Ret (SPSCQueue.Mk [7; 0] 0 1 1, false)) ∧
  (SPSCQueue.full (SPSCQueue.Mk [7; 0] 0 1 1) = false →
   ∀ sched v, fair sched →
     ∃ q', SPSCQueue.enqueue sched (SPSCQueue.Mk [7; 0] 0 1 1) v = Ret (q', true)) ∧
  (SPSCQueue.empty (SPSCQueue.Mk [7; 0] 0 1 1) = true →
   ∀ sched r1, SPSCQueue.dequeue sched (SPSCQueue.Mk [7; 0] 0 1 1) r1
               = Ret (SPSCQueue.Mk [7; 0] 0 1 1, r1, false)) ∧
  (SPSCQueue.empty (SPSCQueue.Mk [7; 0] 0 1 1) = false →
   ∀ sched r1, fair sched →
     ∃ q' r', SPSCQueue.dequeue sched (SPSCQueue.Mk [7; 0] 0 1 1) r1
              = Ret (q', r', true)).
Proof.
  apply (X3_spsc_failing_calls Z 0 2 [SPSCProgram.Enqueue [false] 7]
           (SPSCQueue.Mk [0; 0] 0 0 1) 0 (SPSCQueue.Mk [7; 0] 0 1 1) 0
           [SPSCProgram.Enqueued 7 true]).
  - exists 1. unfold SizeT.bits. split; [lia|reflexivity].
  - repeat (constructor; [unfold SPSCProgram.fair_op, fair; repeat constructor|]).
    constructor.
  - reflexivity.
  - reflexivity.
Defined.

(** ** [Queue.h]: [SPMCQueue] used by one thread *)

Section SPMCAsSPSC.
Context {T : Type}.

Import SPMCProgram.

Lemma spmc_enqueue_loop_as_spsc sched (q : SPMCQueue.t (T:=T)) ct v :
  SPSCQueue.enqueue_loop sched (as_SPSC q) ct v =
  x ← SPMCQueue.enqueue_loop sched q ct v; Ret (as_SPSC x.1, x.2).
Proof.
  revert q ct. induction sched as [|sp sched IH]; intros q ct.
  - cbn. destruct (_ =? _); [done|]. by destruct (vec_store _ _ _).
  - cbn [SPSCQueue.enqueue_loop SPMCQueue.enqueue_loop].
    cbn [as_SPSC SPSCQueue.mask SPSCQueue.head SPSCQueue.data SPSCQueue.tail].
    destruct (_ =? _); [done|].
    destruct (vec_store _ _ _) as [d| |]; [|done..].
    cbn [mbind outcome_bind].
    cbn [SPSCQueue.set_data SPMCQueue.set_data SPSCQueue.tail SPMCQueue.tail
         SPSCQueue.data SPSCQueue.head SPSCQueue.mask
         SPMCQueue.data SPMCQueue.head SPMCQueue.mask].
    destruct (compare_exchange_weak _ _ _ _) as [[cell ct'] ok].
    destruct ok; [done|]. apply (IH (SPMCQueue.set_tail (SPMCQueue.set_data q d) cell)).
Qed.

Lemma spmc_dequeue_loop_as_spsc sched (q : SPMCQueue.t (T:=T)) ch r :
  SPSCQueue.dequeue_loop sched (as_SPSC q) ch r =
  x ← SPMCQueue.dequeue_loop sched q ch r; Ret (as_SPSC x.1.1, x.1.2, x.2).
Proof.
  revert q ch r. induction sched as [|sp sched IH]; intros q ch r.
  - cbn. destruct (_ =? _); [done|]. by destruct (vec_load _ _).
  - cbn [SPSCQueue.dequeue_loop SPMCQueue.dequeue_loop].
    cbn [as_SPSC SPSCQueue.mask SPSCQueue.head SPSCQueue.data SPSCQueue.tail].
    destruct (_ =? _); [done|].
    destruct (vec_load _ _) as [x| |]; [|done..].
    cbn [mbind outcome_bind].
    destruct (compare_exchange_weak _ _ _ _) as [[cell ch'] ok].
    destruct ok; [done|]. apply (IH (SPMCQueue.set_head q cell)).
Qed.

Lemma spmc_steal_loop_dequeue_loop sched (q : SPMCQueue.t (T:=T)) ch r :
  SPMCQueue.steal_loop sched q ch r = SPMCQueue.dequeue_loop sched q ch r.
Proof.
  revert q ch r. induction sched as [|sp sched IH]; intros q ch r; [done|].
  cbn [SPMCQueue.steal_loop SPMCQueue.dequeue_loop].
  destruct (_ =? _); [done|].
  destruct (vec_load _ _) as [x| |]; [|done..].
  cbn [mbind outcome_bind].
  destruct (compare_exchange_weak _ _ _ _) as [[cell ch'] ok].
  destruct ok; [done|]. apply IH.
Qed.

(** A program on an [SPMCQueue] computes what the same program computes on
    an [SPSCQueue]. *)
Lemma spmc_run_as_spsc (ops : list (op (T:=T))) (q : SPMCQueue.t (T:=T)) (r : T) :
  SPSCProgram.run (as_SPSC_op <$> ops) (as_SPSC q) r =
  x ← SPMCProgram.run ops q r;
  Ret (as_SPSC x.1.1, x.1.2, as_SPSC_event <$> (x.2 : list event)).
Proof.
  revert q r. induction ops as [|o ops IH]; intros q r; [done|].
  destruct o as [sched v|sched|sched];
    cbn [fmap list_fmap as_SPSC_op SPSCProgram.run SPMCProgram.run].
  - unfold SPSCQueue.enqueue, SPMCQueue.enqueue.
    change (SPSCQueue.tail (as_SPSC q)) with (SPMCQueue.tail q).
    rewrite spmc_enqueue_loop_as_spsc.
    destruct (SPMCQueue.enqueue_loop _ _ _ _) as [[q1 ok]| |]; [|done..].
    cbn [mbind outcome_bind fst snd]. rewrite IH.
    by destruct (SPMCProgram.run ops q1 r) as [[[q2 r2] evs]| |].
  - unfold SPSCQueue.dequeue, SPMCQueue.dequeue.
    change (SPSCQueue.head (as_SPSC q)) with (SPMCQueue.head q).
    rewrite spmc_dequeue_loop_as_spsc.
    destruct (SPMCQueue.dequeue_loop _ _ _ _) as [[[q1 r1] ok]| |]; [|done..].
    cbn [mbind outcome_bind fst snd]. rewrite IH.
    by destruct (SPMCProgram.run ops q1 r1) as [[[q2 r2] evs]| |].
  - unfold SPSCQueue.dequeue, SPMCQueue.steal.
    change (SPSCQueue.head (as_SPSC q)) with (SPMCQueue.head q).
    rewrite (spmc_steal_loop_dequeue_loop sched q (SPMCQueue.head q) r).
    rewrite spmc_dequeue_loop_as_spsc.
    destruct (SPMCQueue.dequeue_loop _ _ _ _) as [[[q1 r1] ok]| |]; [|done..].
    cbn [mbind outcome_bind fst snd]. rewrite IH.
    by destruct (SPMCProgram.run ops q1 r1) as [[[q2 r2] evs]| |].
Qed.

Lemma spmc_enqueued_as_spsc (evs : list (event (T:=T))) :
  SPSCProgram.enqueued (as_SPSC_event <$> evs) = enqueued evs.
Proof.
  unfold SPSCProgram.enqueued, enqueued.
  induction evs as [|[v [|]|v [|]|v [|]] evs IH]; [done|..];
    rewrite fmap_cons; cbn [omap list_omap as_SPSC_event]; by rewrite IH.
Qed.

Lemma spmc_taken_as_spsc (evs : list (event (T:=T))) :
  SPSCProgram.dequeued (as_SPSC_event <$> evs) = taken evs.
Proof.
  unfold SPSCProgram.dequeued, taken.
  induction evs as [|[v [|]|v [|]|v [|]] evs IH]; [done|..];
    rewrite fmap_cons; cbn [omap list_omap as_SPSC_event]; by rewrite IH.
Qed.

Lemma spmc_fair_as_spsc (ops : list (op (T:=T))) :
  Forall fair_op ops → Forall SPSCProgram.fair_op (as_SPSC_op <$> ops).
Proof.
  intros H. apply Forall_fmap. eapply Forall_impl; [exact H|].
  by intros [sched v|sched|sched].
Qed.

End SPMCAsSPSC.

(** X4.  [SPMCQueue] is [SPSCQueue] with [steal] added: on the same
    members, the constructor, [enqueue], [dequeue], [empty], [full], [size]
    and [capacity] of the two classes have the same outcome for every
    argument and every schedule of spurious compare-exchange failures, and
    [steal] has the outcome of [SPSCQueue::dequeue]. *)
Theorem X4_spmc_is_spsc :
  ∀ (T : Type) (T0 : T) (C : Z) (sched : list bool) (q : SPMCQueue.t (T:=T)) (v r : T),
    SPSCQueue.new T0 C = SPMCProgram.as_SPSC_built (SPMCQueue.new T0 C) ∧
    SPSCQueue.enqueue sched (SPMCProgram.as_SPSC q) v =
      (x ← SPMCQueue.enqueue sched q v; Ret (SPMCProgram.as_SPSC x.1, x.2)) ∧
    SPSCQueue.dequeue sched (SPMCProgram.as_SPSC q) r =
      (x ← SPMCQueue.dequeue sched q r; Ret (SPMCProgram.as_SPSC x.1.1, x.1.2, x.2)) ∧
    SPSCQueue.dequeue sched (SPMCProgram.as_SPSC q) r =
      (x ← SPMCQueue.steal sched q r; Ret (SPMCProgram.as_SPSC x.1.1, x.1.2, x.2)) ∧
    SPSCQueue.empty (SPMCProgram.as_SPSC q) = SPMCQueue.empty q ∧
    SPSCQueue.full (SPMCProgram.as_SPSC q) = SPMCQueue.full q ∧
    SPSCQueue.size C (SPMCProgram.as_SPSC q) = SPMCQueue.size C q ∧
    SPSCQueue.capacity C (SPMCProgram.as_SPSC q) = SPMCQueue.capacity C q.
Proof.
  intros T T0 C sched q v r. split.
  { unfold SPSCQueue.new, SPMCQueue.new. by destruct (negb _). }
  split; [apply spmc_enqueue_loop_as_spsc|].
  split; [apply spmc_dequeue_loop_as_spsc|].
  split; [|done].
  unfold SPMCQueue.steal. rewrite spmc_steal_loop_dequeue_loop.
  apply spmc_dequeue_loop_as_spsc.
Qed.

(** X5.  [SPMCQueue] used by one thread is a bounded FIFO: for every
    power-of-two [Capacity] and every sequence of [enqueue], [dequeue] and
    [steal] calls on a fresh queue, all calls return, and the values handed
    out by [dequeue] and [steal] together are, in the order of the calls, the
    first of the values accepted by [enqueue]; when the queue ends empty they
    are all of them. *)
Theorem X5_spmc_queue_is_fifo :
  ∀ (T : Type) (T0 : T) (C : Z) (ops : list SPMCProgram.op) q0 (r0 : T),
    SizeT.pow2 C → Forall SPMCProgram.fair_op ops →
    SPMCQueue.new T0 C = SPMCQueue.Built q0 →
    ∃ q r evs,
      SPMCProgram.run ops q0 r0 = Ret (q, r, evs) ∧
      SPMCProgram.taken evs `prefix_of` SPMCProgram.enqueued evs ∧
      (SPMCQueue.empty q = true →
       SPMCProgram.taken evs = SPMCProgram.enqueued evs).
Proof.
  intros T T0 C ops q0 r0 HC Hops Hnew.
  assert (Hnew' : SPSCQueue.new T0 C = SPSCQueue.Built (SPMCProgram.as_SPSC q0)).
  { unfold SPSCQueue.new. unfold SPMCQueue.new in Hnew.
    destruct (negb _); [done|]. by injection Hnew as <-. }
  destruct (spsc_program_fifo T0 C HC _ _ r0 (spmc_fair_as_spsc ops Hops) Hnew')
    as (q' & r' & evs' & Hrun & Hpre & Hall).
  rewrite spmc_run_as_spsc in Hrun.
  destruct (SPMCProgram.run ops q0 r0) as [[[q r] evs]| |]; [|done..].
  cbn in Hrun. injection Hrun as <- <- <-.
  rewrite spmc_enqueued_as_spsc, spmc_taken_as_spsc in Hpre, Hall.
  by exists q, r, evs.
Qed.

Lemma X5_spmc_queue_is_fifo_witness :
  ∃ q r evs,
    SPMCProgram.run
      [SPMCProgram.Enqueue [true; false] 7; SPMCProgram.Enqueue [false] 8;
       SPMCProgram.Steal [false]; SPMCProgram.Enqueue [false] 9;
       SPMCProgram.Dequeue [true; false]]
      (SPMCQueue.Mk [0; 0; 0; 0] 0 0 3) 0 = Ret (q, r, evs) ∧
    SPMCProgram.taken evs `prefix_of` SPMCProgram.enqueued evs ∧
    (SPMCQueue.empty q = true →
     SPMCProgram.taken evs = SPMCProgram.enqueued evs).
Proof.
  apply (X5_spmc_queue_is_fifo Z 0 4).
  - exists 2. unfold SizeT.bits. split; [lia|reflexivity].
  - repeat (constructor; [unfold SPMCProgram.fair_op, fair; repeat constructor|]).
    constructor.
  - reflexivity.
Defined.

(** ** [include/SpscQueue.h]: construction and moves *)

(** X6.  The constructor of [cpputils::SpscQueue] for
    [0 ≤ INITIAL_CAPACITY < 2^64].  Its vector is sized before [capacity_]
    is initialised ([buffer_] is declared first), from the value [stale]
    found in the storage of [capacity_]: the constructor leaves with
    [std::length_error] when [stale] exceeds [max_size()] and with
    [std::bad_alloc] when the allocation of [stale] elements fails, whatever
    [INITIAL_CAPACITY] is.  Otherwise it passes its two assertions exactly
    when [INITIAL_CAPACITY] is a power of two; the object then has [stale]
    slots, [head_ = tail_ = 0] and [capacity_ = INITIAL_CAPACITY]: it is
    [empty()], its [size()] is 0, its [capacity()] is
    [INITIAL_CAPACITY - 1], and it is [full()] exactly when
    [INITIAL_CAPACITY] is 1. *)
Theorem X6_spscq_constructor :
  ∀ (T : Type) (T0 : T) (max_size : Z) (allocates : Z → bool)
    (INITIAL_CAPACITY stale : Z),
    0 ≤ INITIAL_CAPACITY < SizeT.modulus → 0 ≤ stale < SizeT.modulus →
    (max_size < stale →
     SpscQueue.new T0 max_size allocates INITIAL_CAPACITY stale =
       SpscQueue.vector_threw length_error) ∧
    (0 < stale ≤ max_size → allocates stale = false →
     SpscQueue.new T0 max_size allocates INITIAL_CAPACITY stale =
       SpscQueue.vector_threw bad_alloc) ∧
    (stale ≤ max_size → stale = 0 ∨ allocates stale = true →
     (¬ SizeT.pow2 INITIAL_CAPACITY →
      SpscQueue.new T0 max_size allocates INITIAL_CAPACITY stale =
        SpscQueue.assertion_failed) ∧
     (SizeT.pow2 INITIAL_CAPACITY →
      ∃ q, SpscQueue.new T0 max_size allocates INITIAL_CAPACITY stale =
             SpscQueue.Built q ∧
        q = SpscQueue.Mk (replicate (Z.to_nat stale) T0) 0 0 INITIAL_CAPACITY ∧
        SpscQueue.empty q = true ∧ SpscQueue.size q = 0 ∧
        SpscQueue.capacity q = INITIAL_CAPACITY - 1 ∧
        SpscQueue.full q = (INITIAL_CAPACITY =? 1))).
Proof.
  intros T T0 max_size allocates C stale HC Hs.
  split; [|split].
  - intros Hmax. unfold SpscQueue.new, vec_sized.
    by rewrite (proj2 (Z.ltb_lt max_size stale)) by done.
  - intros [Hpos Hmax] Ha. unfold SpscQueue.new, vec_sized.
    rewrite (proj2 (Z.ltb_ge max_size stale)) by done.
    by rewrite (proj2 (Z.ltb_lt 0 stale)), Ha by done.
  - intros Hmax Hok.
    assert (Hv : vec_sized max_size allocates T0 stale =
                 inr (replicate (Z.to_nat stale) T0)).
    { unfold vec_sized. rewrite (proj2 (Z.ltb_ge max_size stale)) by done.
      destruct Hok as [-> | ->]; [done|]. cbn [negb]. by rewrite andb_false_r. }
    unfold SpscQueue.new. rewrite Hv. split.
    + intros HP. destruct (Z.ltb_spec 0 C) as [Hpos|]; [|done]. cbn [negb].
      rewrite wrap_small by lia.
      destruct (Z.eqb_spec (Z.land C (C - 1)) 0) as [Hz|]; [|done].
      exfalso. apply HP. destruct (land_pred_pow2 C) as (k & Hk & ->); [lia|done|].
      exists k. split; [|done]. split; [done|].
      apply (Z.pow_lt_mono_r_iff 2); [lia|unfold SizeT.bits; lia|apply HC].
    + intros HP. pose proof (pow2_range C HP) as Hr.
      destruct (Z.ltb_spec 0 C) as [_|]; [|lia]. cbn [negb].
      rewrite wrap_mask, land_mask_mod by done.
      rewrite Z.mod_same by lia. cbn [negb Z.eqb].
      eexists. split; [reflexivity|]. split; [reflexivity|].
      unfold SpscQueue.empty, SpscQueue.size, SpscQueue.capacity, SpscQueue.full.
      cbn [SpscQueue.head_ SpscQueue.tail_ SpscQueue.capacity_].
      rewrite wrap_mask by done. split; [done|]. split; [done|]. split; [done|].
      rewrite land_wrap_mask by done. cbn [Z.add].
      destruct (Z.eqb_spec C 1) as [-> | Hne]; [done|].
      rewrite Z.mod_small by lia. done.
Qed.

Lemma X6_spscq_constructor_witness :
  (∃ q, SpscQueue.new 0 1024 (λ n, n <=? 64) 512 3 = SpscQueue.Built q ∧
     q = SpscQueue.Mk [0; 0; 0] 0 0 512 ∧
     SpscQueue.empty q = true ∧ SpscQueue.size q = 0 ∧
     SpscQueue.capacity q = 511 ∧ SpscQueue.full q = false) ∧
  SpscQueue.new 0 1024 (λ n, n <=? 64) 512 4611686018427387904 =
    SpscQueue.vector_threw length_error ∧
  SpscQueue.new 0 1024 (λ n, n <=? 64) 512 100 = SpscQueue.vector_threw bad_alloc.
Proof.
  assert (Hm : ∀ C, 0 ≤ C < 2 ^ 63 → 0 ≤ C < SizeT.modulus)
    by (intros C HC; rewrite modulus_eq; lia).
  split; [|split].
  - destruct (X6_spscq_constructor Z 0 1024 (λ n, n <=? 64) 512 3
                (Hm 512 ltac:(lia)) (Hm 3 ltac:(lia))) as (_ & _ & H).
    destruct (H ltac:(lia) (or_intror eq_refl)) as (_ & Hb).
    apply Hb. exists 9. unfold SizeT.bits. split; [lia|reflexivity].
  - destruct (X6_spscq_constructor Z 0 1024 (λ n, n <=? 64) 512 4611686018427387904
                (Hm 512 ltac:(lia)) (Hm 4611686018427387904 ltac:(lia))) as (H & _).
    apply H. lia.
  - destruct (X6_spscq_constructor Z 0 1024 (λ n, n <=? 64) 512 100
                (Hm 512 ltac:(lia)) (Hm 100 ltac:(lia))) as (_ & H & _).
    apply H; [lia|reflexivity].
Defined.

(** X9.  Moving a [cpputils::SpscQueue].  The move constructor and the move
    assignment give the target the members of the source, and leave the
    source with [head_ = tail_ = 0] and [capacity_ = 0]; after the move
    constructor the vector of the source is empty.  The moved-from queue
    reports [empty()], [size() = 0], not [full()], and
    [capacity() = 2^64 - 1], because [capacity_ - 1] wraps around. *)
Theorem X9_spscq_moved_from :
  ∀ (T : Type) (this other : SpscQueue.t (T:=T)) (leftover : list T),
    (SpscQueue.move_construct other).1 = other ∧
    (SpscQueue.move_assign leftover this other).1 = other ∧
    SpscQueue.buffer_ (SpscQueue.move_construct other).2 = [] ∧
    (∀ o, o = (SpscQueue.move_construct other).2 ∨
          o = (SpscQueue.move_assign leftover this other).2 →
       SpscQueue.head_ o = 0 ∧ SpscQueue.tail_ o = 0 ∧ SpscQueue.capacity_ o = 0 ∧
       SpscQueue.empty o = true ∧ SpscQueue.size o = 0 ∧
       SpscQueue.full o = false ∧
       SpscQueue.capacity o = 18446744073709551615).
Proof.
  intros T this other leftover.
  split; [by destruct other|]. split; [by destruct other|]. split; [done|].
  intros o [-> | ->]; repeat split.
Qed.

(** ** [SpmcQueue.h]: the deque used by one thread *)

Section DequeProgramFacts.
Context {T : Type}.
Context (nullptr : T).
Context (LogSize : Z).
Context (HL : 0 ≤ LogSize).

Import SpmcQueue.
Implicit Types (q : SpmcQueue.t (T:=T)).

Local Abbreviation N := (BufferSize_ LogSize).
Local Abbreviation load := (buffer_load nullptr LogSize).
Local Abbreviation store := (buffer_store (T:=T) LogSize).
Local Abbreviation dslice := (SpmcThreads.dslice nullptr LogSize).
Local Abbreviation wf := (DequeProgram.wf (T:=T) LogSize).
Local Abbreviation contents := (DequeProgram.contents nullptr LogSize).

Lemma dslice_length q h n : length (dslice q h n) = n.
Proof. unfold SpmcThreads.dslice. by rewrite length_fmap, length_seq. Qed.

Lemma deque_contents_length q :
  wf q → Z.of_nat (length (contents q)) = tail_ q - head_ q.
Proof.
  intros (_ & Hb). unfold DequeProgram.contents. rewrite dslice_length. lia.
Qed.

Lemma deque_new_wf : wf (SpmcQueue.new nullptr LogSize) ∧
                     contents (SpmcQueue.new nullptr LogSize) = [].
Proof.
  pose proof (buffer_size_pos LogSize HL).
  split; [|done]. split; cbn; [by rewrite length_replicate|lia].
Qed.

Lemma deque_try_push q o :
  wf q →
  ∃ q', wf q' ∧
    (try_push LogSize q o, contents q') =
    if Z.of_nat (length (contents q)) <? N - 1
    then ((q', true), contents q ++ [o])
    else ((q', false), contents q).
Proof.
  intros Hwf. pose proof Hwf as (Hlen & Hb).
  rewrite (deque_contents_length q Hwf). unfold try_push.
  destruct (Z.ltb_spec (tail_ q - head_ q) (N - 1)) as [Hlt|Hge].
  - destruct (Z.geb_spec (tail_ q - head_ q) (N - 1)) as [|_]; [lia|].
    exists (set_tail (store q (tail_ q) o) (tail_ q + 1)). split.
    + split; cbn; [by rewrite length_insert|lia].
    + f_equal. unfold DequeProgram.contents. cbn [set_tail head_ tail_ buffer_store].
      replace (Z.to_nat (tail_ q + 1 - head_ q))
        with (S (Z.to_nat (tail_ q - head_ q))) by lia.
      rewrite dslice_snoc. f_equal.
      * apply dslice_ext. intros i Hi.
        apply (load_store_other nullptr LogSize HL q).
        apply mod_neq_of_close. lia.
      * f_equal. rewrite Z2Nat.id by lia.
        replace (head_ q + (tail_ q - head_ q)) with (tail_ q) by lia.
        by apply (load_store_same nullptr LogSize HL q).
  - destruct (Z.geb_spec (tail_ q - head_ q) (N - 1)) as [_|]; [|lia].
    by exists q.
Qed.

Lemma deque_push_try_push q o :
  push LogSize q o = ((try_push LogSize q o).1, negb (try_push LogSize q o).2).
Proof. unfold push, try_push. by destruct (_ >=? _). Qed.

Lemma deque_pop q :
  wf q →
  ∃ q', wf q' ∧
    (pop nullptr LogSize q, contents q') =
    match last (contents q) with
    | Some x => ((q', x), take (pred (length (contents q))) (contents q))
    | None => ((q', nullptr), contents q)
    end.
Proof.
  intros Hwf. pose proof Hwf as (Hlen & Hb).
  unfold pop. cbn [set_tail head_ tail_ buffer_].
  rewrite compare_exchange_strong_same.
  destruct (Z.leb_spec (head_ q) (tail_ q - 1)) as [Hle|Hgt].
  - (* something is held *)
    assert (Hc : contents q =
              dslice q (head_ q) (Z.to_nat (tail_ q - 1 - head_ q)) ++
              [load q (tail_ q - 1)]).
    { unfold DequeProgram.contents.
      replace (Z.to_nat (tail_ q - head_ q))
        with (S (Z.to_nat (tail_ q - 1 - head_ q))) by lia.
      rewrite dslice_snoc, Z2Nat.id by lia.
      by replace (head_ q + (tail_ q - 1 - head_ q)) with (tail_ q - 1) by lia. }
    rewrite Hc, last_snoc, length_app, dslice_length. cbn [length].
    replace (pred (Z.to_nat (tail_ q - 1 - head_ q) + 1))
      with (length (dslice q (head_ q) (Z.to_nat (tail_ q - 1 - head_ q))))
      by (rewrite dslice_length; lia).
    rewrite take_app_length.
    destruct (Z.eqb_spec (head_ q) (tail_ q - 1)) as [Heq|Hne].
    + (* the last item *)
      exists (set_tail (set_head (set_tail q (tail_ q - 1)) (head_ q + 1))
                (tail_ q - 1 + 1)).
      split.
      * split; cbn; [done|lia].
      * f_equal. unfold DequeProgram.contents. cbn [set_tail set_head head_ tail_].
        replace (Z.to_nat (tail_ q - 1 + 1 - (head_ q + 1))) with O by lia.
        replace (Z.to_nat (tail_ q - 1 - head_ q)) with O by lia. done.
    + exists (set_tail q (tail_ q - 1)). split.
      * split; cbn; [done|lia].
      * done.
  - (* nothing is held *)
    assert (Hc : contents q = []).
    { unfold DequeProgram.contents.
      replace (Z.to_nat (tail_ q - head_ q)) with O by lia. done. }
    rewrite Hc. cbn [last]. exists q. split; [done|]. rewrite Hc.
    do 2 f_equal. destruct q as [h t b]. unfold set_tail. cbn. f_equal. lia.
Qed.

Lemma deque_steal q :
  wf q →
  ∃ q', wf q' ∧
    (steal nullptr LogSize q, contents q') =
    match contents q with
    | x :: l => ((q', x), l)
    | [] => ((q', nullptr), [])
    end.
Proof.
  intros Hwf. pose proof Hwf as (Hlen & Hb).
  unfold steal. rewrite compare_exchange_strong_same.
  destruct (Z.ltb_spec (head_ q) (tail_ q)) as [Hlt|Hge].
  - assert (Hc : contents q =
              load q (head_ q) ::
              dslice q (head_ q + 1) (Z.to_nat (tail_ q - (head_ q + 1)))).
    { unfold DequeProgram.contents.
      replace (Z.to_nat (tail_ q - head_ q))
        with (S (Z.to_nat (tail_ q - (head_ q + 1)))) by lia.
      by rewrite dslice_cons. }
    rewrite Hc. exists (set_head q (head_ q + 1)). split; [|done].
    split; cbn; [done|lia].
  - assert (Hc : contents q = []).
    { unfold DequeProgram.contents.
      replace (Z.to_nat (tail_ q - head_ q)) with O by lia. done. }
    rewrite Hc. exists q. split; [done|]. by rewrite Hc.
Qed.

(** The deque computes what the double-ended list computes. *)
Lemma deque_run_model (ops : list (DequeProgram.op (T:=T))) q :
  wf q →
  ∃ q', DequeProgram.run nullptr LogSize ops q =
          (q', (DequeProgram.model nullptr LogSize ops (contents q)).2) ∧
        wf q' ∧
        contents q' = (DequeProgram.model nullptr LogSize ops (contents q)).1.
Proof.
  revert q. induction ops as [|o ops IH]; intros q Hwf.
  { by exists q. }
  destruct o as [o|o| |]; cbn [DequeProgram.run DequeProgram.model].
  - destruct (deque_try_push q o Hwf) as (q1 & Hwf1 & Hcall).
    destruct (IH q1 Hwf1) as (q' & Hrun & Hwf' & Hcont).
    destruct (_ <? _); injection Hcall as -> Hc1; cbn [fst snd];
      rewrite Hrun, Hc1 in *; cbn [fst snd]; by exists q'.
  - rewrite deque_push_try_push.
    destruct (deque_try_push q o Hwf) as (q1 & Hwf1 & Hcall).
    destruct (IH q1 Hwf1) as (q' & Hrun & Hwf' & Hcont).
    destruct (_ <? _); injection Hcall as -> Hc1; cbn [fst snd negb];
      rewrite Hrun, Hc1 in *; cbn [fst snd]; by exists q'.
  - destruct (deque_pop q Hwf) as (q1 & Hwf1 & Hcall).
    destruct (IH q1 Hwf1) as (q' & Hrun & Hwf' & Hcont).
    destruct (last (contents q)); injection Hcall as -> Hc1; cbn [fst snd];
      rewrite Hrun, Hc1 in *; cbn [fst snd]; by exists q'.
  - destruct (deque_steal q Hwf) as (q1 & Hwf1 & Hcall).
    destruct (IH q1 Hwf1) as (q' & Hrun & Hwf' & Hcont).
    destruct (contents q); injection Hcall as -> Hc1; cbn [fst snd];
      rewrite Hrun, Hc1 in *; cbn [fst snd]; by exists q'.
Qed.

End DequeProgramFacts.

(** X10.  The work-stealing deque used by one thread is a bounded
    double-ended list.  For every [LogSize] the class accepts and every
    sequence of [try_push], [push], [pop] and [steal] calls on the empty
    deque, the calls return what the list model returns: a push appends at
    the back unless [BufferSize_ - 1] handles are held, in which case
    [try_push] returns [false] and [push] invokes [on_full]; [pop] returns
    the handle pushed last and [steal] the oldest one, each [nullptr] when
    nothing is held.  Afterwards [size()] is the number of handles the list
    holds, it is at most [capacity()], and [empty()] holds exactly when it
    is 0. *)
Theorem X10_deque_is_a_double_ended_list :
  ∀ (T : Type) (nullptr : T) (LogSize : Z) (ops : list DequeProgram.op),
    1 ≤ LogSize < 63 →
    (DequeProgram.run nullptr LogSize ops (SpmcQueue.new nullptr LogSize)).2 =
      (DequeProgram.model nullptr LogSize ops []).2 ∧
    SpmcQueue.size (DequeProgram.run nullptr LogSize ops (SpmcQueue.new nullptr LogSize)).1 =
      Z.of_nat (length (DequeProgram.model nullptr LogSize ops []).1) ∧
    SpmcQueue.size (DequeProgram.run nullptr LogSize ops (SpmcQueue.new nullptr LogSize)).1
      ≤ SpmcQueue.capacity LogSize ∧
    SpmcQueue.empty (DequeProgram.run nullptr LogSize ops (SpmcQueue.new nullptr LogSize)).1 =
      (SpmcQueue.size
         (DequeProgram.run nullptr LogSize ops (SpmcQueue.new nullptr LogSize)).1 =? 0).
Proof.
  intros T nullptr LogSize ops HL.
  assert (HL0 : 0 ≤ LogSize) by lia.
  destruct (deque_new_wf nullptr LogSize HL0) as (Hwf0 & Hnil).
  destruct (deque_run_model nullptr LogSize HL0 ops _ Hwf0) as (q & Hrun & Hwf & Hcont).
  rewrite Hnil in Hrun, Hcont. rewrite Hrun. cbn [fst snd].
  pose proof (deque_contents_length nullptr LogSize q Hwf) as Hlen.
  rewrite Hcont in Hlen. destruct Hwf as (_ & Hb).
  unfold SpmcQueue.size, SpmcQueue.empty, SpmcQueue.capacity.
  destruct (Z.geb_spec (SpmcQueue.tail_ q) (SpmcQueue.head_ q)); [|lia].
  repeat split; [lia..|].
  destruct (Z.leb_spec (SpmcQueue.tail_ q) (SpmcQueue.head_ q));
    destruct (Z.eqb_spec (SpmcQueue.tail_ q - SpmcQueue.head_ q) 0); lia || done.
Qed.

Lemma X10_deque_is_a_double_ended_list_witness :
  (DequeProgram.run 0 2
     [DequeProgram.TryPush 11; DequeProgram.Push 12; DequeProgram.TryPush 13;
      DequeProgram.TryPush 14; DequeProgram.Pop; DequeProgram.Steal;
      DequeProgram.Steal; DequeProgram.Pop; DequeProgram.Steal]
     (SpmcQueue.new 0 2)).2 =
    (DequeProgram.model 0 2
       [DequeProgram.TryPush 11; DequeProgram.Push 12; DequeProgram.TryPush 13;
        DequeProgram.TryPush 14; DequeProgram.Pop; DequeProgram.Steal;
        DequeProgram.Steal; DequeProgram.Pop; DequeProgram.Steal] []).2 ∧
  SpmcQueue.size
    (DequeProgram.run 0 2
       [DequeProgram.TryPush 11; DequeProgram.Push 12; DequeProgram.TryPush 13;
        DequeProgram.TryPush 14; DequeProgram.Pop; DequeProgram.Steal;
        DequeProgram.Steal; DequeProgram.Pop; DequeProgram.Steal]
       (SpmcQueue.new 0 2)).1 =
    Z.of_nat (length (DequeProgram.model 0 2
       [DequeProgram.TryPush 11; DequeProgram.Push 12; DequeProgram.TryPush 13;
        DequeProgram.TryPush 14; DequeProgram.Pop; DequeProgram.Steal;
        DequeProgram.Steal; DequeProgram.Pop; DequeProgram.Steal] []).1) ∧
  SpmcQueue.size
    (DequeProgram.run 0 2
       [DequeProgram.TryPush 11; DequeProgram.Push 12; DequeProgram.TryPush 13;
        DequeProgram.TryPush 14; DequeProgram.Pop; DequeProgram.Steal;
        DequeProgram.Steal; DequeProgram.Pop; DequeProgram.Steal]
       (SpmcQueue.new 0 2)).1 ≤ SpmcQueue.capacity 2 ∧
  SpmcQueue.empty
    (DequeProgram.run 0 2
       [DequeProgram.TryPush 11; DequeProgram.Push 12; DequeProgram.TryPush 13;
        DequeProgram.TryPush 14; DequeProgram.Pop; DequeProgram.Steal;
        DequeProgram.Steal; DequeProgram.Pop; DequeProgram.Steal]
       (SpmcQueue.new 0 2)).1 =
    (SpmcQueue.size
       (DequeProgram.run 0 2
          [DequeProgram.TryPush 11; DequeProgram.Push 12; DequeProgram.TryPush 13;
           DequeProgram.TryPush 14; DequeProgram.Pop; DequeProgram.Steal;
           DequeProgram.Steal; DequeProgram.Pop; DequeProgram.Steal]
          (SpmcQueue.new 0 2)).1 =? 0).
Proof. apply (X10_deque_is_a_double_ended_list Z 0 2). lia. Defined.

(** X11.  [push(o, on_full)] is [try_push(o)] with the callback in place of
    the returned boolean: on every state it leaves the deque as [try_push]
    leaves it, and it invokes [on_full] exactly when [try_push] returns
    [false]. *)
Theorem X11_deque_push_is_try_push :
  ∀ (T : Type) (LogSize : Z) (q : SpmcQueue.t (T:=T)) (o : T),
    SpmcQueue.push LogSize q o =
    ((SpmcQueue.try_push LogSize q o).1, negb (SpmcQueue.try_push LogSize q o).2).
Proof. intros T LogSize q o. apply deque_push_try_push. Qed.

(** ** [SpmcQueue.h]: what [size()], [empty()] and the counters show during
    an interleaving *)

(** X12.  One owner calling [try_push] (with non-null handles) and [pop],
    and [K] thieves calling [steal], their accesses interleaved in any way.
    At every point of every interleaving [size()] lies between 0 and
    [capacity()], [head_] lies between 0 and the number of steps taken and
    [tail_] between -1 and that number (so the [int64_t] counters do not
    overflow).  Whenever no call is in progress, [size()] is the number of
    successful pushes minus the number of successful pops and steals, and
    [empty()] holds exactly when it is 0. *)
Theorem X12_deque_size_in_interleavings :
  ∀ (T : Type) (EqT : EqDecision T) (nullptr : T) (LogSize : Z) (K : nat)
    (acts : list SpmcThreads.action) (s : SpmcThreads.state),
    1 ≤ LogSize < 63 →
    SpmcThreads.run nullptr LogSize acts (SpmcThreads.init nullptr LogSize K) = Some s →
    0 ≤ SpmcQueue.size (SpmcThreads.mem s) ≤ SpmcQueue.capacity LogSize ∧
    0 ≤ SpmcQueue.head_ (SpmcThreads.mem s) ≤ Z.of_nat (length acts) ∧
    -1 ≤ SpmcQueue.tail_ (SpmcThreads.mem s) ≤ Z.of_nat (length acts) ∧
    (SpmcThreads.quiescent s →
     SpmcQueue.size (SpmcThreads.mem s) =
       Z.of_nat (length (SpmcThreads.pushed (SpmcThreads.trace s))) -
       Z.of_nat (length (SpmcThreads.taken nullptr (SpmcThreads.trace s))) ∧
     SpmcQueue.empty (SpmcThreads.mem s) = (SpmcQueue.size (SpmcThreads.mem s) =? 0)).
Proof.
  intros T EqT nullptr LogSize K acts s HL Hrun.
  assert (HL0 : 0 ≤ LogSize) by lia.
  assert (HI : SpmcThreads.Inv nullptr LogSize s).
  { eapply run_inv; [done| |exact Hrun]. by apply init_inv. }
  destruct (run_counters nullptr LogSize HL0 acts K s Hrun) as (Hh & Ht).
  destruct HI as [Hlen Hb Hacc Hnn Ho Hth].
  pose proof (tail_le_top (SpmcThreads.mem s) (SpmcThreads.own s)) as Htop.
  unfold SpmcQueue.size, SpmcQueue.capacity, SpmcQueue.empty.
  split; [|split; [done|split; [done|]]].
  { destruct (Z.geb_spec (SpmcQueue.tail_ (SpmcThreads.mem s))
                         (SpmcQueue.head_ (SpmcThreads.mem s))); lia. }
  intros [Hown _]. destruct s as [m pc ths tr].
  cbn [SpmcThreads.mem SpmcThreads.own SpmcThreads.thieves SpmcThreads.trace] in *.
  subst pc. cbn in Hb. apply Permutation_length in Hacc.
  rewrite !length_app in Hacc. cbn in Hacc.
  unfold SpmcThreads.live, SpmcThreads.dslice in Hacc.
  rewrite length_fmap, length_seq in Hacc. cbn in Hacc.
  destruct (Z.geb_spec (SpmcQueue.tail_ m) (SpmcQueue.head_ m)); [|lia].
  split; [lia|].
  destruct (Z.leb_spec (SpmcQueue.tail_ m) (SpmcQueue.head_ m));
    destruct (Z.eqb_spec (SpmcQueue.tail_ m - SpmcQueue.head_ m) 0); lia || done.
Qed.

Lemma X12_deque_size_in_interleavings_witness :
  SpmcThreads.run 0 2 Examples.push_push_steal (SpmcThreads.init 0 2 1)
    = Some Examples.push_push_steal_end ∧
  0 ≤ SpmcQueue.size (SpmcThreads.mem Examples.push_push_steal_end)
    ≤ SpmcQueue.capacity 2 ∧
  SpmcQueue.size (SpmcThreads.mem Examples.push_push_steal_end) =
    Z.of_nat (length (SpmcThreads.pushed
                        (SpmcThreads.trace Examples.push_push_steal_end))) -
    Z.of_nat (length (SpmcThreads.taken 0
                        (SpmcThreads.trace Examples.push_push_steal_end))).
Proof.
  assert (Hrun : SpmcThreads.run 0 2 Examples.push_push_steal (SpmcThreads.init 0 2 1)
                 = Some Examples.push_push_steal_end)
    by (vm_compute; reflexivity).
  split; [exact Hrun|].
  destruct (X12_deque_size_in_interleavings Z _ 0 2 1 Examples.push_push_steal
              Examples.push_push_steal_end) as (Hsize & _ & _ & Hq);
    [lia|exact Hrun|].
  split; [exact Hsize|].
  apply Hq. split; [reflexivity|]. repeat constructor.
Defined.

Lemma deque_run_app {T : Type} `{EqDecision T} (nullptr : T) (LogSize : Z)
    (l1 l2 : list SpmcThreads.action) (s : SpmcThreads.state) :
  SpmcThreads.run nullptr LogSize (l1 ++ l2) s =
  s' ← SpmcThreads.run nullptr LogSize l1 s; SpmcThreads.run nullptr LogSize l2 s'.
Proof.
  revert s. induction l1 as [|a l1 IH]; intros s; [done|].
  cbn [app SpmcThreads.run]. destruct (SpmcThreads.exec nullptr LogSize a s); [|done].
  apply IH.
Qed.

(** X24.  [steal] can return [nullptr] on a deque that is not empty.  On
    the deque with four cells and two thieves, after the owner has pushed
    the non-null handles [a] and [b], there is an interleaving of two
    [steal] calls in which both thieves read the same [head_] and the same
    handle [a]; the thief whose compare-exchange on [head_] comes first
    returns [a], the other returns [nullptr], and afterwards no call is in
    progress, [size()] is 1 and [empty()] is [false]: [b] is still held. *)
Theorem X24_deque_steal_loses_race :
  ∀ (T : Type) (EqT : EqDecision T) (nullptr a b : T),
    a ≠ nullptr → b ≠ nullptr →
    ∃ s,
      SpmcThreads.run nullptr 2 (SpmcRaces.lost_race a b) (SpmcThreads.init nullptr 2 2)
        = Some s ∧
      SpmcThreads.trace s =
        [SpmcThreads.PushReturned a true; SpmcThreads.PushReturned b true;
         SpmcThreads.StealReturned 0 a; SpmcThreads.StealReturned 1 nullptr] ∧
      SpmcThreads.quiescent s ∧
      SpmcQueue.size (SpmcThreads.mem s) = 1 ∧
      SpmcQueue.empty (SpmcThreads.mem s) = false ∧
      SpmcQueue.steal nullptr 2 (SpmcThreads.mem s) =
        (SpmcQueue.set_head (SpmcThreads.mem s) 2, b).
Proof.
  intros T EqT nullptr a b Ha Hb.
  set (n := nullptr).
  exists (SpmcThreads.State (SpmcQueue.Mk 1 2 [a; b; n; n]) SpmcThreads.OIdle
            [SpmcThreads.TIdle; SpmcThreads.TIdle]
            [SpmcThreads.PushReturned a true; SpmcThreads.PushReturned b true;
             SpmcThreads.StealReturned 0 a; SpmcThreads.StealReturned 1 n]).
  split.
  { change (SpmcRaces.lost_race a b)
      with ([SpmcThreads.OwnerPush a] ++ replicate 4 SpmcThreads.OwnerStep ++
            [SpmcThreads.OwnerPush b] ++ replicate 4 SpmcThreads.OwnerStep ++
            [SpmcThreads.ThiefSteal 0; SpmcThreads.ThiefSteal 1;
             SpmcThreads.ThiefStep 0; SpmcThreads.ThiefStep 1;
             SpmcThreads.ThiefStep 0; SpmcThreads.ThiefStep 1;
             SpmcThreads.ThiefStep 0; SpmcThreads.ThiefStep 1;
             SpmcThreads.ThiefStep 0; SpmcThreads.ThiefStep 1]).
    rewrite deque_run_app.
    assert (H1 : SpmcThreads.run n 2 [SpmcThreads.OwnerPush a] (SpmcThreads.init n 2 2) =
              Some (SpmcThreads.State (SpmcQueue.Mk 0 0 [n; n; n; n])
                      (SpmcThreads.PushLoadTail a)
                      [SpmcThreads.TIdle; SpmcThreads.TIdle] [])).
    { cbn. by rewrite decide_False. }
    rewrite H1. cbn [mbind option_bind]. rewrite deque_run_app.
    assert (H2 : ∀ o m tr,
              SpmcThreads.run n 2 (replicate 4 SpmcThreads.OwnerStep)
                (SpmcThreads.State m (SpmcThreads.PushLoadTail o)
                   [SpmcThreads.TIdle; SpmcThreads.TIdle] tr) =
              SpmcThreads.run n 2 (replicate 3 SpmcThreads.OwnerStep)
                (SpmcThreads.State m (SpmcThreads.PushLoadHead o (SpmcQueue.tail_ m))
                   [SpmcThreads.TIdle; SpmcThreads.TIdle] (tr ++ []))).
    { done. }
    rewrite H2. vm_compute (SpmcThreads.run n 2 (replicate 3 _) _).
    cbn [mbind option_bind]. rewrite deque_run_app.
    assert (H3 : ∀ m tr,
              SpmcThreads.run n 2 [SpmcThreads.OwnerPush b]
                (SpmcThreads.State m SpmcThreads.OIdle
                   [SpmcThreads.TIdle; SpmcThreads.TIdle] tr) =
              Some (SpmcThreads.State m (SpmcThreads.PushLoadTail b)
                      [SpmcThreads.TIdle; SpmcThreads.TIdle] tr)).
    { intros m tr. cbn. by rewrite decide_False. }
    rewrite H3. cbn [mbind option_bind]. rewrite deque_run_app.
    rewrite H2. vm_compute (SpmcThreads.run n 2 (replicate 3 _) _).
    cbn [mbind option_bind]. vm_compute. reflexivity. }
  split; [reflexivity|]. split.
  { split; [reflexivity|]. repeat constructor. }
  split; [reflexivity|]. split; reflexivity.
Qed.

Lemma X24_deque_steal_loses_race_witness :
  ∃ s,
    SpmcThreads.run 0 2 (SpmcRaces.lost_race 11 12) (SpmcThreads.init 0 2 2) = Some s ∧
    SpmcThreads.trace s =
      [SpmcThreads.PushReturned 11 true; SpmcThreads.PushReturned 12 true;
       SpmcThreads.StealReturned 0 11; SpmcThreads.StealReturned 1 0] ∧
    SpmcThreads.quiescent s ∧
    SpmcQueue.size (SpmcThreads.mem s) = 1 ∧
    SpmcQueue.empty (SpmcThreads.mem s) = false ∧
    SpmcQueue.steal 0 2 (SpmcThreads.mem s) =
      (SpmcQueue.set_head (SpmcThreads.mem s) 2, 12).
Proof. apply (X24_deque_steal_loses_race Z _ 0 11 12); lia. Defined.

(** ** [StringIntern.h]: the pool across calls *)

Section PoolCallsFacts.
Context (char_signed : bool).

Import StringIntern.
Implicit Types (sp : StringIntern.t) (p : StringPtr) (w l : positive) (h : Z).

Local Abbreviation consistent := PoolCalls.consistent.

(** Locking and releasing again leaves everything as it was. *)
Lemma lock_release sp w : release (lock sp w).1 (lock sp w).2 = sp.
Proof.
  unfold lock. destruct (heap sp !! w) as [cb|] eqn:Hcb; [|done].
  destruct cb as [obj [|n] dh]; [done|]. cbn [use_count object deleter_hash fst snd].
  unfold release. cbn [heap pool_]. rewrite lookup_insert_eq. cbn [use_count].
  cbn [object deleter_hash]. rewrite insert_insert_eq, insert_id by done.
  by destruct sp.
Qed.

Lemma getStringByHash_release sp h :
  release (getStringByHash sp h).1 (getStringByHash sp h).2 = sp.
Proof.
  unfold getStringByHash. destruct (pool_ sp !! h); [apply lock_release|done].
Qed.

Lemma intern_release sp str h :
  release (intern sp str h).1 (intern sp str h).2 = sp.
Proof.
  unfold intern. destruct (pool_ sp !! h) as [w|] eqn:Hw; [apply lock_release|].
  cbn [fst snd]. unfold release. cbn [heap pool_].
  rewrite lookup_insert_eq. cbn [use_count deleter_hash].
  rewrite delete_insert_id by done.
  rewrite delete_insert_id; [by destruct sp|].
  apply not_elem_of_dom, is_fresh.
Qed.

Lemma isStringIntern_unchanged sp str : (isStringIntern char_signed sp str).1 = sp.
Proof.
  unfold isStringIntern.
  pose proof (getStringByHash_release sp (fnv1a_runtime char_signed str)) as H.
  by destruct (getStringByHash sp _) as [sp1 p].
Qed.

Lemma isStringIntern_result sp str :
  (isStringIntern char_signed sp str).2 =
  bool_decide ((getStringByHash sp (fnv1a_runtime char_signed str)).2 ≠ None).
Proof.
  unfold isStringIntern. by destruct (getStringByHash sp _) as [sp1 p].
Qed.

(** *** Consistency is kept *)

Lemma consistent_empty : consistent empty_pool.
Proof. split; intros ? ?; cbn; by rewrite lookup_empty. Qed.

Lemma lock_consistent sp w : consistent sp → consistent (lock sp w).1.
Proof.
  intros [Hp Hh]. unfold lock. destruct (heap sp !! w) as [cb|] eqn:Hcb; [|done].
  destruct (use_count cb) as [|n] eqn:Hn; [done|]. cbn [fst]. split; cbn [pool_ heap].
  - intros h l Hl. destruct (decide (l = w)) as [->|Hne].
    + rewrite lookup_insert_eq. eexists. split; [done|]. cbn.
      destruct (Hp h w Hl) as (cb' & Hcb' & Hdh). by simplify_eq.
    + rewrite lookup_insert_ne by done. by apply Hp.
  - intros l cb'. destruct (decide (l = w)) as [->|Hne].
    + rewrite lookup_insert_eq. intros [= <-]. cbn. split; [|lia].
      by apply Hh.
    + rewrite lookup_insert_ne by done. by apply Hh.
Qed.

Lemma intern_consistent sp str h : consistent sp → consistent (intern sp str h).1.
Proof.
  intros Hc. unfold intern.
  destruct (pool_ sp !! h) as [w|] eqn:Hw; [by apply lock_consistent|].
  destruct Hc as [Hp Hh]. cbn [fst].
  assert (Hfresh : heap sp !! fresh (dom (heap sp)) = None)
    by apply not_elem_of_dom, is_fresh.
  split; cbn [pool_ heap].
  - intros h' l. destruct (decide (h' = h)) as [->|Hne].
    + rewrite lookup_insert_eq. intros [= <-]. rewrite lookup_insert_eq. by eexists.
    + rewrite lookup_insert_ne by done. intros Hl.
      destruct (Hp h' l Hl) as (cb & Hcb & Hdh).
      rewrite lookup_insert_ne by congruence. by eexists.
  - intros l cb. destruct (decide (l = fresh (dom (heap sp)))) as [->|Hne].
    + rewrite lookup_insert_eq. intros [= <-]. cbn.
      rewrite lookup_insert_eq. split; [done|lia].
    + rewrite lookup_insert_ne by done. intros Hcb.
      destruct (Hh l cb Hcb) as [Hl Hpos]. split; [|done].
      rewrite lookup_insert_ne by congruence. done.
Qed.

Lemma getStringByHash_consistent sp h :
  consistent sp → consistent (getStringByHash sp h).1.
Proof.
  intros Hc. unfold getStringByHash.
  destruct (pool_ sp !! h); [by apply lock_consistent|done].
Qed.

Lemma release_consistent sp p : consistent sp → consistent (release sp p).
Proof.
  intros [Hp Hh]. unfold release. destruct p as [l|]; [|done].
  destruct (heap sp !! l) as [cb|] eqn:Hcb; [|done].
  destruct (Hh l cb Hcb) as [Hl Hpos].
  assert (Hdel : consistent (Mk (delete (deleter_hash cb) (pool_ sp)) (delete l (heap sp)))).
  { split; cbn [pool_ heap].
    - intros h l'. destruct (decide (h = deleter_hash cb)) as [->|Hne].
      + by rewrite lookup_delete_eq.
      + rewrite lookup_delete_ne by done. intros Hl'.
        destruct (Hp h l' Hl') as (cb' & Hcb' & Hdh).
        rewrite lookup_delete_ne; [by eexists|].
        intros <-. simplify_eq.
    - intros l' cb'. destruct (decide (l' = l)) as [->|Hne].
      + by rewrite lookup_delete_eq.
      + rewrite lookup_delete_ne by done. intros Hcb'.
        destruct (Hh l' cb' Hcb') as [Hl' Hpos']. split; [|done].
        rewrite lookup_delete_ne; [done|].
        intros Heq. rewrite Heq in Hl. simplify_eq. }
  destruct (use_count cb) as [|[|n]] eqn:Hn; [done|done|].
  split; cbn [pool_ heap].
  - intros h l' Hl'. destruct (decide (l' = l)) as [->|Hne].
    + rewrite lookup_insert_eq. eexists. split; [done|]. cbn.
      destruct (Hp h l Hl') as (cb' & Hcb' & Hdh). by simplify_eq.
    + rewrite lookup_insert_ne by done. by apply Hp.
  - intros l' cb'. destruct (decide (l' = l)) as [->|Hne].
    + rewrite lookup_insert_eq. intros [= <-]. cbn. split; [done|lia].
    + rewrite lookup_insert_ne by done. by apply Hh.
Qed.

Lemma call_consistent sp (o : PoolCalls.op) :
  consistent sp → consistent (PoolCalls.call char_signed sp o).1.
Proof.
  intros Hc. destruct o as [arg|arg|str|str h|h|str|p]; cbn [PoolCalls.call fst].
  - by apply intern_consistent.
  - by apply intern_consistent.
  - by apply intern_consistent.
  - by apply intern_consistent.
  - by apply getStringByHash_consistent.
  - by rewrite isStringIntern_unchanged.
  - by apply release_consistent.
Qed.

Lemma run_consistent (ops : list PoolCalls.op) sp :
  consistent sp → consistent (PoolCalls.run char_signed ops sp).1.
Proof.
  revert sp. induction ops as [|o ops IH]; intros sp Hc; [done|].
  cbn [PoolCalls.run fst]. apply IH. by apply call_consistent.
Qed.

(** *** What [intern] returns in a consistent pool *)

(** Under a hash with an entry, [intern] returns the object of the entry,
    with one owner more. *)
Lemma intern_found sp str h w :
  consistent sp → pool_ sp !! h = Some w →
  ∃ cb, heap sp !! w = Some cb ∧ deleter_hash cb = h ∧
    intern sp str h =
      (Mk (pool_ sp)
          (<[w := MkBlock (object cb) (S (use_count cb)) (deleter_hash cb)]> (heap sp)),
       Some w).
Proof.
  intros [Hp Hh] Hw. destruct (Hp h w Hw) as (cb & Hcb & Hdh).
  destruct (Hh w cb Hcb) as [_ Hpos].
  exists cb. split; [done|]. split; [done|].
  unfold intern. rewrite Hw. by apply lock_alive.
Qed.

Lemma getStringByHash_found sp h w :
  consistent sp → pool_ sp !! h = Some w →
  (getStringByHash sp h).2 = Some w.
Proof.
  intros [Hp Hh] Hw. destruct (Hp h w Hw) as (cb & Hcb & Hdh).
  destruct (Hh w cb Hcb) as [_ Hpos].
  unfold getStringByHash. rewrite Hw. by rewrite (lock_alive sp w cb).
Qed.

(** [intern] never returns [nullptr], and afterwards the table has the
    returned object under the hash. *)
Lemma intern_entry sp str h :
  consistent sp →
  ∃ l, (intern sp str h).2 = Some l ∧ pool_ (intern sp str h).1 !! h = Some l.
Proof.
  intros Hc. destruct (pool_ sp !! h) as [w|] eqn:Hw.
  - destruct (intern_found sp str h w Hc Hw) as (cb & _ & _ & ->). by exists w.
  - unfold intern. rewrite Hw. eexists. split; [done|]. cbn. by rewrite lookup_insert_eq.
Qed.

(** The table maps different hashes to different objects. *)
Lemma pool_injective sp h1 h2 l :
  consistent sp → pool_ sp !! h1 = Some l → pool_ sp !! h2 = Some l → h1 = h2.
Proof.
  intros [Hp _] H1 H2.
  destruct (Hp h1 l H1) as (cb1 & Hcb1 & <-).
  destruct (Hp h2 l H2) as (cb2 & Hcb2 & <-). by simplify_eq.
Qed.

(** A call of [intern] keeps the entries of the other hashes. *)
Lemma intern_pool_other sp str h h' :
  consistent sp → h' ≠ h → pool_ (intern sp str h).1 !! h' = pool_ sp !! h'.
Proof.
  intros Hc Hne. destruct (pool_ sp !! h) as [w|] eqn:Hw.
  - by destruct (intern_found sp str h w Hc Hw) as (cb & _ & _ & ->).
  - unfold intern. rewrite Hw. cbn. by rewrite lookup_insert_ne.
Qed.

Lemma intern_pool_same sp str h w :
  consistent sp → pool_ sp !! h = Some w → pool_ (intern sp str h).1 = pool_ sp.
Proof.
  intros Hc Hw. by destruct (intern_found sp str h w Hc Hw) as (cb & _ & _ & ->).
Qed.

(** *** C strings *)

Lemma c_str_idemp (s : string) : c_str (c_str s) = c_str s.
Proof.
  induction s as [|c s IH]; [done|]. cbn [c_str].
  destruct (Ascii.eqb c Ascii.zero) eqn:Hc; [done|].
  cbn [c_str]. by rewrite Hc, IH.
Qed.

End PoolCallsFacts.

Section PoolTheoremsFacts.
Context (char_signed : bool).

Import StringIntern.

(** Two calls of [intern] in a row return the same object exactly when they
    are given the same hash. *)
Lemma intern_twice sp s1 h1 s2 h2 :
  PoolCalls.consistent sp →
  (intern sp s1 h1).2 = (intern (intern sp s1 h1).1 s2 h2).2 ↔ h1 = h2.
Proof.
  intros Hc.
  pose proof (intern_consistent sp s1 h1 Hc) as Hc1.
  destruct (intern_entry sp s1 h1 Hc) as (l1 & Hr1 & Hp1).
  destruct (intern_entry _ s2 h2 Hc1) as (l2 & Hr2 & Hp2).
  pose proof (intern_consistent _ s2 h2 Hc1) as Hc2.
  rewrite Hr1, Hr2. split.
  - intros [= <-]. destruct (decide (h1 = h2)) as [|Hne]; [done|].
    apply (pool_injective _ h1 h2 l1 Hc2); [|done].
    by rewrite intern_pool_other.
  - intros <-. destruct (intern_found _ s2 h1 l1 Hc1 Hp1) as (cb & _ & _ & Hi).
    rewrite Hi in Hr2. by rewrite <- Hr2.
Qed.

Lemma StringRef_of_string_fst sp arg :
  (StringRef_of_string char_signed sp arg).1 = (try_emplace char_signed sp arg).1.
Proof. unfold StringRef_of_string. by destruct (try_emplace _ _ _). Qed.

Lemma StringRef_of_string_ptr sp arg :
  ptr_ (StringRef_of_string char_signed sp arg).2 = (try_emplace char_signed sp arg).2.
Proof. unfold StringRef_of_string. by destruct (try_emplace _ _ _). Qed.

Lemma StringRef_of_chars_ptr sp arg :
  ptr_ (StringRef_of_chars char_signed sp arg).2 =
  (try_emplace_chars char_signed sp arg).2.
Proof. unfold StringRef_of_chars. by destruct (try_emplace_chars _ _ _). Qed.

End PoolTheoremsFacts.

(** X13.  In every state of the pool reached from the empty pool by any
    sequence of [try_emplace], [_hs], [intern], [getStringByHash] and
    [isStringIntern] calls and destructions of [StringPtr]s, made one after
    the other: every entry of the table points to an object whose deleter
    erases the hash of that entry, and every object has at least one owner
    and is the object the entry under its hash points to.  In such a state
    [intern] never returns [nullptr]. *)
Theorem X13_pool_consistency :
  ∀ (char_signed : bool) (ops : list PoolCalls.op) (str : string) (hash : Z),
    PoolCalls.consistent (PoolCalls.run char_signed ops StringIntern.empty_pool).1 ∧
    (StringIntern.intern
       (PoolCalls.run char_signed ops StringIntern.empty_pool).1 str hash).2 ≠ None.
Proof.
  intros char_signed ops str hash.
  assert (Hc : PoolCalls.consistent
                 (PoolCalls.run char_signed ops StringIntern.empty_pool).1)
    by apply run_consistent, consistent_empty.
  split; [done|].
  destruct (intern_entry _ str hash Hc) as (l & -> & _). done.
Qed.

(** X14.  Interning and looking up.  In every state of the pool reached by
    calls, [try_emplace(arg)] returns a pointer that is not null, and right
    after it [isStringIntern(arg)] returns [true] and leaves the pool as it
    is, and [getStringByHash] of the hash of [arg] returns the same
    object. *)
Theorem X14_pool_intern_then_lookup :
  ∀ (char_signed : bool) (ops : list PoolCalls.op) (arg : string),
    (StringIntern.try_emplace char_signed
       (PoolCalls.run char_signed ops StringIntern.empty_pool).1 arg).2 ≠ None ∧
    StringIntern.isStringIntern char_signed
      (StringIntern.try_emplace char_signed
         (PoolCalls.run char_signed ops StringIntern.empty_pool).1 arg).1 arg =
      ((StringIntern.try_emplace char_signed
          (PoolCalls.run char_signed ops StringIntern.empty_pool).1 arg).1, true) ∧
    (StringIntern.getStringByHash
       (StringIntern.try_emplace char_signed
          (PoolCalls.run char_signed ops StringIntern.empty_pool).1 arg).1
       (StringIntern.fnv1a_runtime char_signed arg)).2 =
    (StringIntern.try_emplace char_signed
       (PoolCalls.run char_signed ops StringIntern.empty_pool).1 arg).2.
Proof.
  intros char_signed ops arg.
  set (sp := (PoolCalls.run char_signed ops StringIntern.empty_pool).1).
  assert (Hc : PoolCalls.consistent sp) by apply run_consistent, consistent_empty.
  unfold StringIntern.try_emplace.
  set (str := StringIntern.c_str arg). set (h := StringIntern.fnv1a char_signed arg).
  pose proof (intern_consistent sp str h Hc) as Hc1.
  destruct (intern_entry sp str h Hc) as (l & Hr & Hp).
  assert (Hget : (StringIntern.getStringByHash (StringIntern.intern sp str h).1
                    (StringIntern.fnv1a_runtime char_signed arg)).2 = Some l).
  { change (StringIntern.fnv1a_runtime char_signed arg) with h.
    by apply getStringByHash_found. }
  rewrite Hr. split; [done|]. split; [|done].
  rewrite (surjective_pairing (StringIntern.isStringIntern _ _ _)).
  rewrite isStringIntern_unchanged, isStringIntern_result, Hget. done.
Qed.

(** X15.  No call leaves a trace once its pointer is gone.  In any state of
    the pool, [intern], [try_emplace], [_hs] and [getStringByHash] followed
    by the destruction of the [StringPtr] they returned leave the table and
    the objects exactly as they were before the call, and [isStringIntern]
    alone leaves them as they were. *)
Theorem X15_pool_release_undoes :
  ∀ (char_signed : bool) (sp : StringIntern.t) (str : string) (hash : Z),
    StringIntern.release (StringIntern.intern sp str hash).1
      (StringIntern.intern sp str hash).2 = sp ∧
    StringIntern.release (StringIntern.try_emplace char_signed sp str).1
      (StringIntern.try_emplace char_signed sp str).2 = sp ∧
    StringIntern.release (StringIntern.try_emplace_chars char_signed sp str).1
      (StringIntern.try_emplace_chars char_signed sp str).2 = sp ∧
    StringIntern.release (StringIntern.operator_hs char_signed sp str).1
      (StringIntern.operator_hs char_signed sp str).2 = sp ∧
    StringIntern.release (StringIntern.getStringByHash sp hash).1
      (StringIntern.getStringByHash sp hash).2 = sp ∧
    (StringIntern.isStringIntern char_signed sp str).1 = sp.
Proof.
  intros char_signed sp str hash.
  repeat split;
    first [apply intern_release | apply getStringByHash_release
          | apply isStringIntern_unchanged].
Qed.

(** X16.  [StringRef] compares hashes.  In every state of the pool reached
    by calls, for a [StringRef] built from a [std::string] [a] and, right
    after it, a [StringRef] built from a [std::string] [b], [operator==]
    returns [true] exactly when [fnv1a a = fnv1a b]; when the second is
    built from a character array [b], exactly when [fnv1a a] is the hash of
    the characters of [b] before its first NUL.  [operator!=] returns the
    negation. *)
Theorem X16_stringref_equality :
  ∀ (char_signed : bool) (ops : list PoolCalls.op) (a b : string),
    StringIntern.StringRef_eq
      (StringIntern.StringRef_of_string char_signed
         (PoolCalls.run char_signed ops StringIntern.empty_pool).1 a).2
      (StringIntern.StringRef_of_string char_signed
         (StringIntern.StringRef_of_string char_signed
            (PoolCalls.run char_signed ops StringIntern.empty_pool).1 a).1 b).2
    = bool_decide (StringIntern.fnv1a char_signed a = StringIntern.fnv1a char_signed b) ∧
    StringIntern.StringRef_eq
      (StringIntern.StringRef_of_string char_signed
         (PoolCalls.run char_signed ops StringIntern.empty_pool).1 a).2
      (StringIntern.StringRef_of_chars char_signed
         (StringIntern.StringRef_of_string char_signed
            (PoolCalls.run char_signed ops StringIntern.empty_pool).1 a).1 b).2
    = bool_decide (StringIntern.fnv1a char_signed a =
                   StringIntern.fnv1a char_signed (StringIntern.c_str b)) ∧
    (∀ r1 r2, StringIntern.StringRef_ne r1 r2 = negb (StringIntern.StringRef_eq r1 r2)).
Proof.
  intros char_signed ops a b.
  set (sp := (PoolCalls.run char_signed ops StringIntern.empty_pool).1).
  assert (Hc : PoolCalls.consistent sp) by apply run_consistent, consistent_empty.
  unfold StringIntern.StringRef_eq, StringIntern.StringRef_ne.
  rewrite !StringRef_of_string_ptr, StringRef_of_chars_ptr, StringRef_of_string_fst.
  unfold StringIntern.try_emplace, StringIntern.try_emplace_chars.
  split; [|split].
  - apply bool_decide_ext. by apply intern_twice.
  - apply bool_decide_ext. by apply intern_twice.
  - intros r1 r2. by rewrite bool_decide_not.
Qed.

(** X17.  What [try_emplace] does, by what [isStringIntern] says before
    it.  In every state of the pool reached by calls: when
    [isStringIntern(arg)] is [false], [try_emplace(arg)] creates an object
    with one owner whose text is [arg] up to its first NUL and enters it in
    the table under the hash of the whole of [arg]; when it is [true],
    [try_emplace(arg)] returns the object [getStringByHash] finds under that
    hash, leaves its text and the table as they are and adds one owner. *)
Theorem X17_pool_try_emplace :
  ∀ (char_signed : bool) (ops : list PoolCalls.op) (arg : string),
    ((StringIntern.isStringIntern char_signed
        (PoolCalls.run char_signed ops StringIntern.empty_pool).1 arg).2 = false →
     ∃ l,
       StringIntern.try_emplace char_signed
         (PoolCalls.run char_signed ops StringIntern.empty_pool).1 arg =
       (StringIntern.Mk
          (<[StringIntern.fnv1a char_signed arg := l]>
             (StringIntern.pool_ (PoolCalls.run char_signed ops StringIntern.empty_pool).1))
          (<[l := StringIntern.MkBlock (StringIntern.MkString (StringIntern.c_str arg)) 1
                    (StringIntern.fnv1a char_signed arg)]>
             (StringIntern.heap (PoolCalls.run char_signed ops StringIntern.empty_pool).1)),
        Some l) ∧
       StringIntern.heap (PoolCalls.run char_signed ops StringIntern.empty_pool).1 !! l
         = None) ∧
    ((StringIntern.isStringIntern char_signed
        (PoolCalls.run char_signed ops StringIntern.empty_pool).1 arg).2 = true →
     ∃ l cb,
       (StringIntern.getStringByHash
          (PoolCalls.run char_signed ops StringIntern.empty_pool).1
          (StringIntern.fnv1a_runtime char_signed arg)).2 = Some l ∧
       StringIntern.heap (PoolCalls.run char_signed ops StringIntern.empty_pool).1 !! l
         = Some cb ∧
       StringIntern.try_emplace char_signed
         (PoolCalls.run char_signed ops StringIntern.empty_pool).1 arg =
       (StringIntern.Mk
          (StringIntern.pool_ (PoolCalls.run char_signed ops StringIntern.empty_pool).1)
          (<[l := StringIntern.MkBlock (StringIntern.object cb)
                    (S (StringIntern.use_count cb)) (StringIntern.deleter_hash cb)]>
             (StringIntern.heap (PoolCalls.run char_signed ops StringIntern.empty_pool).1)),
        Some l)).
Proof.
  intros char_signed ops arg.
  set (sp := (PoolCalls.run char_signed ops StringIntern.empty_pool).1).
  assert (Hc : PoolCalls.consistent sp) by apply run_consistent, consistent_empty.
  rewrite isStringIntern_result.
  change (StringIntern.fnv1a_runtime char_signed arg)
    with (StringIntern.fnv1a char_signed arg).
  unfold StringIntern.try_emplace.
  set (h := StringIntern.fnv1a char_signed arg).
  destruct (StringIntern.pool_ sp !! h) as [w|] eqn:Hw.
  - rewrite (getStringByHash_found sp h w Hc Hw). split.
    { intros Hf%bool_decide_eq_false. by destruct Hf. }
    intros _. destruct (intern_found sp (StringIntern.c_str arg) h w Hc Hw)
      as (cb & Hcb & _ & Hi).
    by exists w, cb.
  - split.
    + intros _. exists (fresh (dom (StringIntern.heap sp))).
      unfold StringIntern.intern. rewrite Hw. split; [done|].
      apply not_elem_of_dom, is_fresh.
    + unfold StringIntern.getStringByHash. rewrite Hw. cbn.
      intros Ht. discriminate Ht.
Qed.

(** X25.  [intern] can return [nullptr] when it runs between the two parts
    of the destruction of the last owner.  Let [try_emplace(arg)] create an
    object in a pool reached by calls ([isStringIntern(arg)] was [false]).
    Destroying the returned pointer is: the owner count drops to zero, then
    the deleter erases the entry and deletes the object.  In the state
    between the two, the entry is still in the table but its weak pointer
    has expired: [try_emplace(arg)] returns [nullptr] and changes nothing,
    and [isStringIntern(arg)] returns [false].  Once the deleter has run the
    pool is as before the first call. *)
Theorem X25_pool_intern_during_destruction :
  ∀ (char_signed : bool) (ops : list PoolCalls.op) (arg : string),
    (StringIntern.isStringIntern char_signed
       (PoolCalls.run char_signed ops StringIntern.empty_pool).1 arg).2 = false →
    ∃ l,
      (StringIntern.try_emplace char_signed
         (PoolCalls.run char_signed ops StringIntern.empty_pool).1 arg).2 = Some l ∧
      StringIntern.release
        (StringIntern.try_emplace char_signed
           (PoolCalls.run char_signed ops StringIntern.empty_pool).1 arg).1 (Some l) =
      StringIntern.run_deleter
        (StringIntern.drop_last_owner
           (StringIntern.try_emplace char_signed
              (PoolCalls.run char_signed ops StringIntern.empty_pool).1 arg).1 l) l ∧
      StringIntern.try_emplace char_signed
        (StringIntern.drop_last_owner
           (StringIntern.try_emplace char_signed
              (PoolCalls.run char_signed ops StringIntern.empty_pool).1 arg).1 l) arg =
      (StringIntern.drop_last_owner
         (StringIntern.try_emplace char_signed
            (PoolCalls.run char_signed ops StringIntern.empty_pool).1 arg).1 l, None) ∧
      (StringIntern.isStringIntern char_signed
         (StringIntern.drop_last_owner
            (StringIntern.try_emplace char_signed
               (PoolCalls.run char_signed ops StringIntern.empty_pool).1 arg).1 l) arg).2
      = false ∧
      StringIntern.run_deleter
        (StringIntern.drop_last_owner
           (StringIntern.try_emplace char_signed
              (PoolCalls.run char_signed ops StringIntern.empty_pool).1 arg).1 l) l =
      (PoolCalls.run char_signed ops StringIntern.empty_pool).1.
Proof.
  intros char_signed ops arg.
  set (sp := (PoolCalls.run char_signed ops StringIntern.empty_pool).1).
  assert (Hc : PoolCalls.consistent sp) by apply run_consistent, consistent_empty.
  rewrite isStringIntern_result.
  change (StringIntern.fnv1a_runtime char_signed arg)
    with (StringIntern.fnv1a char_signed arg).
  set (h := StringIntern.fnv1a char_signed arg).
  set (str := StringIntern.c_str arg).
  destruct (StringIntern.pool_ sp !! h) as [w|] eqn:Hw.
  { rewrite (getStringByHash_found sp h w Hc Hw).
    intros Hf%bool_decide_eq_false. by destruct Hf. }
  intros _.
  assert (Hfresh : StringIntern.heap sp !! fresh (dom (StringIntern.heap sp)) = None)
    by apply not_elem_of_dom, is_fresh.
  set (l := fresh (dom (StringIntern.heap sp))) in *.
  assert (Hi : StringIntern.intern sp str h =
            (StringIntern.Mk (<[h := l]> (StringIntern.pool_ sp))
               (<[l := StringIntern.MkBlock (StringIntern.MkString str) 1 h]>
                  (StringIntern.heap sp)), Some l)).
  { unfold StringIntern.intern. by rewrite Hw. }
  change (StringIntern.try_emplace char_signed sp arg)
    with (StringIntern.intern sp str h).
  rewrite Hi. cbn [fst snd]. exists l. split; [done|].
  assert (Hdrop : StringIntern.drop_last_owner
            (StringIntern.Mk (<[h := l]> (StringIntern.pool_ sp))
               (<[l := StringIntern.MkBlock (StringIntern.MkString str) 1 h]>
                  (StringIntern.heap sp))) l =
            StringIntern.Mk (<[h := l]> (StringIntern.pool_ sp))
               (<[l := StringIntern.MkBlock (StringIntern.MkString str) 0 h]>
                  (StringIntern.heap sp))).
  { unfold StringIntern.drop_last_owner. cbn [StringIntern.heap StringIntern.pool_].
    rewrite lookup_insert_eq. cbn. by rewrite insert_insert_eq. }
  rewrite Hdrop.
  assert (Hdel : StringIntern.run_deleter
            (StringIntern.Mk (<[h := l]> (StringIntern.pool_ sp))
               (<[l := StringIntern.MkBlock (StringIntern.MkString str) 0 h]>
                  (StringIntern.heap sp))) l = sp).
  { unfold StringIntern.run_deleter. cbn [StringIntern.heap StringIntern.pool_].
    rewrite lookup_insert_eq. cbn.
    rewrite !delete_insert_id by done. by destruct sp. }
  rewrite Hdel. split.
  { unfold StringIntern.release. cbn [StringIntern.heap StringIntern.pool_].
    rewrite lookup_insert_eq. cbn.
    rewrite !delete_insert_id by done. by destruct sp. }
  split.
  { unfold StringIntern.try_emplace, StringIntern.intern.
    cbn [StringIntern.heap StringIntern.pool_]. fold h.
    rewrite lookup_insert_eq. unfold StringIntern.lock.
    cbn [StringIntern.heap StringIntern.pool_]. rewrite lookup_insert_eq.
    reflexivity. }
  split; [|done].
  rewrite isStringIntern_result.
  change (StringIntern.fnv1a_runtime char_signed arg) with h.
  unfold StringIntern.getStringByHash. cbn [StringIntern.heap StringIntern.pool_].
  rewrite lookup_insert_eq. unfold StringIntern.lock.
  cbn [StringIntern.heap StringIntern.pool_]. rewrite lookup_insert_eq.
  reflexivity.
Qed.

Lemma X25_pool_intern_during_destruction_witness :
  ∃ l,
    (StringIntern.try_emplace true
       (PoolCalls.run true [] StringIntern.empty_pool).1 "hello").2 = Some l ∧
    StringIntern.release
      (StringIntern.try_emplace true
         (PoolCalls.run true [] StringIntern.empty_pool).1 "hello").1 (Some l) =
    StringIntern.run_deleter
      (StringIntern.drop_last_owner
         (StringIntern.try_emplace true
            (PoolCalls.run true [] StringIntern.empty_pool).1 "hello").1 l) l ∧
    StringIntern.try_emplace true
      (StringIntern.drop_last_owner
         (StringIntern.try_emplace true
            (PoolCalls.run true [] StringIntern.empty_pool).1 "hello").1 l) "hello" =
    (StringIntern.drop_last_owner
       (StringIntern.try_emplace true
          (PoolCalls.run true [] StringIntern.empty_pool).1 "hello").1 l, None) ∧
    (StringIntern.isStringIntern true
       (StringIntern.drop_last_owner
          (StringIntern.try_emplace true
             (PoolCalls.run true [] StringIntern.empty_pool).1 "hello").1 l) "hello").2
    = false ∧
    StringIntern.run_deleter
      (StringIntern.drop_last_owner
         (StringIntern.try_emplace true
            (PoolCalls.run true [] StringIntern.empty_pool).1 "hello").1 l) l =
    (PoolCalls.run true [] StringIntern.empty_pool).1.
Proof. apply (X25_pool_intern_during_destruction true [] "hello"). reflexivity. Defined.

(** ** [StringIntern.h]: the hash *)

Section HashFacts.

Import StringIntern.

Lemma uint32_range z : 0 ≤ uint32 z < 2 ^ 32.
Proof. unfold uint32. apply Z.mod_pos_bound. lia. Qed.

Lemma fnv1a_loop_range char_signed (s : string) hash :
  0 ≤ hash < 2 ^ 32 → 0 ≤ fnv1a_loop char_signed s hash < 2 ^ 32.
Proof.
  revert hash. induction s as [|c s IH]; intros hash Hh; [done|].
  cbn [fnv1a_loop]. apply IH, uint32_range.
Qed.

Lemma fnv1a_loop_app char_signed (s1 s2 : string) hash :
  fnv1a_loop char_signed (s1 +:+ s2) hash =
  fnv1a_loop char_signed s2 (fnv1a_loop char_signed s1 hash).
Proof.
  revert hash. induction s1 as [|c s1 IH]; intros hash; [done|].
  cbn [String.app fnv1a_loop]. apply IH.
Qed.

Lemma fnv1a_loop_seven_bit (s : string) hash :
  seven_bit s = true → fnv1a_loop true s hash = fnv1a_loop false s hash.
Proof.
  revert hash. induction s as [|c s IH]; intros hash Hs; [done|].
  cbn [seven_bit] in Hs. apply andb_true_iff in Hs as [Hc Hs].
  cbn [fnv1a_loop]. rewrite IH by done. do 3 f_equal.
  unfold char_value. apply Z.ltb_lt in Hc.
  destruct (Z.leb_spec 128 (Z.of_N (Ascii.N_of_ascii c))); [lia|done].
Qed.

End HashFacts.

(** X18.  [fnv1a] and [fnv1a_runtime] compute the same value for every
    text, a value between 0 and [2^32 - 1]; the hash of a concatenation is
    the loop continued over the second text from the hash of the first.  On
    a text whose characters are all below 128 the value does not depend on
    whether plain [char] is signed; on other texts it can: the one-character
    text with the character 128 hashes differently under the two
    conventions. *)
Theorem X18_fnv1a :
  ∀ (char_signed : bool) (s1 s2 : string),
    StringIntern.fnv1a_runtime char_signed s1 = StringIntern.fnv1a char_signed s1 ∧
    0 ≤ StringIntern.fnv1a char_signed s1 < 2 ^ 32 ∧
    StringIntern.fnv1a char_signed (s1 +:+ s2) =
      StringIntern.fnv1a_loop char_signed s2 (StringIntern.fnv1a char_signed s1) ∧
    (StringIntern.seven_bit s1 = true →
     StringIntern.fnv1a true s1 = StringIntern.fnv1a false s1) ∧
    StringIntern.fnv1a true (String (Ascii.ascii_of_N 128) EmptyString) ≠
      StringIntern.fnv1a false (String (Ascii.ascii_of_N 128) EmptyString).
Proof.
  intros char_signed s1 s2. split; [done|]. split.
  { apply fnv1a_loop_range. done. }
  split; [apply fnv1a_loop_app|]. split.
  - apply fnv1a_loop_seven_bit.
  - vm_compute. discriminate.
Qed.

(** ** [Queue.h]: [SPSCQueue] with a producer thread and a consumer thread *)

Section SPSCThreadsFacts.
Context {T : Type}.
Context (T0 : T).
Context (C : Z).
Context (HC : SizeT.pow2 C).

Import SPSCQueue SPSCThreads.
Implicit Types (m : SPSCQueue.t (T:=T)) (tr evs : list (event (T:=T))).

Local Abbreviation wf := (SPSCProgram.wf (T:=T) C).
Local Abbreviation count := (SPSCProgram.count (T:=T) C).
Local Abbreviation contents := (SPSCProgram.contents T0 C).
Local Abbreviation Inv := (SPSCThreads.Inv T0 C).
Local Abbreviation producer_inv := (SPSCThreads.producer_inv (T:=T) C).
Local Abbreviation consumer_inv := (SPSCThreads.consumer_inv (T:=T) C).

(** *** The ring under the two index updates *)

Lemma spsc_count_zero m : wf m → (count m = 0 ↔ head m = tail m).
Proof.
  intros Hwf. pose proof (spsc_empty_count C m Hwf) as He.
  destruct (Z.eqb_spec (head m) (tail m)), (Z.eqb_spec (count m) 0); done.
Qed.

Lemma spsc_slot_behind m : wf m → (head m + count m) mod C = tail m.
Proof.
  intros (_ & _ & Hh & Ht). unfold SPSCProgram.count.
  rewrite Zplus_mod_idemp_r.
  replace (head m + (tail m - head m)) with (tail m) by lia.
  apply Z.mod_small. lia.
Qed.

Lemma spsc_contents_store m v :
  wf m →
  contents (set_data m (<[Z.to_nat (tail m) := v]> (data m))) = contents m.
Proof.
  intros Hwf. pose proof (spsc_count_range C m Hwf) as Hcount.
  pose proof Hwf as (_ & _ & Hh & Ht).
  unfold SPSCProgram.contents.
  change (SPSCProgram.count C (set_data m _)) with (count m).
  cbn [set_data data head].
  rewrite <- (spsc_slot_behind m Hwf) at 1.
  rewrite <- (Z2Nat.id (count m)) at 1 by lia.
  apply ring_slice_insert_behind; lia.
Qed.

Lemma spsc_advance_tail m v :
  wf m → count m ≠ C - 1 → data m !! Z.to_nat (tail m) = Some v →
  wf (set_tail m ((tail m + 1) mod C)) ∧
  count (set_tail m ((tail m + 1) mod C)) = count m + 1 ∧
  contents (set_tail m ((tail m + 1) mod C)) = contents m ++ [v].
Proof.
  intros Hwf Hc Hv. pose proof (spsc_count_range C m Hwf) as Hcount.
  pose proof Hwf as (Hlen & Hmask & Hh & Ht).
  assert (Hnext : 0 ≤ (tail m + 1) mod C < C) by (apply Z.mod_pos_bound; lia).
  assert (Hc' : count (set_tail m ((tail m + 1) mod C)) = count m + 1).
  { unfold SPSCProgram.count in *. cbn [set_tail head tail].
    revert Hc. rewrite mod_succ_cases by lia.
    destruct (Z.ltb_spec (tail m + 1) C);
      rewrite !mod_sub_cases by lia; repeat case_match; lia. }
  split; [done|]. split; [done|].
  unfold SPSCProgram.contents. rewrite Hc'. cbn [set_tail data head].
  replace (Z.to_nat (count m + 1)) with (S (Z.to_nat (count m))) by lia.
  rewrite (ring_slice_snoc T0 _ C) by lia.
  rewrite Z2Nat.id by lia. rewrite (spsc_slot_behind m Hwf), Hv. done.
Qed.

Lemma spsc_advance_head m x :
  wf m → count m ≠ 0 → data m !! Z.to_nat (head m) = Some x →
  wf (set_head m ((head m + 1) mod C)) ∧
  count (set_head m ((head m + 1) mod C)) = count m - 1 ∧
  contents m = x :: contents (set_head m ((head m + 1) mod C)).
Proof.
  intros Hwf Hc Hx. pose proof (spsc_count_range C m Hwf) as Hcount.
  pose proof Hwf as (Hlen & Hmask & Hh & Ht).
  assert (Hnext : 0 ≤ (head m + 1) mod C < C) by (apply Z.mod_pos_bound; lia).
  assert (Hc' : count (set_head m ((head m + 1) mod C)) = count m - 1).
  { unfold SPSCProgram.count in *. cbn [set_head head tail].
    revert Hc. rewrite mod_succ_cases by lia.
    destruct (Z.ltb_spec (head m + 1) C);
      rewrite !mod_sub_cases by lia; repeat case_match; lia. }
  split; [done|]. split; [done|].
  unfold SPSCProgram.contents. rewrite Hc'. cbn [set_head data head].
  replace (Z.to_nat (count m)) with (S (Z.to_nat (count m - 1))) by lia.
  cbn [ring_slice]. by rewrite Hx.
Qed.

Lemma set_tail_same m : set_tail m (tail m) = m.
Proof. by destruct m. Qed.

Lemma set_head_same_spsc m : set_head m (head m) = m.
Proof. by destruct m. Qed.

(** *** Events *)

Lemma spsc_enqueued_app tr evs : enqueued (tr ++ evs) = enqueued tr ++ enqueued evs.
Proof. apply omap_app. Qed.

Lemma spsc_dequeued_app tr evs : dequeued (tr ++ evs) = dequeued tr ++ dequeued evs.
Proof. apply omap_app. Qed.

(** *** Steps of the producer *)

Lemma producer_step_inv sp m pc cs res tr r :
  Inv (State m pc cs res tr) →
  producer_step sp m pc = Some r →
  ∃ m' pc' evs, r = Ret (m', pc', evs) ∧ Inv (State m' pc' cs res (tr ++ evs)).
Proof.
  intros [Hwf Hacc Hp Hcs]. cbn [mem prod cons result trace] in *.
  pose proof Hwf as (Hlen & Hmask & Hh & Ht).
  pose proof (spsc_count_range C m Hwf) as Hcount.
  destruct pc as [|v|v ct|v ct nt|v ct nt]; cbn [producer_step]; [done|..].
  - (* tail.load *)
    intros [= <-]. eexists _, _, _. split; [done|].
    rewrite app_nil_r. by constructor.
  - (* the full test *)
    cbn in Hp. subst ct. rewrite (spsc_full_count C HC m Hwf).
    rewrite Hmask, land_wrap_mask by done.
    destruct (Z.eqb_spec (count m) (C - 1)) as [Hfull|Hroom]; intros [= <-].
    + eexists _, _, _. split; [done|]. constructor; cbn [mem prod cons result trace];
        [done| |done|done].
      rewrite spsc_enqueued_app, spsc_dequeued_app. cbn. by rewrite !app_nil_r.
    + eexists _, _, _. split; [done|]. rewrite app_nil_r. by constructor.
  - (* data[currentTail] = value *)
    cbn in Hp. destruct Hp as (-> & -> & Hroom).
    unfold vec_store. rewrite decide_True by lia. cbn [mbind outcome_bind].
    intros [= <-]. eexists _, _, _. split; [done|]. rewrite app_nil_r.
    constructor; cbn [mem prod cons result trace].
    + unfold SPSCProgram.wf. cbn. by rewrite length_insert.
    + by rewrite spsc_contents_store.
    + cbn. repeat split; try done. rewrite list_lookup_insert_eq by lia. done.
    + destruct cs as [| |ch|ch|ch]; cbn in *; try done.
      destruct Hcs as (-> & Hne & Hres). repeat split; try done.
      rewrite list_lookup_insert_ne; [done|].
      intros Heq. apply Z2Nat.inj in Heq; [|lia..].
      apply Hne. apply spsc_count_zero; done.
  - (* tail.compare_exchange_weak *)
    cbn in Hp. destruct Hp as (-> & -> & Hroom & Hv).
    destruct sp; cbn [compare_exchange_weak].
    + (* a spurious failure: the loop body runs again *)
      intros [= <-]. eexists _, _, _. split; [done|]. rewrite app_nil_r.
      rewrite set_tail_same. by constructor.
    + rewrite compare_exchange_strong_same. intros [= <-].
      destruct (spsc_advance_tail m v Hwf Hroom Hv) as (Hwf' & Hc' & Hcont').
      eexists _, _, _. split; [done|].
      constructor; cbn [mem prod cons result trace].
      * done.
      * rewrite spsc_enqueued_app, spsc_dequeued_app, Hacc, Hcont'. cbn.
        by rewrite app_nil_r, app_assoc.
      * done.
      * destruct cs as [| |ch|ch|ch]; cbn in *; try done.
        -- destruct Hcs as (-> & Hne). split; [done|]. rewrite Hc'. lia.
        -- destruct Hcs as (-> & Hne & Hres). repeat split; try done.
           rewrite Hc'. lia.
Qed.

(** *** Steps of the consumer *)

Lemma consumer_step_inv sp m pc ps res tr r :
  Inv (State m ps pc res tr) →
  consumer_step sp m pc res = Some r →
  ∃ m' pc' res' evs,
    r = Ret (m', pc', res', evs) ∧ Inv (State m' ps pc' res' (tr ++ evs)).
Proof.
  intros [Hwf Hacc Hp Hcs]. cbn [mem prod cons result trace] in *.
  pose proof Hwf as (Hlen & Hmask & Hh & Ht).
  pose proof (spsc_count_range C m Hwf) as Hcount.
  destruct pc as [| |ch|ch|ch]; cbn [consumer_step]; [done|..].
  - (* head.load *)
    intros [= <-]. eexists _, _, _, _. split; [done|].
    rewrite app_nil_r. by constructor.
  - (* the empty test *)
    cbn in Hcs. subst ch. rewrite (spsc_empty_count C m Hwf).
    destruct (Z.eqb_spec (count m) 0) as [Hempty|Hsome]; intros [= <-].
    + eexists _, _, _, _. split; [done|]. constructor; cbn [mem prod cons result trace];
        [done| |done|done].
      rewrite spsc_enqueued_app, spsc_dequeued_app. cbn. by rewrite !app_nil_r.
    + eexists _, _, _, _. split; [done|]. rewrite app_nil_r. by constructor.
  - (* result = data[currentHead] *)
    cbn in Hcs. destruct Hcs as (-> & Hsome).
    unfold vec_load. rewrite decide_True by lia.
    destruct (lookup_lt_is_Some_2 (data m) (Z.to_nat (head m))) as [x Hx]; [lia|].
    rewrite Hx. cbn [mbind outcome_bind]. intros [= <-].
    eexists _, _, _, _. split; [done|]. rewrite app_nil_r. by constructor.
  - (* head.compare_exchange_weak *)
    cbn in Hcs. destruct Hcs as (-> & Hsome & Hres).
    destruct sp; cbn [compare_exchange_weak].
    + intros [= <-]. eexists _, _, _, _. split; [done|]. rewrite app_nil_r.
      rewrite set_head_same_spsc. by constructor.
    + rewrite compare_exchange_strong_same. intros [= <-].
      rewrite Hmask, land_wrap_mask by done.
      destruct (spsc_advance_head m res Hwf Hsome Hres) as (Hwf' & Hc' & Hcont').
      eexists _, _, _, _. split; [done|].
      constructor; cbn [mem prod cons result trace].
      * done.
      * rewrite spsc_enqueued_app, spsc_dequeued_app, Hacc, Hcont'. cbn.
        by rewrite app_nil_r, <- app_assoc.
      * destruct ps as [|v|v ct|v ct nt|v ct nt]; cbn in *; try done.
        -- destruct Hp as (-> & -> & Hroom). repeat split; try done. rewrite Hc'. lia.
        -- destruct Hp as (-> & -> & Hroom & Hv). repeat split; try done.
           rewrite Hc'. lia.
      * done.
Qed.

(** *** Interleavings *)

Lemma spsc_init_inv q0 r0 :
  SPSCQueue.new T0 C = Built q0 → Inv (init q0 r0).
Proof.
  intros Hnew. destruct (spsc_new_wf T0 C HC q0 Hnew) as (Hwf & Hh & Ht).
  constructor; cbn; try done.
  unfold SPSCProgram.contents, SPSCProgram.count. rewrite Hh, Ht.
  rewrite Z.sub_diag, Z.mod_0_l by (apply pow2_range in HC; lia). done.
Qed.

Lemma spsc_exec_inv a s r :
  Inv s → exec a s = Some r → ∃ s', r = Ret s' ∧ Inv s'.
Proof.
  intros HI. destruct s as [m ps cs res tr].
  destruct a as [v|sp| |sp]; cbn [exec mem prod cons result trace].
  - destruct ps; try done. intros [= <-]. eexists. split; [done|].
    destruct HI as [Hwf Hacc Hp Hcs]. by constructor.
  - destruct (producer_step sp m ps) as [r1|] eqn:Hstep; [|done].
    cbn [mbind option_bind]. intros [= <-].
    destruct (producer_step_inv sp m ps cs res tr r1 HI Hstep)
      as (m' & pc' & evs & -> & HI').
    eexists. split; [done|]. exact HI'.
  - destruct cs; try done. intros [= <-]. eexists. split; [done|].
    destruct HI as [Hwf Hacc Hp Hcs]. by constructor.
  - destruct (consumer_step sp m cs res) as [r1|] eqn:Hstep; [|done].
    cbn [mbind option_bind]. intros [= <-].
    destruct (consumer_step_inv sp m cs ps res tr r1 HI Hstep)
      as (m' & pc' & res' & evs & -> & HI').
    eexists. split; [done|]. exact HI'.
Qed.

Lemma spsc_run_inv acts s r :
  Inv s → run acts s = Some r → ∃ s', r = Ret s' ∧ Inv s'.
Proof.
  revert s. induction acts as [|a acts IH]; intros s HI; cbn [run].
  - intros [= <-]. by exists s.
  - destruct (exec a s) as [r1|] eqn:Hexec; [|done].
    destruct (spsc_exec_inv a s r1 HI Hexec) as (s1 & -> & HI1).
    by apply IH.
Qed.

(** The two accesses to [data] never meet on a slot. *)
Lemma spsc_no_conflict s : Inv s → ¬ data_conflict s.
Proof.
  intros [Hwf Hacc Hp Hcs]. unfold data_conflict.
  destruct s as [m ps cs res tr]. cbn [mem prod cons result trace] in *.
  destruct ps as [|v|v ct|v ct nt|v ct nt]; destruct cs as [| |ch|ch|ch];
    try (by intros []).
  cbn in Hp, Hcs. destruct Hp as (-> & _). destruct Hcs as (-> & Hsome).
  intros Heq. apply Hsome. by apply spsc_count_zero.
Qed.

End SPSCThreadsFacts.

(** *** A thread running alone performs the sequential call

    The accesses of one call, performed without a step of the other thread
    in between, compute what [SPSCQueue::enqueue] and [SPSCQueue::dequeue]
    compute. *)

Section SPSCAlone.
Context {T : Type}.

Import SPSCQueue SPSCThreads.

Lemma spsc_enqueue_loop_alone sched (q q' : SPSCQueue.t (T:=T)) ct v ok cs res tr :
  enqueue_loop sched q ct v = Ret (q', ok) →
  ∃ acts,
    Forall (λ a, ∃ sp, a = ProducerStep sp) acts ∧
    run acts (State q (EnqLoadHead v ct) cs res tr) =
      Some (Ret (State q' PIdle cs res (tr ++ [Enqueued v ok]))).
Proof.
  revert q ct tr. induction sched as [|sp sched IH]; intros q ct tr.
  - cbn [enqueue_loop].
    destruct (_ =? _) eqn:Hfull.
    + intros [= <- <-]. exists [ProducerStep false]. split.
      { repeat constructor. by eexists. }
      cbn. rewrite Hfull. done.
    + by destruct (vec_store _ _ _).
  - cbn [enqueue_loop].
    destruct (_ =? _) eqn:Hfull.
    + intros [= <- <-]. exists [ProducerStep false]. split.
      { repeat constructor. by eexists. }
      cbn. rewrite Hfull. done.
    + destruct (vec_store (data q) ct v) as [d| |] eqn:Hd; [|done..].
      cbn [mbind outcome_bind].
      destruct (compare_exchange_weak sp (tail (set_data q d)) ct _)
        as [[cell ct'] ok'] eqn:Hcas.
      cbn [set_data tail] in Hcas.
      destruct ok'.
      * intros [= <- <-].
        exists [ProducerStep false; ProducerStep false; ProducerStep sp]. split.
        { repeat constructor; by eexists. }
        cbn. rewrite Hfull. cbn. rewrite Hd. cbn. rewrite Hcas.
        cbn. by rewrite !app_nil_r.
      * intros Hloop.
        destruct (IH _ _ tr Hloop) as (acts & Hacts & Hrun).
        exists (ProducerStep false :: ProducerStep false :: ProducerStep sp :: acts).
        split.
        { repeat (constructor; [by eexists|]). done. }
        cbn. rewrite Hfull. cbn. rewrite Hd. cbn. rewrite Hcas.
        cbn. rewrite !app_nil_r. exact Hrun.
Qed.

Lemma spsc_dequeue_loop_alone sched (q q' : SPSCQueue.t (T:=T)) ch r r' ok ps tr :
  dequeue_loop sched q ch r = Ret (q', r', ok) →
  ∃ acts,
    Forall (λ a, ∃ sp, a = ConsumerStep sp) acts ∧
    run acts (State q ps (DeqLoadTail ch) r tr) =
      Some (Ret (State q' ps CIdle r' (tr ++ [Dequeued r' ok]))).
Proof.
  revert q ch r tr. induction sched as [|sp sched IH]; intros q ch r tr.
  - cbn [dequeue_loop].
    destruct (_ =? _) eqn:Hempty.
    + intros [= <- <- <-]. exists [ConsumerStep false]. split.
      { repeat constructor. by eexists. }
      cbn. rewrite Hempty. done.
    + by destruct (vec_load _ _).
  - cbn [dequeue_loop].
    destruct (_ =? _) eqn:Hempty.
    + intros [= <- <- <-]. exists [ConsumerStep false]. split.
      { repeat constructor. by eexists. }
      cbn. rewrite Hempty. done.
    + destruct (vec_load (data q) ch) as [x| |] eqn:Hx; [|done..].
      cbn [mbind outcome_bind].
      destruct (compare_exchange_weak sp (head q) ch _) as [[cell ch'] ok'] eqn:Hcas.
      destruct ok'.
      * intros [= <- <- <-].
        exists [ConsumerStep false; ConsumerStep false; ConsumerStep sp]. split.
        { repeat constructor; by eexists. }
        cbn. rewrite Hempty. cbn. rewrite Hx. cbn. rewrite Hcas.
        cbn. by rewrite !app_nil_r.
      * intros Hloop.
        destruct (IH _ _ _ tr Hloop) as (acts & Hacts & Hrun).
        exists (ConsumerStep false :: ConsumerStep false :: ConsumerStep sp :: acts).
        split.
        { repeat (constructor; [by eexists|]). done. }
        cbn. rewrite Hempty. cbn. rewrite Hx. cbn. rewrite Hcas.
        cbn. rewrite !app_nil_r. exact Hrun.
Qed.

End SPSCAlone.

(** X19.  [SPSCQueue] with one producer thread and one consumer thread.
    The producer calls [enqueue] and the consumer [dequeue]; their accesses
    to [head], [tail] and [data] interleave in any way and any
    [compare_exchange_weak] may fail spuriously.  From a queue constructed
    with a power-of-two [Capacity], no access leaves the vector, and at every
    point of every interleaving: the values handed out by the successful
    [dequeue] calls are, in order, the first of the values accepted by the
    successful [enqueue] calls; [size()] is the number of the latter minus
    the number of the former; the write [data[currentTail] = value] and the
    read [result = data[currentHead]] are never about to touch the same
    slot; and when the queue is empty every accepted value has been handed
    out. *)
Theorem X19_spsc_producer_consumer_fifo :
  ∀ (T : Type) (T0 : T) (C : Z) (q0 : SPSCQueue.t) (r0 : T)
    (acts : list SPSCThreads.action) (o : outcome SPSCThreads.state),
    SizeT.pow2 C → SPSCQueue.new T0 C = SPSCQueue.Built q0 →
    SPSCThreads.run acts (SPSCThreads.init q0 r0) = Some o →
    ∃ s, o = Ret s ∧
      SPSCThreads.dequeued (SPSCThreads.trace s)
        `prefix_of` SPSCThreads.enqueued (SPSCThreads.trace s) ∧
      SPSCQueue.size C (SPSCThreads.mem s) =
        Z.of_nat (length (SPSCThreads.enqueued (SPSCThreads.trace s))) -
        Z.of_nat (length (SPSCThreads.dequeued (SPSCThreads.trace s))) ∧
      ¬ SPSCThreads.data_conflict s ∧
      (SPSCQueue.empty (SPSCThreads.mem s) = true →
       SPSCThreads.dequeued (SPSCThreads.trace s) =
       SPSCThreads.enqueued (SPSCThreads.trace s)).
Proof.
  intros T T0 C q0 r0 acts o HC Hnew Hrun.
  destruct (spsc_run_inv T0 C HC acts _ o (spsc_init_inv T0 C HC q0 r0 Hnew) Hrun)
    as (s & -> & HI).
  exists s. split; [done|].
  pose proof (spsc_no_conflict T0 C s HI) as Hnc.
  destruct HI as [Hwf Hacc Hp Hcs].
  pose proof (spsc_contents_length T0 C (SPSCThreads.mem s) Hwf) as Hlen.
  split; [|split; [|split; [done|]]].
  - rewrite Hacc. by eexists.
  - rewrite (spsc_size_count C HC _ Hwf), Hacc, length_app. lia.
  - intros Hempty. unfold SPSCQueue.empty in Hempty.
    rewrite (spsc_empty_count C _ Hwf) in Hempty. apply Z.eqb_eq in Hempty.
    rewrite Hacc. unfold SPSCProgram.contents. rewrite Hempty. cbn.
    by rewrite app_nil_r.
Qed.

Lemma X19_spsc_producer_consumer_fifo_witness :
  ∃ s, Ret Examples.spsc_race_end = Ret s ∧
    SPSCThreads.dequeued (SPSCThreads.trace s)
      `prefix_of` SPSCThreads.enqueued (SPSCThreads.trace s) ∧
    SPSCQueue.size 2 (SPSCThreads.mem s) =
      Z.of_nat (length (SPSCThreads.enqueued (SPSCThreads.trace s))) -
      Z.of_nat (length (SPSCThreads.dequeued (SPSCThreads.trace s))) ∧
    ¬ SPSCThreads.data_conflict s ∧
    (SPSCQueue.empty (SPSCThreads.mem s) = true →
     SPSCThreads.dequeued (SPSCThreads.trace s) =
     SPSCThreads.enqueued (SPSCThreads.trace s)).
Proof.
  apply (X19_spsc_producer_consumer_fifo Z 0 2 (SPSCQueue.Mk [0; 0] 0 0 1) 0
           Examples.spsc_race).
  - exists 1. unfold SizeT.bits. split; [lia|reflexivity].
  - reflexivity.
  - vm_compute. reflexivity.
Defined.

(** X26.  In [SPSCQueue] used by one producer and one consumer the retry
    loops of [enqueue] and [dequeue] are taken on a spurious failure only.
    At every point of every interleaving where the producer is about to
    perform [tail.compare_exchange_weak], [tail] still holds the value the
    producer loaded, whatever the consumer has done meanwhile: an attempt
    that does not fail spuriously succeeds, [enqueue] returns [true] and
    [tail] becomes [nextTail].  In the same way, when the consumer is at
    [head.compare_exchange_weak], [head] still holds [currentHead]: an
    attempt that does not fail spuriously succeeds and [dequeue] returns
    [true] with the value it copied. *)
Theorem X26_spsc_cas_never_contended :
  ∀ (T : Type) (T0 : T) (C : Z) (q0 : SPSCQueue.t) (r0 : T)
    (acts : list SPSCThreads.action) (o : outcome SPSCThreads.state),
    SizeT.pow2 C → SPSCQueue.new T0 C = SPSCQueue.Built q0 →
    SPSCThreads.run acts (SPSCThreads.init q0 r0) = Some o →
    ∃ s, o = Ret s ∧
      (∀ value currentTail nextTail,
         SPSCThreads.prod s = SPSCThreads.EnqCas value currentTail nextTail →
         SPSCQueue.tail (SPSCThreads.mem s) = currentTail ∧
         SPSCThreads.exec (SPSCThreads.ProducerStep false) s =
         Some (Ret (SPSCThreads.State
                      (SPSCQueue.set_tail (SPSCThreads.mem s) nextTail)
                      SPSCThreads.PIdle (SPSCThreads.cons s) (SPSCThreads.result s)
                      (SPSCThreads.trace s ++ [SPSCThreads.Enqueued value true])))) ∧
      (∀ currentHead,
         SPSCThreads.cons s = SPSCThreads.DeqCas currentHead →
         SPSCQueue.head (SPSCThreads.mem s) = currentHead ∧
         SPSCThreads.exec (SPSCThreads.ConsumerStep false) s =
         Some (Ret (SPSCThreads.State
                      (SPSCQueue.set_head (SPSCThreads.mem s) ((currentHead + 1) mod C))
                      (SPSCThreads.prod s) SPSCThreads.CIdle (SPSCThreads.result s)
                      (SPSCThreads.trace s ++
                         [SPSCThreads.Dequeued (SPSCThreads.result s) true])))).
Proof.
  intros T T0 C q0 r0 acts o HC Hnew Hrun.
  destruct (spsc_run_inv T0 C HC acts _ o (spsc_init_inv T0 C HC q0 r0 Hnew) Hrun)
    as (s & -> & HI).
  exists s. split; [done|].
  destruct HI as [Hwf Hacc Hp Hcs]. destruct s as [m p c r tr].
  cbn [SPSCThreads.mem SPSCThreads.prod SPSCThreads.cons SPSCThreads.result
       SPSCThreads.trace] in *.
  split.
  - intros value currentTail nextTail ->. cbn in Hp. destruct Hp as (-> & _).
    split; [done|].
    unfold SPSCThreads.exec, SPSCThreads.producer_step.
    cbn [SPSCThreads.mem SPSCThreads.prod SPSCThreads.cons SPSCThreads.result
         SPSCThreads.trace].
    unfold compare_exchange_weak. rewrite compare_exchange_strong_same.
    reflexivity.
  - intros currentHead ->. cbn in Hcs. destruct Hcs as (-> & _).
    split; [done|].
    destruct Hwf as (_ & Hmask & _).
    unfold SPSCThreads.exec, SPSCThreads.consumer_step.
    cbn [SPSCThreads.mem SPSCThreads.prod SPSCThreads.cons SPSCThreads.result
         SPSCThreads.trace].
    unfold compare_exchange_weak. rewrite compare_exchange_strong_same.
    rewrite Hmask, land_wrap_mask by done.
    reflexivity.
Qed.

Lemma X26_spsc_cas_never_contended_witness :
  ∃ s, Ret Examples.spsc_at_cas_end = Ret s ∧
    (∀ value currentTail nextTail,
       SPSCThreads.prod s = SPSCThreads.EnqCas value currentTail nextTail →
       SPSCQueue.tail (SPSCThreads.mem s) = currentTail ∧
       SPSCThreads.exec (SPSCThreads.ProducerStep false) s =
       Some (Ret (SPSCThreads.State
                    (SPSCQueue.set_tail (SPSCThreads.mem s) nextTail)
                    SPSCThreads.PIdle (SPSCThreads.cons s) (SPSCThreads.result s)
                    (SPSCThreads.trace s ++ [SPSCThreads.Enqueued value true])))) ∧
    (∀ currentHead,
       SPSCThreads.cons s = SPSCThreads.DeqCas currentHead →
       SPSCQueue.head (SPSCThreads.mem s) = currentHead ∧
       SPSCThreads.exec (SPSCThreads.ConsumerStep false) s =
       Some (Ret (SPSCThreads.State
                    (SPSCQueue.set_head (SPSCThreads.mem s) ((currentHead + 1) mod 4))
                    (SPSCThreads.prod s) SPSCThreads.CIdle (SPSCThreads.result s)
                    (SPSCThreads.trace s ++
                       [SPSCThreads.Dequeued (SPSCThreads.result s) true])))).
Proof.
  apply (X26_spsc_cas_never_contended Z 0 4 (SPSCQueue.Mk [0; 0; 0; 0] 0 0 3) 0
           Examples.spsc_at_cas).
  - exists 2. unfold SizeT.bits. split; [lia|reflexivity].
  - reflexivity.
  - vm_compute. reflexivity.
Defined.

(** ** [Queue.h]: [SPMCQueue] with two consumer threads *)

(** X20.  [SPMCQueue] with one producer and two consumers does not hand out
    every value once.  On the queue constructed with [Capacity = 2] there is
    an interleaving of the accesses of three [enqueue] calls (of [x], [y]
    and [z], all returning [true]) and three [dequeue] calls in which no
    compare-exchange fails spuriously, no access leaves the vector, the
    three [dequeue] calls return [true] with the values [x], [y] and again
    [x], and the queue ends empty: [x] is handed out twice and [z] never.
    The consumer that is delayed between reading [data[currentHead]] and its
    compare-exchange finds [head] back at the index it had read. *)
Theorem X20_spmc_two_consumers :
  ∀ (T : Type) (T0 x y z r0 : T),
    ∃ q0 s,
      SPMCQueue.new T0 2 = SPMCQueue.Built q0 ∧
      SPMCThreads.run (SPMCThreads.stale_head x y z) (SPMCThreads.init q0 2 r0)
        = Some (Ret s) ∧
      SPMCThreads.trace s =
        [SPMCThreads.Enqueued x true; SPMCThreads.Dequeued 1 x true;
         SPMCThreads.Enqueued y true; SPMCThreads.Dequeued 1 y true;
         SPMCThreads.Enqueued z true; SPMCThreads.Dequeued 0 x true] ∧
      SPMCThreads.prod s = SPMCThreads.PIdle ∧
      SPMCThreads.cons s = [(SPMCThreads.CIdle, x); (SPMCThreads.CIdle, y)] ∧
      SPMCQueue.empty (SPMCThreads.mem s) = true ∧
      SPMCQueue.size 2 (SPMCThreads.mem s) = 0.
Proof.
  intros T T0 x y z r0.
  eexists _, _. split; [reflexivity|]. split; [vm_compute; reflexivity|].
  repeat split.
Qed.

Section SPMCThreadsFacts.
Context {T : Type}.
Context (T0 : T).
Context (C : Z).
Context (HC : SizeT.pow2 C).

Import SPMCQueue SPMCThreads.
Implicit Types (m : SPMCQueue.t (T:=T)).

Local Abbreviation wf := (SPMCThreads.wf (T:=T) C).
Local Abbreviation Inv := (SPMCThreads.Inv (T:=T) C).
Local Abbreviation in_range := (SPMCThreads.in_range C).

Lemma spmc_next_in_range i : in_range (Z.land (SizeT.wrap (i + 1)) (C - 1)).
Proof.
  unfold SPMCThreads.in_range. rewrite land_wrap_mask by done.
  apply Z.mod_pos_bound. apply pow2_range in HC. lia.
Qed.

Lemma spmc_cas_in_range sp cell expected desired :
  in_range cell → in_range desired →
  in_range (compare_exchange_weak sp cell expected desired).1.1 ∧
  in_range (compare_exchange_weak sp cell expected desired).1.2.
Proof.
  intros Hcell Hdes. unfold compare_exchange_weak, compare_exchange_strong.
  destruct sp; [done|]. destruct (Z.eqb_spec cell expected) as [<-|]; done.
Qed.

Lemma spmc_producer_step_inv sp m pc r :
  wf m → producer_inv C pc → producer_step sp m pc = Some r →
  ∃ m' pc' evs, r = Ret (m', pc', evs) ∧ wf m' ∧ producer_inv C pc'.
Proof.
  intros Hwf Hp. pose proof Hwf as (Hlen & Hmask & Hh & Ht).
  destruct pc as [|v|v ct|v ct nt|v ct nt]; cbn [producer_step]; [done|..].
  - intros [= <-]. by eexists _, _, _.
  - destruct (_ =? _); intros [= <-]; eexists _, _, _; (split; [done|]);
      (split; [done|]); [done|].
    split; [done|]. rewrite Hmask. apply spmc_next_in_range.
  - destruct Hp as [Hct Hnt]. unfold vec_store.
    rewrite decide_True by (unfold SPMCThreads.in_range in Hct; lia).
    cbn [mbind outcome_bind]. intros [= <-]. eexists _, _, _.
    split; [done|]. split; [|done].
    unfold SPMCThreads.wf. cbn. by rewrite length_insert.
  - destruct Hp as [Hct Hnt].
    destruct (spmc_cas_in_range sp (tail m) ct nt Ht Hnt) as [Hcell Hexp].
    destruct (compare_exchange_weak sp (tail m) ct nt) as [[cell ct'] ok].
    cbn [fst snd] in Hcell, Hexp.
    destruct ok; intros [= <-]; eexists _, _, _; (split; [done|]); by split.
Qed.

Lemma spmc_consumer_step_inv i sp m c r :
  wf m → consumer_inv C c → consumer_step i sp m c.1 c.2 = Some r →
  ∃ m' c' evs, r = Ret (m', c', evs) ∧ wf m' ∧ consumer_inv C c'.
Proof.
  intros Hwf Hc. pose proof Hwf as (Hlen & Hmask & Hh & Ht).
  destruct c as [pc res]. unfold SPMCThreads.consumer_inv in Hc. cbn [fst snd] in *.
  destruct pc as [| |ch|ch|ch]; cbn [consumer_step]; [done|..].
  - intros [= <-]. by eexists _, _, _.
  - destruct (_ =? _); intros [= <-]; by eexists _, _, _.
  - unfold vec_load. rewrite decide_True by (unfold SPMCThreads.in_range in Hc; lia).
    destruct (lookup_lt_is_Some_2 (data m) (Z.to_nat ch)) as [x Hx].
    { unfold SPMCThreads.in_range in Hc. lia. }
    rewrite Hx. cbn [mbind outcome_bind]. intros [= <-]. by eexists _, _, _.
  - pose proof (spmc_next_in_range ch) as Hnext. rewrite <- Hmask in Hnext.
    destruct (spmc_cas_in_range sp (head m) ch _ Hh Hnext) as [Hcell Hexp].
    destruct (compare_exchange_weak sp (head m) ch _) as [[cell ch'] ok].
    cbn [fst snd] in Hcell, Hexp.
    destruct ok; intros [= <-]; eexists _, _, _; (split; [done|]); by split.
Qed.

Lemma spmc_exec_inv a s r :
  Inv s → exec a s = Some r → ∃ s', r = Ret s' ∧ Inv s'.
Proof.
  intros (Hwf & Hp & Hcs). destruct s as [m ps cs tr].
  cbn [mem prod cons trace] in *.
  destruct a as [v|sp|i|i sp]; cbn [exec mem prod cons trace].
  - destruct ps; try done. intros [= <-]. eexists. split; [done|]. by split.
  - destruct (producer_step sp m ps) as [r1|] eqn:Hstep; [|done].
    cbn [mbind option_bind]. intros [= <-].
    destruct (spmc_producer_step_inv sp m ps r1 Hwf Hp Hstep)
      as (m' & pc' & evs & -> & Hwf' & Hp').
    eexists. split; [done|]. by split.
  - destruct (cs !! i) as [[[| | | |] res]|] eqn:Hi; try done.
    intros [= <-]. eexists. split; [done|]. split; [done|]. split; [done|].
    cbn. by apply Forall_insert.
  - destruct (cs !! i) as [c|] eqn:Hi; [|done]. cbn [mbind option_bind].
    destruct (consumer_step i sp m c.1 c.2) as [r1|] eqn:Hstep; [|done].
    cbn [mbind option_bind]. intros [= <-].
    destruct (spmc_consumer_step_inv i sp m c r1 Hwf) as (m' & c' & evs & -> & Hwf' & Hc');
      [by eapply Forall_lookup_1|done|].
    eexists. split; [done|]. split; [done|]. split; [done|].
    cbn. by apply Forall_insert.
Qed.

Lemma spmc_run_inv acts s r :
  Inv s → run acts s = Some r → ∃ s', r = Ret s' ∧ Inv s'.
Proof.
  revert s. induction acts as [|a acts IH]; intros s HI; cbn [run].
  - intros [= <-]. by exists s.
  - destruct (exec a s) as [r1|] eqn:Hexec; [|done].
    destruct (spmc_exec_inv a s r1 HI Hexec) as (s1 & -> & HI1).
    by apply IH.
Qed.

Lemma spmc_init_inv q0 K r0 :
  SPMCQueue.new T0 C = Built q0 → Inv (init q0 K r0).
Proof.
  intros Hnew. pose proof (pow2_range C HC) as Hr.
  unfold SPMCQueue.new in Hnew. rewrite wrap_mask, land_mask_mod in Hnew by done.
  rewrite Z.mod_same in Hnew by lia. injection Hnew as <-.
  split; [|split].
  - unfold SPMCThreads.wf, SPMCThreads.in_range. cbn.
    rewrite length_replicate. repeat split; lia.
  - done.
  - cbn. by apply Forall_replicate.
Qed.

End SPMCThreadsFacts.

(** X21.  [SPMCQueue] with one producer and any number of consumers never
    leaves its vector.  From a queue constructed with a power-of-two
    [Capacity], at every point of every interleaving of the accesses of
    [enqueue] and [dequeue] calls, with any spurious compare-exchange
    failures, every access [data[i]] made so far was inside the vector, and
    [head] and [tail] lie in [0, Capacity), so that [size()] is at most
    [Capacity - 1]. *)
Theorem X21_spmc_indices_stay_in_range :
  ∀ (T : Type) (T0 : T) (C : Z) (K : nat) (q0 : SPMCQueue.t) (r0 : T)
    (acts : list SPMCThreads.action) (o : outcome SPMCThreads.state),
    SizeT.pow2 C → SPMCQueue.new T0 C = SPMCQueue.Built q0 →
    SPMCThreads.run acts (SPMCThreads.init q0 K r0) = Some o →
    ∃ s, o = Ret s ∧
      Z.of_nat (length (SPMCQueue.data (SPMCThreads.mem s))) = C ∧
      0 ≤ SPMCQueue.head (SPMCThreads.mem s) < C ∧
      0 ≤ SPMCQueue.tail (SPMCThreads.mem s) < C ∧
      0 ≤ SPMCQueue.size C (SPMCThreads.mem s) ≤ C - 1.
Proof.
  intros T T0 C K q0 r0 acts o HC Hnew Hrun.
  destruct (spmc_run_inv C HC acts _ o (spmc_init_inv T0 C HC q0 K r0 Hnew) Hrun)
    as (s & -> & (Hlen & Hmask & Hh & Ht) & _).
  exists s. split; [done|]. unfold SPMCThreads.in_range in *.
  pose proof (pow2_range C HC) as Hr.
  split; [lia|]. split; [done|]. split; [done|].
  unfold SPMCQueue.size. rewrite Hmask, land_wrap_mask by done.
  pose proof (Z.mod_pos_bound
                (SizeT.wrap (SPMCQueue.tail (SPMCThreads.mem s) -
                             SPMCQueue.head (SPMCThreads.mem s)) + C) C).
  lia.
Qed.

Lemma X21_spmc_indices_stay_in_range_witness :
  ∃ s, Ret Examples.stale_head_end = Ret s ∧
    Z.of_nat (length (SPMCQueue.data (SPMCThreads.mem s))) = 2 ∧
    0 ≤ SPMCQueue.head (SPMCThreads.mem s) < 2 ∧
    0 ≤ SPMCQueue.tail (SPMCThreads.mem s) < 2 ∧
    0 ≤ SPMCQueue.size 2 (SPMCThreads.mem s) ≤ 2 - 1.
Proof.
  apply (X21_spmc_indices_stay_in_range Z 0 2 2 (SPMCQueue.Mk [0; 0] 0 0 1) 0
           (SPMCThreads.stale_head 1 2 3)).
  - exists 1. unfold SizeT.bits. split; [lia|reflexivity].
  - reflexivity.
  - vm_compute. reflexivity.
Defined.
